(** * go-doboz: a shallow embedding of the codec and its verification

    The Go sources (common.go, the compressor, the dictionary and
    decompressor.go) are rendered as executable Gallina functions, and
    the properties of the codec are proved about them.

    Conventions of the embedding.
    - Go's [int] and [uint] are the 64-bit ones.  Positions, sizes and
      lengths are integers of [Z], taken to stay in the range of [int], as
      they do for every buffer that fits in memory; unsigned words are
      kept reduced modulo 2^64 ([to_uint]) wherever the source can wrap,
      and conversions to [uint32], [uint16] and [byte] are written out as
      remainders.
    - A byte buffer is a [list Z]; a slice [b[k:]] handed to a callee is
      the pair of the buffer [b] and the offset [k], and writes return the
      updated buffer.  The capacity of a slice is its length.
    - [hashTable] and [children] are slices of fixed length whose cells
      are a total function ([IntSlice]).
    - A run-time panic (index or slice bound out of range) is [None].
    - Loops carry a fuel argument of type [nat]; running out of fuel is
      [None] as well, and the theorems show that it does not happen.
    - A loop with a [break] is one step function returning [Continue] or
      [Break], iterated. *)

From Stdlib Require Import ZArith List Bool Lia Sorted.
Import ListNotations.
Open Scope Z_scope.

(* ------------------------------------------------------------------ *)
(** * Go values: panics, slices, fixed-width words *)

Notation "x <- e ;; k" :=
  (match e with Some x => k | None => None end)
  (at level 61, e at next level, right associativity).
Notation "' p <- e ;; k" :=
  (match e with Some p => k | None => None end)
  (at level 61, p pattern, e at next level, right associativity).

Definition len {A : Type} (l : list A) : Z := Z.of_nat (length l).

(** [l[i]] as an expression. *)
Definition index {A : Type} (l : list A) (i : Z) : option A :=
  if i <? 0 then None else nth_error l (Z.to_nat i).

(** [l[i] = x] as a statement. *)
Definition assign {A : Type} (l : list A) (i : Z) (x : A) : option (list A) :=
  if (0 <=? i) && (i <? len l)
  then Some (firstn (Z.to_nat i) l ++ x :: skipn (Z.to_nat i + 1) l)
  else None.

(** Writing the bytes [bs] over [l[off : off + len bs]]. *)
Definition blit (l : list Z) (off : Z) (bs : list Z) : option (list Z) :=
  if (0 <=? off) && (off + len bs <=? len l)
  then Some (firstn (Z.to_nat off) l ++ bs ++ skipn (Z.to_nat off + length bs) l)
  else None.

Definition to_uint (z : Z) : Z := z mod 2 ^ 64.
Definition to_uint32 (z : Z) : Z := z mod 2 ^ 32.
Definition to_uint16 (z : Z) : Z := z mod 2 ^ 16.
Definition to_byte (z : Z) : Z := z mod 2 ^ 8.

Definition byte_ok (b : Z) : Prop := 0 <= b < 256.
Definition bytes_ok (l : list Z) : Prop := Forall byte_ok l.

(** encoding/binary, little endian. *)
Definition le_bytes (n : nat) (v : Z) : list Z :=
  map (fun k => (v / 2 ^ (8 * Z.of_nat k)) mod 256) (seq 0 n).

Fixpoint le_value (bs : list Z) : Z :=
  match bs with
  | [] => 0
  | b :: bs' => b + 256 * le_value bs'
  end.

(** [binary.LittleEndian.UintN(b[off:])] for N = 8 * n. *)
Definition le_read (n : nat) (b : list Z) (off : Z) : option Z :=
  if (0 <=? off) && (off + Z.of_nat n <=? len b)
  then Some (le_value (firstn n (skipn (Z.to_nat off) b)))
  else None.

(* ------------------------------------------------------------------ *)
(** * common.go *)

Inductive Result : Type :=
  | RESULT_OK
  | RESULT_ERROR_BUFFER_TOO_SMALL
  | RESULT_ERROR_CORRUPTED_DATA
  | RESULT_ERROR_UNSUPPORTED_VERSION.

Definition Result_eqb (a b : Result) : bool :=
  match a, b with
  | RESULT_OK, RESULT_OK
  | RESULT_ERROR_BUFFER_TOO_SMALL, RESULT_ERROR_BUFFER_TOO_SMALL
  | RESULT_ERROR_CORRUPTED_DATA, RESULT_ERROR_CORRUPTED_DATA
  | RESULT_ERROR_UNSUPPORTED_VERSION, RESULT_ERROR_UNSUPPORTED_VERSION => true
  | _, _ => false
  end.

Record Match : Type := mkMatch { Length : Z; Offset : Z }.

Record Header : Type := mkHeader {
  UncompressedSize : Z;
  CompressedSize : Z;
  Version : Z;
  IsStored : bool
}.

(** The zero value of [Header] ([var header Header]). *)
Definition Header_zero : Header := mkHeader 0 0 0 false.

Definition VERSION : Z := 0.
Definition WORD_SIZE : Z := 4.
Definition MIN_MATCH_LENGTH : Z := 3.
Definition MAX_MATCH_LENGTH : Z := 255 + MIN_MATCH_LENGTH.
Definition MAX_MATCH_CANDIDATE_COUNT : Z := 128.
Definition DICTIONARY_SIZE : Z := 2 ^ 21.
Definition TAIL_LENGTH : Z := 2 * WORD_SIZE.
Definition TRAILING_DUMMY_SIZE : Z := WORD_SIZE.

Definition MaxUint : Z := 2 ^ 64 - 1.
Definition MaxInt : Z := Z.shiftr MaxUint 1.

(** [FastRead(source, sourceOffset, size)].  The drivers call it as
    [FastRead(b[k:], size)], which is [FastRead b k size] here. *)
Definition FastRead (source : list Z) (sourceOffset size : Z) : option Z :=
  if size =? 4 then le_read 4 source sourceOffset
  else if size =? 3 then le_read 4 source sourceOffset
  else if size =? 2 then le_read 2 source sourceOffset
  else if size =? 1 then index source sourceOffset
  else Some 0.

(** [FastWrite(destination, destinationOffset, word, size)].  Sizes 4, 3
    and 2 all take the four-byte slice [destination[off:off+4]]; size 3
    stores four bytes and size 2 stores two. *)
Definition FastWrite (destination : list Z) (destinationOffset word size : Z)
  : option (list Z) :=
  if size =? 4 then blit destination destinationOffset (le_bytes 4 (to_uint32 word))
  else if size =? 3 then blit destination destinationOffset (le_bytes 4 (to_uint32 word))
  else if size =? 2 then
    if (0 <=? destinationOffset) && (destinationOffset + 4 <=? len destination)
    then blit destination destinationOffset (le_bytes 2 (to_uint16 word))
    else None
  else if size =? 1 then assign destination destinationOffset (to_byte word)
  else Some destination.

Definition min (a b : Z) : Z := if a <? b then a else b.
Definition max (a b : Z) : Z := if a >? b then a else b.

(** FNV-1a over three bytes, in wrapping [uint] arithmetic. *)
Definition Hash (data : list Z) (pos : Z) : option Z :=
  let prime := 16777619 in
  let result := 2166136261 in
  b0 <- index data (pos + 0);;
  let result := to_uint (Z.lxor result b0 * prime) in
  b1 <- index data (pos + 1);;
  let result := to_uint (Z.lxor result b1 * prime) in
  b2 <- index data (pos + 2);;
  let result := to_uint (Z.lxor result b2 * prime) in
  Some result.

(** [copy(dst[lo:hi], src[from:])]. *)
Definition copy_slices (dst : list Z) (lo hi : Z) (src : list Z) (from : Z)
  : option (list Z) :=
  if (0 <=? lo) && (lo <=? hi) && (hi <=? len dst) && (0 <=? from) && (from <=? len src)
  then blit dst lo (firstn (Z.to_nat (hi - lo)) (skipn (Z.to_nat from) src))
  else None.

(* ------------------------------------------------------------------ *)
(** * The compressor: sizes, match codes, header *)

Definition getSizeCodedSize (size : Z) : Z :=
  if size <=? 255 then 1
  else if size <=? 65535 then 2
  else 4.

Definition getHeaderSize (maxCompressedSize : Z) : Z :=
  1 + 2 * getSizeCodedSize maxCompressedSize.

Definition GetMaxCompressedSize (size : Z) : Z :=
  getHeaderSize MaxInt + size.

(** Left shift and bitwise or on [uint]. *)
Definition shl (x k : Z) : Z := to_uint (Z.shiftl x k).

(** The first half of [encodeMatch]: the code word and its size. *)
Definition matchCode (m : Match) : Z * Z :=
  let lengthCode := to_uint (Length m - MIN_MATCH_LENGTH) in
  let offsetCode := to_uint (Offset m) in
  if (lengthCode =? 0) && (offsetCode <? 64) then
    (shl offsetCode 2, 1)
  else if (lengthCode =? 0) && (offsetCode <? 16384) then
    (Z.lor (shl offsetCode 2) 1, 2)
  else if (lengthCode <? 16) && (offsetCode <? 1024) then
    (Z.lor (Z.lor (shl offsetCode 6) (shl lengthCode 2)) 2, 2)
  else if (lengthCode <? 32) && (offsetCode <? 65536) then
    (Z.lor (Z.lor (shl offsetCode 8) (shl lengthCode 3)) 3, 3)
  else
    (Z.lor (Z.lor (shl offsetCode 11) (shl lengthCode 3)) 7, 4).

(** [encodeMatch(match, destination[off:])] with a destination that is not
    nil: the code is written and its size returned. *)
Definition encodeMatch (m : Match) (destination : list Z) (destinationOffset : Z)
  : option (list Z * Z) :=
  let '(word, size) := matchCode m in
  destination <- FastWrite destination destinationOffset word size;;
  Some (destination, size).

(** [encodeMatch(match, nil)]: nothing is written. *)
Definition getMatchCodedSize (m : Match) : Z := snd (matchCode m).

Fixpoint getBestMatch (matchCandidates : list Match) : Match :=
  match matchCandidates with
  | [] => mkMatch 0 0
  | matchCandidate :: rest =>
      if Length matchCandidate >? getMatchCodedSize matchCandidate
      then matchCandidate
      else getBestMatch rest
  end.

Definition encodeHeader (header : Header) (maxCompressedSize : Z)
  (destination : list Z) : option (list Z) :=
  let attributes := to_uint (Version header) in
  let sizeCodedSize := to_uint (getSizeCodedSize maxCompressedSize) in
  let attributes := Z.lor attributes (shl (sizeCodedSize - 1) 3) in
  let attributes := if IsStored header then Z.lor attributes 128 else attributes in
  destination <- assign destination 0 (to_byte attributes);;
  (* destination = destination[1:] : every offset below is shifted by one *)
  if sizeCodedSize =? 1 then
    destination <- assign destination (1 + 0) (to_byte (UncompressedSize header));;
    assign destination (1 + sizeCodedSize) (to_byte (CompressedSize header))
  else if sizeCodedSize =? 2 then
    destination <- blit destination 1 (le_bytes 2 (to_uint16 (UncompressedSize header)));;
    blit destination (1 + 2) (le_bytes 2 (to_uint16 (CompressedSize header)))
  else if sizeCodedSize =? 4 then
    destination <- blit destination 1 (le_bytes 4 (to_uint32 (UncompressedSize header)));;
    blit destination (1 + 4) (le_bytes 4 (to_uint32 (CompressedSize header)))
  else if sizeCodedSize =? 8 then
    destination <- blit destination 1 (le_bytes 8 (UncompressedSize header));;
    blit destination (1 + 8) (le_bytes 8 (CompressedSize header))
  else Some destination.

(* ------------------------------------------------------------------ *)
(** * decompressor.go *)

Module Info.
Record CompressionInfo : Type := mk {
  UncompressedSize : Z;
  CompressedSize : Z;
  Version : Z
}.
Definition zero : CompressionInfo := mk 0 0 0.
End Info.

Record LookupTable : Type := mkLookupTable {
  mask : Z;
  offsetShift : Z;
  lengthMask : Z;
  lengthShift : Z;
  size : Z
}.

Record Decompressor : Type := mkDecompressor {
  literalRunLengthTable : list Z;
  lut : list LookupTable
}.

(** The zero value [Decompressor{}]: both tables are nil. *)
Definition Decompressor_zero : Decompressor := mkDecompressor [] [].

(** [(d *Decompressor) initialize()]. *)
Definition Decompressor_initialize (d : Decompressor) : Decompressor :=
  mkDecompressor
    [4; 0; 1; 0; 2; 0; 1; 0; 3; 0; 1; 0; 2; 0; 1; 0]
    [ mkLookupTable 0xff 2 0 0 1;
      mkLookupTable 0xffff 2 0 0 2;
      mkLookupTable 0xffff 6 15 2 2;
      mkLookupTable 0xffffff 8 31 3 3;
      mkLookupTable 0xff 2 0 0 1;
      mkLookupTable 0xffff 2 0 0 2;
      mkLookupTable 0xffff 6 15 2 2;
      mkLookupTable 0xffffffff 11 255 3 4 ].

Definition decodeMatch (d : Decompressor) (source : list Z) (sourceOffset : Z)
  : option (Match * Z) :=
  word <- FastRead source sourceOffset WORD_SIZE;;
  let i := Z.land word 7 in
  e <- index (lut d) i;;
  let offset := Z.shiftr (Z.land word (mask e)) (offsetShift e) in
  let length := Z.land (Z.shiftr word (lengthShift e)) (lengthMask e) + MIN_MATCH_LENGTH in
  Some (mkMatch length offset, size e).

Definition decodeHeader (source : list Z) : option (Result * Header * Z) :=
  let header := Header_zero in
  if len source <? 1 then Some (RESULT_ERROR_BUFFER_TOO_SMALL, header, 0) else
  attributes <- index source 0;;
  let source := skipn 1 source in
  let header := mkHeader (UncompressedSize header) (CompressedSize header)
                         (Z.land attributes 7) (IsStored header) in
  let sizeCodedSize := Z.land (Z.shiftr attributes 3) 7 + 1 in
  let headerSize := 1 + 2 * sizeCodedSize in
  if len source <? headerSize then
    Some (RESULT_ERROR_BUFFER_TOO_SMALL, header, headerSize)
  else
  let header := mkHeader (UncompressedSize header) (CompressedSize header)
                         (Version header) (negb (Z.land attributes 128 =? 0)) in
  if sizeCodedSize =? 1 then
    u <- index source 0;;
    c <- index source sizeCodedSize;;
    Some (RESULT_OK, mkHeader u c (Version header) (IsStored header), headerSize)
  else if sizeCodedSize =? 2 then
    u <- le_read 2 source 0;;
    c <- le_read 2 source sizeCodedSize;;
    Some (RESULT_OK, mkHeader u c (Version header) (IsStored header), headerSize)
  else if sizeCodedSize =? 4 then
    u <- le_read 4 source 0;;
    c <- le_read 4 source sizeCodedSize;;
    Some (RESULT_OK, mkHeader u c (Version header) (IsStored header), headerSize)
  else if sizeCodedSize =? 8 then
    u <- le_read 8 source 0;;
    c <- le_read 8 source sizeCodedSize;;
    Some (RESULT_OK, mkHeader u c (Version header) (IsStored header), headerSize)
  else Some (RESULT_ERROR_CORRUPTED_DATA, header, headerSize).

Definition GetCompressionInfo (d : Decompressor) (source : list Z)
  : option (Result * Info.CompressionInfo) :=
  let compressionInfo := Info.zero in
  '(decodeHeaderResult, header, _) <- decodeHeader source;;
  if negb (Result_eqb decodeHeaderResult RESULT_OK) then
    Some (decodeHeaderResult, compressionInfo)
  else
    Some (RESULT_OK,
          Info.mk (UncompressedSize header) (CompressedSize header) (Version header)).

(** The tail path of the decoding loop: one literal per turn. *)
Fixpoint tailLiterals (fuel : nat) (inputBuffer : list Z) (inputEnd outputEnd : Z)
  (inputIterator outputIterator controlWord : Z) (outputBuffer : list Z)
  : option (Result * list Z) :=
  if outputIterator <? outputEnd then
    match fuel with
    | O => None
    | S fuel' =>
        if inputIterator + WORD_SIZE + 1 >? inputEnd then
          Some (RESULT_ERROR_CORRUPTED_DATA, outputBuffer)
        else
          '(controlWord, inputIterator) <-
            (if controlWord =? 1 then
               w <- FastRead inputBuffer inputIterator WORD_SIZE;;
               Some (w, inputIterator + WORD_SIZE)
             else Some (controlWord, inputIterator));;
          b <- index inputBuffer inputIterator;;
          outputBuffer <- assign outputBuffer outputIterator b;;
          tailLiterals fuel' inputBuffer inputEnd outputEnd
            (inputIterator + 1) (outputIterator + 1) (Z.shiftr controlWord 1)
            outputBuffer
    end
  else Some (RESULT_OK, outputBuffer).

(** [for i < 3 { FastWrite(out[outputIterator+i:], FastRead(out[matchString+i:], 1), 1); i++ }] *)
Fixpoint copyFirstBytes (fuel : nat) (outputBuffer : list Z)
  (outputIterator matchString i : Z) : option (list Z * Z) :=
  if i <? 3 then
    match fuel with
    | O => None
    | S fuel' =>
        w <- FastRead outputBuffer (matchString + i) 1;;
        outputBuffer <- FastWrite outputBuffer (outputIterator + i) w 1;;
        copyFirstBytes fuel' outputBuffer outputIterator matchString (i + 1)
    end
  else Some (outputBuffer, i).

(** [for ok := true; ok; ok = i < match.Length { ...; i += WORD_SIZE }]:
    the body runs before the test. *)
Fixpoint copyWords (fuel : nat) (outputBuffer : list Z)
  (outputIterator matchString i length : Z) : option (list Z) :=
  match fuel with
  | O => None
  | S fuel' =>
      w <- FastRead outputBuffer (matchString + i) WORD_SIZE;;
      outputBuffer <- FastWrite outputBuffer (outputIterator + i) w WORD_SIZE;;
      let i := i + WORD_SIZE in
      if i <? length
      then copyWords fuel' outputBuffer outputIterator matchString i length
      else Some outputBuffer
  end.

Fixpoint decodeLoop (fuel : nat) (d : Decompressor) (inputBuffer : list Z)
  (inputEnd outputEnd outputTail : Z)
  (inputIterator outputIterator controlWord : Z) (outputBuffer : list Z)
  : option (Result * list Z) :=
  match fuel with
  | O => None
  | S fuel' =>
      if inputIterator + 2 * WORD_SIZE >? inputEnd then
        Some (RESULT_ERROR_CORRUPTED_DATA, outputBuffer)
      else
        '(controlWord, inputIterator) <-
          (if controlWord =? 1 then
             w <- FastRead inputBuffer inputIterator WORD_SIZE;;
             Some (w, inputIterator + WORD_SIZE)
           else Some (controlWord, inputIterator));;
        if Z.land controlWord 1 =? 0 then
          if outputIterator <? outputTail then
            w <- FastRead inputBuffer inputIterator WORD_SIZE;;
            outputBuffer <- FastWrite outputBuffer outputIterator w WORD_SIZE;;
            runLength <- index (literalRunLengthTable d) (Z.land controlWord 15);;
            decodeLoop fuel' d inputBuffer inputEnd outputEnd outputTail
              (inputIterator + runLength) (outputIterator + runLength)
              (Z.shiftr controlWord runLength) outputBuffer
          else
            tailLiterals (Z.to_nat (outputEnd - outputIterator)) inputBuffer
              inputEnd outputEnd inputIterator outputIterator controlWord
              outputBuffer
        else
          '(m, matchSize) <- decodeMatch d inputBuffer inputIterator;;
          let inputIterator := inputIterator + matchSize in
          let matchString := outputIterator - Offset m in
          if (matchString <? 0) || (outputIterator + Length m >? outputTail) then
            Some (RESULT_ERROR_CORRUPTED_DATA, outputBuffer)
          else
            let i := 0 in
            '(outputBuffer, i, matchString) <-
              (if Offset m <? WORD_SIZE then
                 '(outputBuffer, i) <-
                   copyFirstBytes 3 outputBuffer outputIterator matchString i;;
                 Some (outputBuffer, i, matchString - (2 + Z.land (Offset m) 1))
               else Some (outputBuffer, i, matchString));;
            outputBuffer <-
              copyWords (Z.to_nat (Length m)) outputBuffer outputIterator
                matchString i (Length m);;
            decodeLoop fuel' d inputBuffer inputEnd outputEnd outputTail
              inputIterator (outputIterator + Length m)
              (Z.shiftr controlWord 1) outputBuffer
  end.

(** [Decompress(source, destination)]: the result and the destination
    buffer as the call leaves it. *)
Definition Decompress (d : Decompressor) (source destination : list Z)
  : option (Result * list Z) :=
  let inputBuffer := source in
  let inputIterator := 0 in
  let outputBuffer := destination in
  let outputIterator := 0 in
  '(decodeHeaderResult, header, headerSize) <- decodeHeader source;;
  if negb (Result_eqb decodeHeaderResult RESULT_OK) then
    Some (decodeHeaderResult, outputBuffer)
  else
  let inputIterator := inputIterator + headerSize in
  if negb (Version header =? VERSION) then
    Some (RESULT_ERROR_UNSUPPORTED_VERSION, outputBuffer)
  else
  if (len source <? CompressedSize header)
     || (len destination <? UncompressedSize header) then
    Some (RESULT_ERROR_BUFFER_TOO_SMALL, outputBuffer)
  else
  let uncompressedSize := UncompressedSize header in
  if IsStored header then
    outputBuffer <- copy_slices outputBuffer 0 uncompressedSize inputBuffer inputIterator;;
    Some (RESULT_OK, outputBuffer)
  else
  let inputEnd := CompressedSize header in
  let outputEnd := uncompressedSize in
  let outputTail :=
    if uncompressedSize >? TAIL_LENGTH then outputEnd - TAIL_LENGTH else 0 in
  let controlWord := 1 in
  decodeLoop (S (length source)) d inputBuffer inputEnd outputEnd outputTail
    inputIterator outputIterator controlWord outputBuffer.

(* ------------------------------------------------------------------ *)
(** * The dictionary (match finder) *)

(** A slice of [int] of fixed length, as [hashTable] and [children] are:
    nil, or a length and the cells.  The cells are a total function so
    that the two arrays of 2^20 and 2^22 entries stay cheap to build. *)
Inductive IntSlice : Type :=
  | NilSlice
  | Slice (n : Z) (cell : Z -> Z).

(** [make([]int, n)]: zeroed. *)
Definition make (n : Z) : IntSlice := Slice n (fun _ => 0).

Definition is_nil (s : IntSlice) : bool :=
  match s with NilSlice => true | Slice _ _ => false end.

Definition slice_get (s : IntSlice) (i : Z) : option Z :=
  match s with
  | NilSlice => None
  | Slice n cell => if (0 <=? i) && (i <? n) then Some (cell i) else None
  end.

Definition update (cell : Z -> Z) (i v : Z) : Z -> Z :=
  fun j => if j =? i then v else cell j.

Definition slice_set (s : IntSlice) (i v : Z) : option IntSlice :=
  match s with
  | NilSlice => None
  | Slice n cell =>
      if (0 <=? i) && (i <? n) then Some (Slice n (update cell i v)) else None
  end.

Definition update_all (cell : Z -> Z) (count : Z) (g : Z -> Z) : Z -> Z :=
  fun j => if (0 <=? j) && (j <? count) then g (cell j) else cell j.

(** [for i := 0; i < count; i++ { s[i] = g(s[i]) }] *)
Definition slice_update_all (s : IntSlice) (count : Z) (g : Z -> Z)
  : option IntSlice :=
  match s with
  | NilSlice => if count <=? 0 then Some NilSlice else None
  | Slice n cell =>
      if count <=? n then Some (Slice n (update_all cell count g)) else None
  end.

Definition HASH_TABLE_SIZE : Z := 2 ^ 20.
Definition CHILD_COUNT : Z := DICTIONARY_SIZE * 2.
Definition INVALID_POSITION : Z := -1.
Definition REBASE_THRESHOLD : Z :=
  (MaxInt - DICTIONARY_SIZE + 1) / DICTIONARY_SIZE * DICTIONARY_SIZE.

Record Dictionary : Type := mkDictionary {
  buffer : list Z;
  bufferBase : Z;
  matchableBufferLength : Z;
  absolutePosition : Z;
  hashTable : IntSlice;
  children : IntSlice
}.

(** The zero value [Dictionary{}]. *)
Definition Dictionary_zero : Dictionary := mkDictionary [] 0 0 0 NilSlice NilSlice.

(** [(d *Dictionary) initialize()]. *)
Definition Dictionary_initialize (d : Dictionary) : Dictionary :=
  mkDictionary (buffer d) (bufferBase d) (matchableBufferLength d)
    (absolutePosition d) (make HASH_TABLE_SIZE) (make CHILD_COUNT).

Definition SetBuffer (d : Dictionary) (buffer : list Z) : option Dictionary :=
  let matchable :=
    if len buffer >? TAIL_LENGTH + MIN_MATCH_LENGTH
    then len buffer - (TAIL_LENGTH + MIN_MATCH_LENGTH)
    else 0 in
  let d := mkDictionary buffer 0 matchable 0 (hashTable d) (children d) in
  let d := if is_nil (hashTable d) then Dictionary_initialize d else d in
  h <- slice_update_all (hashTable d) HASH_TABLE_SIZE (fun _ => INVALID_POSITION);;
  Some (mkDictionary buffer 0 matchable 0 h (children d)).

Definition Position (d : Dictionary) : Z := absolutePosition d.

Definition hash (data : list Z) (pos : Z) : option Z :=
  let prime := 16777619 in
  let result := 2166136261 in
  b0 <- index data (pos + 0);;
  let result := to_uint (Z.lxor result b0 * prime) in
  b1 <- index data (pos + 1);;
  let result := to_uint (Z.lxor result b1 * prime) in
  b2 <- index data (pos + 2);;
  let result := to_uint (Z.lxor result b2 * prime) in
  Some result.

Definition rebase (rebaseDelta : Z) (v : Z) : Z :=
  if v >=? rebaseDelta then v - rebaseDelta else INVALID_POSITION.

Definition computeRelativePosition (d : Dictionary) : option (Dictionary * Z) :=
  let position := absolutePosition d - bufferBase d in
  if position =? REBASE_THRESHOLD then
    let rebaseDelta := REBASE_THRESHOLD - DICTIONARY_SIZE in
    h <- slice_update_all (hashTable d) HASH_TABLE_SIZE (rebase rebaseDelta);;
    c <- slice_update_all (children d) CHILD_COUNT (rebase rebaseDelta);;
    Some (mkDictionary (buffer d) (bufferBase d + rebaseDelta)
            (matchableBufferLength d) (absolutePosition d) h c,
          position - rebaseDelta)
  else Some (d, position).

(** [for matchLength < maxMatchLength && buffer[a+matchLength] == buffer[b+matchLength] { matchLength++ }] *)
Fixpoint extendMatch (fuel : nat) (buffer : list Z) (a b maxMatchLength matchLength : Z)
  : option Z :=
  if matchLength <? maxMatchLength then
    x <- index buffer (a + matchLength);;
    y <- index buffer (b + matchLength);;
    if x =? y then
      match fuel with
      | O => None
      | S fuel' => extendMatch fuel' buffer a b maxMatchLength (matchLength + 1)
      end
    else Some matchLength
  else Some matchLength.

(** The variables of the search loop of [FindMatches]. *)
Record Search : Type := mkSearch {
  tree : IntSlice;                       (* d.children *)
  candidates : option (list Match);      (* matchCandidates, None when nil *)
  matchPosition : Z;
  leftSubtreeLeaf : Z;
  rightSubtreeLeaf : Z;
  lowMatchLength : Z;
  highMatchLength : Z;
  longestMatchLength : Z;
  matchCount : Z;
  matchCandidateCount : Z
}.

(** What one turn of a [for] loop leaves: go round again, or [break]. *)
Inductive Flow (A : Type) : Type :=
  | Continue (a : A)
  | Break (a : A).
Arguments Continue {A} a.
Arguments Break {A} a.

(** One turn of the search loop of [FindMatches]. *)
Definition searchStep (buffer : list Z)
  (bufferBase position minMatchPosition maxMatchLength : Z) (s : Search)
  : option (Flow Search) :=
  if (matchPosition s <? minMatchPosition)
     || (matchCount s =? MAX_MATCH_CANDIDATE_COUNT) then
    t <- slice_set (tree s) (leftSubtreeLeaf s) INVALID_POSITION;;
    t <- slice_set t (rightSubtreeLeaf s) INVALID_POSITION;;
    Some (Break (mkSearch t (candidates s) (matchPosition s) (leftSubtreeLeaf s)
                   (rightSubtreeLeaf s) (lowMatchLength s) (highMatchLength s)
                   (longestMatchLength s) (matchCount s) (matchCandidateCount s)))
  else
    let matchCount := matchCount s + 1 in
    let cyclicMatchPosition := Z.rem (matchPosition s) DICTIONARY_SIZE in
    let matchLength := min (lowMatchLength s) (highMatchLength s) in
    matchLength <-
      extendMatch (Z.to_nat (maxMatchLength - matchLength)) buffer
        (bufferBase + position) (bufferBase + matchPosition s)
        maxMatchLength matchLength;;
    let matchOffset := position - matchPosition s in
    let longer :=
      (matchLength >? longestMatchLength s) && (matchLength >=? MIN_MATCH_LENGTH) in
    let longestMatchLength :=
      if longer then matchLength else longestMatchLength s in
    '(candidates, matchCandidateCount) <-
      (if longer then
         match candidates s with
         | Some arr =>
             arr <- assign arr (matchCandidateCount s)
                      (mkMatch matchLength matchOffset);;
             Some (Some arr, matchCandidateCount s + 1)
         | None => Some (None, matchCandidateCount s)
         end
       else Some (candidates s, matchCandidateCount s));;
    if longer && (matchLength =? maxMatchLength) then
      l <- slice_get (tree s) (cyclicMatchPosition * 2);;
      t <- slice_set (tree s) (leftSubtreeLeaf s) l;;
      r <- slice_get t (cyclicMatchPosition * 2 + 1);;
      t <- slice_set t (rightSubtreeLeaf s) r;;
      Some (Break (mkSearch t candidates (matchPosition s) (leftSubtreeLeaf s)
                     (rightSubtreeLeaf s) (lowMatchLength s) (highMatchLength s)
                     longestMatchLength matchCount matchCandidateCount))
    else
      x <- index buffer (bufferBase + position + matchLength);;
      y <- index buffer (bufferBase + matchPosition s + matchLength);;
      if x <? y then
        t <- slice_set (tree s) (rightSubtreeLeaf s) (matchPosition s);;
        let rightSubtreeLeaf := cyclicMatchPosition * 2 in
        matchPosition <- slice_get t rightSubtreeLeaf;;
        Some (Continue (mkSearch t candidates matchPosition (leftSubtreeLeaf s)
                          rightSubtreeLeaf (lowMatchLength s) matchLength
                          longestMatchLength matchCount matchCandidateCount))
      else
        t <- slice_set (tree s) (leftSubtreeLeaf s) (matchPosition s);;
        let leftSubtreeLeaf := cyclicMatchPosition * 2 + 1 in
        matchPosition <- slice_get t leftSubtreeLeaf;;
        Some (Continue (mkSearch t candidates matchPosition leftSubtreeLeaf
                          (rightSubtreeLeaf s) matchLength (highMatchLength s)
                          longestMatchLength matchCount matchCandidateCount)).

Fixpoint searchLoop (fuel : nat) (buffer : list Z)
  (bufferBase position minMatchPosition maxMatchLength : Z) (s : Search)
  : option Search :=
  match fuel with
  | O => None
  | S fuel' =>
      turn <- searchStep buffer bufferBase position minMatchPosition maxMatchLength s;;
      match turn with
      | Continue s =>
          searchLoop fuel' buffer bufferBase position minMatchPosition maxMatchLength s
      | Break s => Some s
      end
  end.

(** [FindMatches(matchCandidates)]: the dictionary after the call, the
    candidate array after the call ([None] for a nil argument) and the
    number of candidates returned. *)
Definition FindMatches (d : Dictionary) (matchCandidates : option (list Match))
  : option (Dictionary * option (list Match) * Z) :=
  if absolutePosition d >=? matchableBufferLength d then
    Some (mkDictionary (buffer d) (bufferBase d) (matchableBufferLength d)
            (absolutePosition d + 1) (hashTable d) (children d),
          matchCandidates, 0)
  else
    let maxMatchLength :=
      min (len (buffer d) - TAIL_LENGTH - absolutePosition d) MAX_MATCH_LENGTH in
    '(d, position) <- computeRelativePosition d;;
    let minMatchPosition :=
      if position >=? DICTIONARY_SIZE then position - DICTIONARY_SIZE + 1 else 0 in
    h <- hash (buffer d) (bufferBase d + position);;
    let hashValue := h mod HASH_TABLE_SIZE in
    matchPosition <- slice_get (hashTable d) hashValue;;
    table <- slice_set (hashTable d) hashValue position;;
    let cyclicInputPosition := Z.rem position DICTIONARY_SIZE in
    let leftSubtreeLeaf := cyclicInputPosition * 2 in
    let rightSubtreeLeaf := cyclicInputPosition * 2 + 1 in
    s <- searchLoop (S (Z.to_nat MAX_MATCH_CANDIDATE_COUNT)) (buffer d) (bufferBase d)
           position minMatchPosition maxMatchLength
           (mkSearch (children d) matchCandidates matchPosition leftSubtreeLeaf
              rightSubtreeLeaf 0 0 0 0 0);;
    Some (mkDictionary (buffer d) (bufferBase d) (matchableBufferLength d)
            (absolutePosition d + 1) table (tree s),
          candidates s, matchCandidateCount s).

Definition Skip (d : Dictionary) : option Dictionary :=
  '(d, _, _) <- FindMatches d None;;
  Some d.

(* ------------------------------------------------------------------ *)
(** * The compressor driver *)

Record Compressor : Type := mkCompressor { dict : Dictionary }.

(** The zero value [Compressor{}]. *)
Definition Compressor_zero : Compressor := mkCompressor Dictionary_zero.

(** [store(source, destination, compressedSize)]: the result, the value
    left in [*compressedSize] and the destination buffer. *)
Definition store (source destination : list Z) : option (Result * Z * list Z) :=
  let outputIterator := 0 in
  let maxCompressedSize := GetMaxCompressedSize (len source) in
  let headerSize := getHeaderSize maxCompressedSize in
  let compressedSize := headerSize + len source in
  let header :=
    mkHeader (to_uint (len source)) (to_uint compressedSize) VERSION true in
  destination <- encodeHeader header maxCompressedSize destination;;
  let outputIterator := outputIterator + headerSize in
  destination <- copy_slices destination outputIterator (len destination) source 0;;
  Some (RESULT_OK, compressedSize, destination).

Definition controlWordBitCount : Z := WORD_SIZE * 8 - 1.
Definition controlWordGuardBit : Z := shl 1 controlWordBitCount.

(** The variables of the main loop of [Compress]. *)
Record Encoder : Type := mkEncoder {
  finder : Dictionary;             (* c.dict *)
  outputBuffer : list Z;
  outputIterator : Z;
  controlWord : Z;
  controlWordBit : Z;
  controlWordPointer : Z;
  nextMatch : Match;
  matchCandidates : list Match     (* [MAX_MATCH_CANDIDATE_COUNT]Match *)
}.

Inductive LoopExit : Type :=
  | StoreInstead (e : Encoder)     (* return c.store(...) *)
  | LoopDone (e : Encoder).        (* the loop condition failed *)

(** [for i := 0; i < n; i++ { c.dict.Skip() }] *)
Fixpoint skipTimes (n : nat) (d : Dictionary) : option Dictionary :=
  match n with
  | O => Some d
  | S n' => d <- Skip d;; skipTimes n' d
  end.

(** [matchCandidates[:count]] *)
Definition prefix (matchCandidates : list Match) (count : Z) : option (list Match) :=
  if (0 <=? count) && (count <=? len matchCandidates)
  then Some (firstn (Z.to_nat count) matchCandidates)
  else None.

(** [FindMatches(matchCandidates[:])] followed by
    [getBestMatch(matchCandidates[:matchCandidateCount])]. *)
Definition findBest (d : Dictionary) (matchCandidates : list Match)
  : option (Dictionary * list Match * Match) :=
  '(d, arr, matchCandidateCount) <- FindMatches d (Some matchCandidates);;
  arr <- arr;;
  found <- prefix arr matchCandidateCount;;
  Some (d, arr, getBestMatch found).

(** One turn of the main loop of [Compress]; [Break] is the return through
    [store]. *)
Definition compressStep (source : list Z) (maxOutputEnd : Z) (e : Encoder)
  : option (Flow Encoder) :=
  if outputIterator e + 2 * WORD_SIZE + TRAILING_DUMMY_SIZE >? maxOutputEnd then
    Some (Break e)
  else
    '(out, word, bit, pointer, iterator) <-
      (if controlWordBit e =? controlWordBitCount then
         out <- FastWrite (outputBuffer e) (controlWordPointer e)
                  (controlWord e) WORD_SIZE;;
         Some (out, controlWordGuardBit, 0, outputIterator e,
               outputIterator e + WORD_SIZE)
       else
         Some (outputBuffer e, controlWord e, controlWordBit e,
               controlWordPointer e, outputIterator e));;
    let m := nextMatch e in
    '(d, arr, next) <- findBest (finder e) (matchCandidates e);;
    let m :=
      if (Length m >? 0)
         && ((1 + Length next) * getMatchCodedSize m
             >? Length m * (1 + getMatchCodedSize next))
      then mkMatch 0 (Offset m) else m in
    if Length m =? 0 then
      b <- index source (Position d - 2);;
      out <- FastWrite out iterator (to_uint b) 1;;
      Some (Continue (mkEncoder d out (iterator + 1) word (bit + 1) pointer next arr))
    else
      let word := Z.lor word (shl 1 bit) in
      '(out, written) <- encodeMatch m out iterator;;
      d <- skipTimes (Z.to_nat (Length m - 2)) d;;
      '(d, arr, next) <- findBest d arr;;
      Some (Continue (mkEncoder d out (iterator + written) word (bit + 1) pointer
                        next arr)).

Fixpoint compressLoop (fuel : nat) (source : list Z) (maxOutputEnd : Z) (e : Encoder)
  : option LoopExit :=
  if Position (finder e) - 1 <? len source then
    match fuel with
    | O => None
    | S fuel' =>
        turn <- compressStep source maxOutputEnd e;;
        match turn with
        | Continue e => compressLoop fuel' source maxOutputEnd e
        | Break e => Some (StoreInstead e)
        end
    end
  else Some (LoopDone e).

(** [Compress(source, destination, compressedSize)]: the result, the value
    of [*compressedSize] after the call (it is [compressedSize] when the
    call does not assign it), the destination buffer and the compressor. *)
Definition Compress (c : Compressor) (source destination : list Z) (compressedSize : Z)
  : option (Result * Z * list Z * Compressor) :=
  if len source =? 0 then
    Some (RESULT_ERROR_BUFFER_TOO_SMALL, compressedSize, destination, c)
  else
  let maxCompressedSize := GetMaxCompressedSize (len source) in
  if len destination <? maxCompressedSize then
    Some (RESULT_ERROR_BUFFER_TOO_SMALL, compressedSize, destination, c)
  else
  let maxOutputEnd := maxCompressedSize in
  let iterator := getHeaderSize maxCompressedSize in
  d <- SetBuffer (dict c) source;;
  let word := controlWordGuardBit in
  let bit := 0 in
  let pointer := iterator in
  let iterator := iterator + WORD_SIZE in
  let next := mkMatch 0 0 in
  d <- Skip d;;
  let arr := repeat (mkMatch 0 0) (Z.to_nat MAX_MATCH_CANDIDATE_COUNT) in
  exit <- compressLoop (length source) source maxOutputEnd
            (mkEncoder d destination iterator word bit pointer next arr);;
  match exit with
  | StoreInstead e =>
      '(result, compressedSize, out) <- store source (outputBuffer e);;
      Some (result, compressedSize, out, mkCompressor (finder e))
  | LoopDone e =>
      out <- FastWrite (outputBuffer e) (controlWordPointer e) (controlWord e) WORD_SIZE;;
      out <- FastWrite out (outputIterator e) 0 TRAILING_DUMMY_SIZE;;
      let iterator := outputIterator e + TRAILING_DUMMY_SIZE in
      let compressedSize := iterator in
      let header :=
        mkHeader (to_uint (len source)) (to_uint compressedSize) VERSION false in
      out <- encodeHeader header maxCompressedSize out;;
      Some (RESULT_OK, compressedSize, out, mkCompressor (finder e))
  end.

(* ------------------------------------------------------------------ *)
(** * Vocabulary of the specifications *)

(** The size class a header byte announces. *)
Definition sizeClass (attributes : Z) : Z := Z.land (Z.shiftr attributes 3) 7 + 1.

(** A candidate that is worth coding: longer than its own code. *)
Definition profitable (m : Match) : Prop := Length m > getMatchCodedSize m.

(** The code word of [matchCode] in arithmetic form. *)
Definition codeWord (m : Match) : Z * Z :=
  let l := Length m - 3 in
  let o := Offset m in
  if (l =? 0) && (o <? 64) then (4 * o, 1)
  else if (l =? 0) && (o <? 16384) then (4 * o + 1, 2)
  else if (l <? 16) && (o <? 1024) then (64 * o + 4 * l + 2, 2)
  else if (l <? 32) && (o <? 65536) then (256 * o + 8 * l + 3, 3)
  else (2048 * o + 8 * l + 7, 4).

(** A call on the dictionary after [SetBuffer]. *)
Inductive Call : Type :=
  | CallFindMatches (matchCandidates : list Match)
  | CallSkip.

Definition call (d : Dictionary) (c : Call) : option Dictionary :=
  match c with
  | CallFindMatches out => '(d, _, _) <- FindMatches d (Some out);; Some d
  | CallSkip => Skip d
  end.

Fixpoint calls (d : Dictionary) (cs : list Call) : option Dictionary :=
  match cs with
  | [] => Some d
  | c :: cs' => d <- call d c;; calls d cs'
  end.

(** The candidate array of a call has room for every candidate. *)
Definition roomy (c : Call) : Prop :=
  match c with
  | CallFindMatches out => MAX_MATCH_CANDIDATE_COUNT <= len out
  | CallSkip => True
  end.

(** The relative position the dictionary stands at. *)
Definition currentRelative (d : Dictionary) : Z := absolutePosition d - bufferBase d.

(** An entry of the dictionary: INVALID_POSITION or a position below [bound]. *)
Definition valid_below (bound v : Z) : Prop :=
  v = INVALID_POSITION \/ 0 <= v < bound.

(** The two arrays are still nil, or allocated with their sizes. *)
Definition Usable (d : Dictionary) : Prop :=
  hashTable d = NilSlice \/
  exists h c, hashTable d = Slice HASH_TABLE_SIZE h /\ children d = Slice CHILD_COUNT c.

(** The relative positions below [processed d] have been inserted. *)
Definition processed (d : Dictionary) : Z :=
  Z.min (absolutePosition d) (matchableBufferLength d) - bufferBase d.

(** The slot of [children] holding the left (0) or right (1) child of the
    node at relative position [q]. *)
Definition slot (q side : Z) : Z := 2 * (q mod DICTIONARY_SIZE) + side.

Definition side_ok (side : Z) : Prop := side = 0 \/ side = 1.

(** The invariant of the dictionary between calls: every root is a
    position already inserted, and the children of every node still in the
    window are older than the node. *)
Record DictInv (d : Dictionary) : Prop := mkDictInv {
  inv_table :
    exists h, hashTable d = Slice HASH_TABLE_SIZE h /\
      forall i, 0 <= i < HASH_TABLE_SIZE -> valid_below (processed d) (h i);
  inv_tree :
    exists c, children d = Slice CHILD_COUNT c /\
      forall q side, 0 <= q -> processed d - DICTIONARY_SIZE <= q < processed d ->
        side_ok side -> valid_below q (c (slot q side));
  inv_base : 0 <= bufferBase d <= absolutePosition d;
  inv_matchable :
    matchableBufferLength d = Z.max 0 (len (buffer d) - (TAIL_LENGTH + MIN_MATCH_LENGTH))
}.

(** The oldest position a search at [position] may visit. *)
Definition windowStart (position : Z) : Z := Z.max 0 (position - DICTIONARY_SIZE + 1).

(** The invariant of the search loop.  [aL] and [aR] are the nodes whose
    slots are the two pending leaves. *)
Record SearchInv (position maxMatchLength : Z) (s : Search) : Prop := mkSearchInv {
  si_tree :
    exists c aL aR,
      tree s = Slice CHILD_COUNT c /\
      windowStart position <= aL <= position /\
      windowStart position <= aR <= position /\
      leftSubtreeLeaf s = slot aL (if aL =? position then 0 else 1) /\
      rightSubtreeLeaf s = slot aR (if aR =? position then 1 else 0) /\
      valid_below (Z.min aL aR) (matchPosition s) /\
      forall q side, windowStart position <= q <= position -> side_ok side ->
        slot q side <> leftSubtreeLeaf s -> slot q side <> rightSubtreeLeaf s ->
        valid_below q (c (slot q side));
  si_count : 0 <= matchCandidateCount s <= matchCount s /\
             matchCount s <= MAX_MATCH_CANDIDATE_COUNT;
  si_room : forall arr, candidates s = Some arr -> MAX_MATCH_CANDIDATE_COUNT <= len arr;
  si_lengths : 0 <= lowMatchLength s < maxMatchLength /\
               0 <= highMatchLength s < maxMatchLength /\
               0 <= longestMatchLength s < maxMatchLength
}.

(** What the search leaves in [children]. *)
Definition TreeDone (position : Z) (s : Search) : Prop :=
  exists c, tree s = Slice CHILD_COUNT c /\
    forall q side, windowStart position <= q <= position -> side_ok side ->
      valid_below q (c (slot q side)).

(** The candidates found so far. *)
Definition found (s : Search) : list Match :=
  match candidates s with
  | Some arr => firstn (Z.to_nat (matchCandidateCount s)) arr
  | None => []
  end.

Definition candidate_ok (longest : Z) (m : Match) : Prop :=
  MIN_MATCH_LENGTH <= Length m <= longest /\ 1 <= Offset m < DICTIONARY_SIZE.

Definition increasing (l : list Z) : Prop := Sorted.StronglySorted Z.lt l.

Definition CandInv (s : Search) : Prop :=
  Forall (candidate_ok (longestMatchLength s)) (found s) /\
  increasing (map Length (found s)).

(** Every cell of a slice is INVALID_POSITION or a position below [bound]. *)
Definition cells_below (bound : Z) (t : IntSlice) : Prop :=
  match t with
  | NilSlice => True
  | Slice n c => forall i, 0 <= i < n -> valid_below bound (c i)
  end.

(** How one turn of the search loop records a match of length
    [matchLength]: the candidate array, the count and the longest length
    after the turn. *)
Inductive Recorded (position : Z) (s : Search) (matchLength : Z)
  : option (list Match) -> Z -> Z -> Prop :=
  | recorded_stored (arr arr' : list Match) :
      matchLength > longestMatchLength s -> matchLength >= MIN_MATCH_LENGTH ->
      candidates s = Some arr ->
      assign arr (matchCandidateCount s)
        (mkMatch matchLength (position - matchPosition s)) = Some arr' ->
      Recorded position s matchLength (Some arr') (matchCandidateCount s + 1) matchLength
  | recorded_nil :
      matchLength > longestMatchLength s -> matchLength >= MIN_MATCH_LENGTH ->
      candidates s = None ->
      Recorded position s matchLength None (matchCandidateCount s) matchLength
  | recorded_not :
      ~ (matchLength > longestMatchLength s /\ matchLength >= MIN_MATCH_LENGTH) ->
      Recorded position s matchLength (candidates s) (matchCandidateCount s)
        (longestMatchLength s).

(** One turn of the search loop as a relation: the state [s], whose tree
    has the cells [c], and what the turn leaves. *)
Inductive SearchTurn (position maxMatchLength : Z) (s : Search) (c : Z -> Z)
  : Flow Search -> Prop :=
  | turn_exhausted :
      matchPosition s < windowStart position \/
      matchCount s = MAX_MATCH_CANDIDATE_COUNT ->
      SearchTurn position maxMatchLength s c
        (Break (mkSearch
           (Slice CHILD_COUNT
              (update (update c (leftSubtreeLeaf s) INVALID_POSITION)
                 (rightSubtreeLeaf s) INVALID_POSITION))
           (candidates s) (matchPosition s) (leftSubtreeLeaf s) (rightSubtreeLeaf s)
           (lowMatchLength s) (highMatchLength s) (longestMatchLength s)
           (matchCount s) (matchCandidateCount s)))
  | turn_splice (cands : option (list Match)) (count longest : Z) :
      windowStart position <= matchPosition s ->
      matchCount s < MAX_MATCH_CANDIDATE_COUNT ->
      Recorded position s maxMatchLength cands count longest ->
      SearchTurn position maxMatchLength s c
        (Break (mkSearch
           (Slice CHILD_COUNT
              (let t := update c (leftSubtreeLeaf s) (c (slot (matchPosition s) 0)) in
               update t (rightSubtreeLeaf s) (t (slot (matchPosition s) 1))))
           cands (matchPosition s) (leftSubtreeLeaf s) (rightSubtreeLeaf s)
           (lowMatchLength s) (highMatchLength s) longest
           (matchCount s + 1) count))
  | turn_right (matchLength : Z) (cands : option (list Match)) (count longest : Z) :
      windowStart position <= matchPosition s ->
      matchCount s < MAX_MATCH_CANDIDATE_COUNT ->
      min (lowMatchLength s) (highMatchLength s) <= matchLength < maxMatchLength ->
      Recorded position s matchLength cands count longest ->
      SearchTurn position maxMatchLength s c
        (Continue (mkSearch
           (Slice CHILD_COUNT (update c (rightSubtreeLeaf s) (matchPosition s)))
           cands
           (update c (rightSubtreeLeaf s) (matchPosition s) (slot (matchPosition s) 0))
           (leftSubtreeLeaf s) (slot (matchPosition s) 0)
           (lowMatchLength s) matchLength longest (matchCount s + 1) count))
  | turn_left (matchLength : Z) (cands : option (list Match)) (count longest : Z) :
      windowStart position <= matchPosition s ->
      matchCount s < MAX_MATCH_CANDIDATE_COUNT ->
      min (lowMatchLength s) (highMatchLength s) <= matchLength < maxMatchLength ->
      Recorded position s matchLength cands count longest ->
      SearchTurn position maxMatchLength s c
        (Continue (mkSearch
           (Slice CHILD_COUNT (update c (leftSubtreeLeaf s) (matchPosition s)))
           cands
           (update c (leftSubtreeLeaf s) (matchPosition s) (slot (matchPosition s) 1))
           (slot (matchPosition s) 1) (rightSubtreeLeaf s)
           matchLength (highMatchLength s) longest (matchCount s + 1) count)).

(** The window bound on a dictionary entry [p], for the dictionary [d]. *)
Definition in_window (d : Dictionary) (p : Z) : Prop :=
  p = INVALID_POSITION \/
  max 0 (currentRelative d - DICTIONARY_SIZE + 1) <= p < currentRelative d + 1.

(** The bounds of a candidate returned by [FindMatches]. *)
Definition match_in_range (m : Match) : Prop :=
  MIN_MATCH_LENGTH <= Length m <= MAX_MATCH_LENGTH /\
  1 <= Offset m <= DICTIONARY_SIZE.

(** The invariant of the main loop of [Compress]. *)
Record EncInv (source : list Z) (maxOutputEnd : Z) (e : Encoder) : Prop := mkEncInv {
  ei_dict : DictInv (finder e);
  ei_buffer : buffer (finder e) = source;
  ei_position : 1 <= Position (finder e);
  ei_room : maxOutputEnd <= len (outputBuffer e);
  ei_pointer : getHeaderSize maxOutputEnd <= controlWordPointer e /\
               controlWordPointer e + WORD_SIZE <= outputIterator e;
  ei_iterator : outputIterator e + TRAILING_DUMMY_SIZE <= maxOutputEnd \/
                Position (finder e) = 1;
  ei_bit : 0 <= controlWordBit e <= controlWordBitCount;
  ei_candidates : MAX_MATCH_CANDIDATE_COUNT <= len (matchCandidates e)
}.

(** The attribute byte of a header of version 0. *)
Definition attributeByte (sizeCodedSize : Z) (stored : bool) : Z :=
  (sizeCodedSize - 1) * 8 + (if stored then 128 else 0).

(** What a successful [Compress] leaves at the head of [out]: the bytes
    [encodeHeader] wrote for the sizes of the block. *)
Definition HeaderWritten (source out : list Z) (compressedSize : Z) : Prop :=
  exists stored buf hb,
    encodeHeader
      (mkHeader (to_uint (len source)) (to_uint compressedSize) VERSION stored)
      (GetMaxCompressedSize (len source)) buf = Some hb /\
    len hb = len out /\
    (forall j, j < getHeaderSize (GetMaxCompressedSize (len source)) ->
               index out j = index hb j).

(** A source of 4 GiB, every byte 1, and buffers of zeros. *)
Definition big_source : list Z := repeat 1 (Z.to_nat (2 ^ 32)).
Definition zeros (n : Z) : list Z := repeat 0 (Z.to_nat n).

(** What a caller of [Compress] observes: the result, [*compressedSize]
    and the destination buffer. *)
Definition outcome (x : option (Result * Z * list Z * Compressor))
  : option (Result * Z * list Z) :=
  '(result, size, out, _) <- x;; Some (result, size, out).

(* ------------------------------------------------------------------ *)
(** * Vocabulary of the further properties *)

(** The bytes of the slice a [FastWrite] of [size] takes, and the bytes it
    stores there. *)
Definition bytesTaken (size : Z) : Z := if size =? 1 then 1 else 4.
Definition bytesStored (size : Z) : Z := if size =? 3 then 4 else size.

(** The attribute byte of a header: the version in bits 0..2, the size
    class less one in bits 3..5, the stored flag in bit 7. *)
Definition attributes (version sizeCodedSize : Z) (stored : bool) : Z :=
  version + 8 * (sizeCodedSize - 1) + (if stored then 128 else 0).

(** What every step of [Decompress] keeps of the destination [dst0]: its
    length and its bytes from [outputEnd] on. *)
Definition kept (dst0 : list Z) (outputEnd : Z) (out : list Z) : Prop :=
  len out = len dst0 /\ forall j, outputEnd <= j -> index out j = index dst0 j.

(* ------------------------------------------------------------------ *)
(** * The order of the strings in the trees of the dictionary *)

(** The strings of [buf] that start at [a] and at [b] have the same first
    [n] bytes. *)
Definition agree (buf : list Z) (a b n : Z) : Prop :=
  forall i, 0 <= i < n ->
    exists x, index buf (a + i) = Some x /\ index buf (b + i) = Some x.

(** The string at [a] is below the string at [b], and byte [n] is the
    first to tell. *)
Definition below_at (buf : list Z) (a b n : Z) : Prop :=
  agree buf a b n /\
  exists x y, index buf (a + n) = Some x /\ index buf (b + n) = Some y /\ x < y.

(** The string at [a] is not above the string at [b] as far as their first
    [limit] bytes tell. *)
Definition le_upto (buf : list Z) (limit a b : Z) : Prop :=
  agree buf a b limit \/ exists n, 0 <= n < limit /\ below_at buf a b n.

(** A candidate found at [position] is a match of the buffer: the
    [Length] bytes at [position - Offset] are those at [position], and
    they end before the tail. *)
Definition is_match (buf : list Z) (position : Z) (m : Match) : Prop :=
  MIN_MATCH_LENGTH <= Length m <= MAX_MATCH_LENGTH /\
  1 <= Offset m <= position /\
  position + Length m <= len buf - TAIL_LENGTH /\
  agree buf (position - Offset m) position (Length m).

(** The nodes below the child [side] of the node [a], in the tree that
    the cells [c] hold: every link goes to an older node that is still in
    the window, which starts at [ws]. *)
Inductive Reach (c : Z -> Z) (ws a side : Z) : Z -> Prop :=
  | reach_child :
      ws <= c (slot a side) < a -> Reach c ws a side (c (slot a side))
  | reach_step (b s : Z) :
      Reach c ws a side b -> side_ok s -> ws <= c (slot b s) < b ->
      Reach c ws a side (c (slot b s)).

(** The trees are search trees: below the left child (0) of a node are
    strings that are not above the node's, below the right child (1)
    strings that are not below it. *)
Definition TreeOrd (buf : list Z) (base limit : Z) (c : Z -> Z) (ws top : Z) : Prop :=
  forall a side v, ws <= a < top -> side_ok side -> Reach c ws a side v ->
    (side = 0 -> le_upto buf limit (base + v) (base + a)) /\
    (side = 1 -> le_upto buf limit (base + a) (base + v)).

(** The longest match the last position inserted could have. *)
Definition orderLimit (d : Dictionary) : Z :=
  Z.min (len (buffer d) - TAIL_LENGTH - (absolutePosition d - 1)) MAX_MATCH_LENGTH.

(** The order invariant of the dictionary between calls. *)
Definition DictOrd (d : Dictionary) : Prop :=
  exists c, children d = Slice CHILD_COUNT c /\
    TreeOrd (buffer d) (bufferBase d) (orderLimit d) c
      (windowStart (processed d)) (processed d).

(** The cells with the two pending leaves cut off. *)
Definition cut (c : Z -> Z) (s : Search) : Z -> Z :=
  update (update c (leftSubtreeLeaf s) INVALID_POSITION)
    (rightSubtreeLeaf s) INVALID_POSITION.

(** Every link of [g] from a node of the window goes to a node that the
    cells [c0] have below the same child of that node. *)
Definition Linked (c0 : Z -> Z) (position : Z) (g : Z -> Z) : Prop :=
  forall b side, windowStart position <= b < position -> side_ok side ->
    windowStart position <= g (slot b side) < b ->
    Reach c0 (windowStart position) b side (g (slot b side)).

(** The order invariant of the search loop at [position]: [c0] are the
    cells the loop started with, [c] the cells now, [aL] and [aR] the
    nodes that own the pending leaves. *)
Record SearchOrd (buf : list Z) (base position limit : Z) (c0 : Z -> Z)
  (aL aR : Z) (s : Search) (c : Z -> Z) : Prop := mkSearchOrd {
  so_left : leftSubtreeLeaf s = slot aL (if aL =? position then 0 else 1);
  so_right : rightSubtreeLeaf s = slot aR (if aR =? position then 1 else 0);
  so_aL : windowStart position <= aL <= position;
  so_aR : windowStart position <= aR <= position;
  so_next :
    matchPosition s < Z.min aL aR /\
    (windowStart position <= matchPosition s ->
     (aL <> position -> Reach c0 (windowStart position) aL 1 (matchPosition s)) /\
     (aR <> position -> Reach c0 (windowStart position) aR 0 (matchPosition s)));
  so_low :
    0 <= lowMatchLength s /\
    (aL = position -> lowMatchLength s = 0) /\
    (aL <> position ->
     lowMatchLength s < limit /\
     below_at buf (base + aL) (base + position) (lowMatchLength s));
  so_high :
    0 <= highMatchLength s /\
    (aR = position -> highMatchLength s = 0) /\
    (aR <> position ->
     highMatchLength s < limit /\
     below_at buf (base + position) (base + aR) (highMatchLength s));
  so_cells : Linked c0 position c;
  so_smaller :
    forall v, Reach (cut c s) (windowStart position) position 0 v ->
      le_upto buf limit (base + v) (base + position);
  so_larger :
    forall v, Reach (cut c s) (windowStart position) position 1 v ->
      le_upto buf limit (base + position) (base + v);
  so_found : Forall (is_match buf (base + position)) (found s)
}.

(** One turn of the search loop with what it read in the buffer. *)
Inductive SearchTurnD (buf : list Z) (base position maxMatchLength : Z)
  (s : Search) (c : Z -> Z) : Flow Search -> Prop :=
  | turnD_exhausted :
      matchPosition s < windowStart position \/
      matchCount s = MAX_MATCH_CANDIDATE_COUNT ->
      SearchTurnD buf base position maxMatchLength s c
        (Break (mkSearch
           (Slice CHILD_COUNT
              (update (update c (leftSubtreeLeaf s) INVALID_POSITION)
                 (rightSubtreeLeaf s) INVALID_POSITION))
           (candidates s) (matchPosition s) (leftSubtreeLeaf s) (rightSubtreeLeaf s)
           (lowMatchLength s) (highMatchLength s) (longestMatchLength s)
           (matchCount s) (matchCandidateCount s)))
  | turnD_splice (cands : option (list Match)) (count longest : Z) :
      windowStart position <= matchPosition s < position ->
      matchCount s < MAX_MATCH_CANDIDATE_COUNT ->
      agree buf
        (base + position + Z.min (lowMatchLength s) (highMatchLength s))
        (base + matchPosition s + Z.min (lowMatchLength s) (highMatchLength s))
        (maxMatchLength - Z.min (lowMatchLength s) (highMatchLength s)) ->
      Recorded position s maxMatchLength cands count longest ->
      SearchTurnD buf base position maxMatchLength s c
        (Break (mkSearch
           (Slice CHILD_COUNT
              (let t := update c (leftSubtreeLeaf s) (c (slot (matchPosition s) 0)) in
               update t (rightSubtreeLeaf s) (t (slot (matchPosition s) 1))))
           cands (matchPosition s) (leftSubtreeLeaf s) (rightSubtreeLeaf s)
           (lowMatchLength s) (highMatchLength s) longest
           (matchCount s + 1) count))
  | turnD_right (matchLength : Z) (cands : option (list Match)) (count longest x y : Z) :
      windowStart position <= matchPosition s < position ->
      matchCount s < MAX_MATCH_CANDIDATE_COUNT ->
      agree buf
        (base + position + Z.min (lowMatchLength s) (highMatchLength s))
        (base + matchPosition s + Z.min (lowMatchLength s) (highMatchLength s))
        (matchLength - Z.min (lowMatchLength s) (highMatchLength s)) ->
      Z.min (lowMatchLength s) (highMatchLength s) <= matchLength < maxMatchLength ->
      index buf (base + position + matchLength) = Some x ->
      index buf (base + matchPosition s + matchLength) = Some y ->
      x < y ->
      Recorded position s matchLength cands count longest ->
      SearchTurnD buf base position maxMatchLength s c
        (Continue (mkSearch
           (Slice CHILD_COUNT (update c (rightSubtreeLeaf s) (matchPosition s)))
           cands
           (update c (rightSubtreeLeaf s) (matchPosition s) (slot (matchPosition s) 0))
           (leftSubtreeLeaf s) (slot (matchPosition s) 0)
           (lowMatchLength s) matchLength longest (matchCount s + 1) count))
  | turnD_left (matchLength : Z) (cands : option (list Match)) (count longest x y : Z) :
      windowStart position <= matchPosition s < position ->
      matchCount s < MAX_MATCH_CANDIDATE_COUNT ->
      agree buf
        (base + position + Z.min (lowMatchLength s) (highMatchLength s))
        (base + matchPosition s + Z.min (lowMatchLength s) (highMatchLength s))
        (matchLength - Z.min (lowMatchLength s) (highMatchLength s)) ->
      Z.min (lowMatchLength s) (highMatchLength s) <= matchLength < maxMatchLength ->
      index buf (base + position + matchLength) = Some x ->
      index buf (base + matchPosition s + matchLength) = Some y ->
      y < x ->
      Recorded position s matchLength cands count longest ->
      SearchTurnD buf base position maxMatchLength s c
        (Continue (mkSearch
           (Slice CHILD_COUNT (update c (leftSubtreeLeaf s) (matchPosition s)))
           cands
           (update c (leftSubtreeLeaf s) (matchPosition s) (slot (matchPosition s) 1))
           (slot (matchPosition s) 1) (rightSubtreeLeaf s)
           matchLength (highMatchLength s) longest (matchCount s + 1) count)).

(* ------------------------------------------------------------------ *)
(** * The stream of a compressed block *)

(** The first [n] bytes of [out] are those of [src]. *)
Definition restored (src out : list Z) (n : Z) : Prop :=
  forall j, 0 <= j < n -> index out j = index src j.

(** The block [blk], read from the input position [ii] with the control
    word [cw] (1 when it is used up), codes the bytes of [src] from the
    output position [oi] on: control words, literals and matches, then the
    trailing dummy before [inputEnd]. *)
Inductive Tok (d : Decompressor) (blk src : list Z) (inputEnd : Z) : Z -> Z -> Z -> Prop :=
  | tok_end (ii cw : Z) :
      ii + TRAILING_DUMMY_SIZE <= inputEnd ->
      Tok d blk src inputEnd ii (len src) cw
  | tok_reload (ii oi w : Z) :
      oi < len src ->
      FastRead blk ii WORD_SIZE = Some w -> 2 ^ 31 <= w < 2 ^ 32 ->
      Tok d blk src inputEnd (ii + WORD_SIZE) oi w ->
      Tok d blk src inputEnd ii oi 1
  | tok_literal (ii oi cw b : Z) :
      1 < cw -> Z.land cw 1 = 0 ->
      index blk ii = Some b -> index src oi = Some b ->
      Tok d blk src inputEnd (ii + 1) (oi + 1) (Z.shiftr cw 1) ->
      Tok d blk src inputEnd ii oi cw
  | tok_match (ii oi cw : Z) (m : Match) (size : Z) :
      1 < cw -> Z.land cw 1 = 1 ->
      decodeMatch d blk ii = Some (m, size) -> 1 <= size ->
      is_match src oi m ->
      Tok d blk src inputEnd (ii + size) (oi + Length m) (Z.shiftr cw 1) ->
      Tok d blk src inputEnd ii oi cw.

(* ================================================================== *)
(** * Theorems *)

(* ------------------------------------------------------------------ *)
(** * Slices and little-endian words *)

Lemma len_nonneg {A : Type} (l : list A) : 0 <= len l.
Proof. unfold len. lia. Qed.

Lemma len_app {A : Type} (l1 l2 : list A) : len (l1 ++ l2) = len l1 + len l2.
Proof. unfold len. rewrite length_app. lia. Qed.

Lemma len_cons {A : Type} (x : A) (l : list A) : len (x :: l) = 1 + len l.
Proof. unfold len. cbn [length]. lia. Qed.

Lemma len_repeat {A : Type} (x : A) (n : nat) : len (repeat x n) = Z.of_nat n.
Proof. unfold len. now rewrite repeat_length. Qed.

Lemma len_firstn {A : Type} (n : nat) (l : list A) :
  (n <= length l)%nat -> len (firstn n l) = Z.of_nat n.
Proof. intros H. unfold len. rewrite length_firstn. lia. Qed.

Lemma len_firstn_min {A : Type} (n : nat) (l : list A) :
  len (firstn n l) = Z.min (Z.of_nat n) (len l).
Proof. unfold len. rewrite length_firstn. lia. Qed.

Lemma len_skipn {A : Type} (n : nat) (l : list A) :
  len (skipn n l) = Z.max 0 (len l - Z.of_nat n).
Proof. unfold len. rewrite length_skipn. lia. Qed.

Lemma nth_error_firstn_lt {A : Type} (l : list A) (n k : nat) :
  (k < n)%nat -> nth_error (firstn n l) k = nth_error l k.
Proof.
  intros H. rewrite nth_error_firstn.
  destruct (Nat.ltb_spec k n); [reflexivity|lia].
Qed.

Lemma index_Some {A : Type} (l : list A) (i : Z) :
  0 <= i < len l -> exists x, index l i = Some x.
Proof.
  intros [H0 H1]. unfold index.
  destruct (Z.ltb_spec i 0); [lia|].
  destruct (nth_error l (Z.to_nat i)) eqn:E; [eauto|].
  apply nth_error_None in E. unfold len in H1. lia.
Qed.

Lemma index_range {A : Type} (l : list A) (i : Z) (x : A) :
  index l i = Some x -> 0 <= i < len l.
Proof.
  unfold index. destruct (Z.ltb_spec i 0); [discriminate|].
  intros E. assert (nth_error l (Z.to_nat i) <> None) as N by congruence.
  apply nth_error_Some in N. unfold len. lia.
Qed.

Lemma index_None {A : Type} (l : list A) (i : Z) :
  i < 0 \/ len l <= i -> index l i = None.
Proof.
  intros H. destruct (index l i) eqn:E; [|reflexivity].
  apply index_range in E. lia.
Qed.

Lemma assign_Some {A : Type} (l : list A) (i : Z) (x : A) :
  0 <= i < len l -> exists l', assign l i x = Some l' /\ len l' = len l.
Proof.
  intros [H0 H1]. unfold assign.
  destruct (Z.leb_spec 0 i); [|lia]. destruct (Z.ltb_spec i (len l)); [|lia].
  cbn [andb]. eexists; split; [reflexivity|].
  unfold len in *. rewrite length_app. cbn [length].
  rewrite length_firstn, length_skipn. lia.
Qed.

Lemma assign_len {A : Type} (l l' : list A) (i : Z) (x : A) :
  assign l i x = Some l' -> len l' = len l /\ 0 <= i < len l.
Proof.
  unfold assign.
  destruct (Z.leb_spec 0 i); cbn [andb]; [|discriminate].
  destruct (Z.ltb_spec i (len l)); [|discriminate].
  intros E. injection E as <-. split; [|lia].
  unfold len in *. rewrite length_app. cbn [length].
  rewrite length_firstn, length_skipn. lia.
Qed.

Lemma index_assign {A : Type} (l l' : list A) (i j : Z) (x : A) :
  assign l i x = Some l' ->
  index l' j = if j =? i then Some x else index l j.
Proof.
  unfold assign.
  destruct (Z.leb_spec 0 i); cbn [andb]; [|discriminate].
  destruct (Z.ltb_spec i (len l)); [|discriminate].
  intros E. injection E as <-. unfold index, len in *.
  destruct (Z.ltb_spec j 0).
  - destruct (Z.eqb_spec j i); [lia|reflexivity].
  - rewrite nth_error_app.
    rewrite length_firstn, Nat.min_l by lia.
    destruct (Nat.ltb_spec (Z.to_nat j) (Z.to_nat i)).
    + destruct (Z.eqb_spec j i); [lia|]. apply nth_error_firstn_lt; lia.
    + destruct (Z.eqb_spec j i).
      * subst. rewrite Nat.sub_diag. reflexivity.
      * destruct (Z.to_nat j - Z.to_nat i)%nat as [|k] eqn:K; [lia|].
        cbn [nth_error]. rewrite nth_error_skipn. f_equal. lia.
Qed.

Lemma blit_Some (l : list Z) (off : Z) (bs : list Z) :
  0 <= off -> off + len bs <= len l ->
  exists l', blit l off bs = Some l' /\ len l' = len l.
Proof.
  intros H0 H1. unfold blit.
  destruct (Z.leb_spec 0 off); [|lia].
  destruct (Z.leb_spec (off + len bs) (len l)); [|lia].
  cbn [andb]. eexists; split; [reflexivity|].
  unfold len in *. rewrite !length_app, length_firstn, length_skipn. lia.
Qed.

Lemma blit_len (l l' : list Z) (off : Z) (bs : list Z) :
  blit l off bs = Some l' ->
  len l' = len l /\ 0 <= off /\ off + len bs <= len l.
Proof.
  unfold blit.
  destruct (Z.leb_spec 0 off); cbn [andb]; [|discriminate].
  destruct (Z.leb_spec (off + len bs) (len l)); [|discriminate].
  intros E. injection E as <-. split; [|lia].
  unfold len in *. rewrite !length_app, length_firstn, length_skipn. lia.
Qed.

Lemma index_blit (l l' : list Z) (off : Z) (bs : list Z) (j : Z) :
  blit l off bs = Some l' ->
  index l' j =
    if (off <=? j) && (j <? off + len bs) then index bs (j - off) else index l j.
Proof.
  unfold blit.
  destruct (Z.leb_spec 0 off); cbn [andb]; [|discriminate].
  destruct (Z.leb_spec (off + len bs) (len l)); [|discriminate].
  intros E. injection E as <-. unfold index, len in *.
  destruct (Z.ltb_spec j 0).
  - destruct (Z.leb_spec off j); [lia|]. reflexivity.
  - rewrite nth_error_app, length_firstn, Nat.min_l by lia.
    destruct (Nat.ltb_spec (Z.to_nat j) (Z.to_nat off)).
    + destruct (Z.leb_spec off j); [lia|]. cbn [andb].
      apply nth_error_firstn_lt; lia.
    + destruct (Z.leb_spec off j); [|lia]. cbn [andb].
      rewrite nth_error_app.
      destruct (Z.ltb_spec j (off + Z.of_nat (length bs))).
      * destruct (Nat.ltb_spec (Z.to_nat j - Z.to_nat off) (length bs)); [|lia].
        destruct (Z.ltb_spec (j - off) 0); [lia|].
        f_equal. lia.
      * destruct (Nat.ltb_spec (Z.to_nat j - Z.to_nat off) (length bs)); [lia|].
        rewrite nth_error_skipn. f_equal. lia.
Qed.

(* ------------------------------------------------------------------ *)
(** * The header codec *)


Lemma land7_range (x : Z) : 0 <= Z.land x 7 < 8.
Proof.
  change 7 with (Z.ones 3). rewrite Z.land_ones by lia.
  apply Z.mod_pos_bound. reflexivity.
Qed.

Lemma sizeClass_range (a : Z) : 1 <= sizeClass a <= 8.
Proof. unfold sizeClass. pose proof (land7_range (Z.shiftr a 3)). lia. Qed.

Lemma le_read_Some (n : nat) (b : list Z) (off : Z) :
  0 <= off -> off + Z.of_nat n <= len b -> exists v, le_read n b off = Some v.
Proof.
  intros H0 H1. unfold le_read.
  destruct (Z.leb_spec 0 off); [|lia].
  destruct (Z.leb_spec (off + Z.of_nat n) (len b)); [|lia].
  cbn [andb]. eauto.
Qed.

Lemma len_tail (source : list Z) : 1 <= len source -> len (skipn 1 source) = len source - 1.
Proof. intros H. rewrite len_skipn. lia. Qed.

(** What [decodeHeader] answers, by the first byte and the length. *)
Lemma decodeHeader_empty (source : list Z) :
  len source < 1 -> decodeHeader source = Some (RESULT_ERROR_BUFFER_TOO_SMALL, Header_zero, 0).
Proof.
  intros H. unfold decodeHeader. destruct (Z.ltb_spec (len source) 1); [reflexivity|lia].
Qed.

Lemma decodeHeader_too_small (source : list Z) (a : Z) :
  index source 0 = Some a ->
  len source - 1 < 1 + 2 * sizeClass a ->
  decodeHeader source =
    Some (RESULT_ERROR_BUFFER_TOO_SMALL, mkHeader 0 0 (Z.land a 7) false,
          1 + 2 * sizeClass a).
Proof.
  intros Ha Hlen. pose proof (index_range _ _ _ Ha) as R.
  unfold decodeHeader. destruct (Z.ltb_spec (len source) 1); [lia|].
  rewrite Ha. rewrite len_tail by lia. fold (sizeClass a).
  destruct (Z.ltb_spec (len source - 1) (1 + 2 * sizeClass a)); [reflexivity|lia].
Qed.

Lemma decodeHeader_corrupted (source : list Z) (a : Z) :
  index source 0 = Some a ->
  1 + 2 * sizeClass a <= len source - 1 ->
  sizeClass a <> 1 -> sizeClass a <> 2 -> sizeClass a <> 4 -> sizeClass a <> 8 ->
  decodeHeader source =
    Some (RESULT_ERROR_CORRUPTED_DATA,
          mkHeader 0 0 (Z.land a 7) (negb (Z.land a 128 =? 0)),
          1 + 2 * sizeClass a).
Proof.
  intros Ha Hlen N1 N2 N4 N8. pose proof (index_range _ _ _ Ha) as R.
  unfold decodeHeader. destruct (Z.ltb_spec (len source) 1); [lia|].
  rewrite Ha. rewrite len_tail by lia. fold (sizeClass a).
  destruct (Z.ltb_spec (len source - 1) (1 + 2 * sizeClass a)); [lia|].
  destruct (Z.eqb_spec (sizeClass a) 1); [lia|].
  destruct (Z.eqb_spec (sizeClass a) 2); [lia|].
  destruct (Z.eqb_spec (sizeClass a) 4); [lia|].
  destruct (Z.eqb_spec (sizeClass a) 8); [lia|].
  reflexivity.
Qed.

Lemma decodeHeader_ok (source : list Z) (a : Z) :
  index source 0 = Some a ->
  1 + 2 * sizeClass a <= len source - 1 ->
  sizeClass a = 1 \/ sizeClass a = 2 \/ sizeClass a = 4 \/ sizeClass a = 8 ->
  exists u c,
    decodeHeader source =
      Some (RESULT_OK, mkHeader u c (Z.land a 7) (negb (Z.land a 128 =? 0)),
            1 + 2 * sizeClass a).
Proof.
  intros Ha Hlen Hc. pose proof (index_range _ _ _ Ha) as R.
  unfold decodeHeader. destruct (Z.ltb_spec (len source) 1); [lia|].
  rewrite Ha. pose proof (len_tail source ltac:(lia)) as LT. rewrite LT.
  fold (sizeClass a).
  destruct (Z.ltb_spec (len source - 1) (1 + 2 * sizeClass a)); [lia|].
  cbn [UncompressedSize CompressedSize Version IsStored Header_zero].
  destruct (Z.eqb_spec (sizeClass a) 1) as [E|].
  { destruct (index_Some (skipn 1 source) 0) as [u ->]; [lia|].
    destruct (index_Some (skipn 1 source) (sizeClass a)) as [c ->]; [lia|]. eauto. }
  destruct (Z.eqb_spec (sizeClass a) 2) as [E|].
  { destruct (le_read_Some 2 (skipn 1 source) 0) as [u ->]; [lia|lia|].
    destruct (le_read_Some 2 (skipn 1 source) (sizeClass a)) as [c ->]; [lia|lia|]. eauto. }
  destruct (Z.eqb_spec (sizeClass a) 4) as [E|].
  { destruct (le_read_Some 4 (skipn 1 source) 0) as [u ->]; [lia|lia|].
    destruct (le_read_Some 4 (skipn 1 source) (sizeClass a)) as [c ->]; [lia|lia|]. eauto. }
  destruct (Z.eqb_spec (sizeClass a) 8) as [E|].
  { destruct (le_read_Some 8 (skipn 1 source) 0) as [u ->]; [lia|lia|].
    destruct (le_read_Some 8 (skipn 1 source) (sizeClass a)) as [c ->]; [lia|lia|]. eauto. }
  lia.
Qed.

(** [decodeHeader] never panics. *)
Lemma decodeHeader_total (source : list Z) :
  exists r h hs, decodeHeader source = Some (r, h, hs).
Proof.
  destruct (Z.ltb_spec (len source) 1) as [H|H].
  - rewrite decodeHeader_empty by lia. eauto.
  - destruct (index_Some source 0) as [a Ha]; [lia|].
    destruct (Z.ltb_spec (len source - 1) (1 + 2 * sizeClass a)).
    + rewrite (decodeHeader_too_small _ _ Ha) by lia. eauto.
    + destruct (Z.eq_dec (sizeClass a) 1); [|destruct (Z.eq_dec (sizeClass a) 2);
        [|destruct (Z.eq_dec (sizeClass a) 4); [|destruct (Z.eq_dec (sizeClass a) 8)]]].
      1-4: destruct (decodeHeader_ok source a) as (u & c & ->); eauto; lia.
      rewrite (decodeHeader_corrupted _ _ Ha) by lia. eauto.
Qed.

(** C4: the claim asks that a source of exactly headerSize = 1 + 2 *
    sizeCodedSize bytes is not answered with BufferTooSmall.  The code
    compares headerSize with the length left after the attribute byte was
    cut off, so that every source of exactly headerSize bytes is refused
    with RESULT_ERROR_BUFFER_TOO_SMALL. *)
Theorem decodeHeader_exact_size_refused (source : list Z) (a : Z) :
  index source 0 = Some a ->
  len source = 1 + 2 * sizeClass a ->
  exists h, decodeHeader source =
            Some (RESULT_ERROR_BUFFER_TOO_SMALL, h, 1 + 2 * sizeClass a).
Proof.
  intros Ha Hlen. rewrite (decodeHeader_too_small _ _ Ha) by lia. eauto.
Qed.

Lemma decodeHeader_exact_size_refused_witness :
  index [0; 5; 3] 0 = Some 0 /\ len [0; 5; 3] = 1 + 2 * sizeClass 0 /\
  exists h, decodeHeader [0; 5; 3] =
            Some (RESULT_ERROR_BUFFER_TOO_SMALL, h, 1 + 2 * sizeClass 0).
Proof.
  split; [reflexivity|]. split; [reflexivity|].
  apply (decodeHeader_exact_size_refused [0; 5; 3] 0); reflexivity.
Defined.

(** C6 as stated fails on a lone header byte: the byte 40 announces the
    size class 6, and both calls answer BufferTooSmall. *)
Lemma lone_header_byte_is_too_small :
  sizeClass 40 = 6 /\
  GetCompressionInfo Decompressor_zero [40]
    = Some (RESULT_ERROR_BUFFER_TOO_SMALL, Info.zero) /\
  Decompress Decompressor_zero [40] [] = Some (RESULT_ERROR_BUFFER_TOO_SMALL, []).
Proof. repeat split. Qed.

(** C6, amended: for every source of more than headerSize bytes whose
    first byte announces a size class in {3,5,6,7}, both [Decompress] and
    [GetCompressionInfo] return RESULT_ERROR_CORRUPTED_DATA. *)
Theorem bad_size_class_is_corrupted (d : Decompressor) (source destination : list Z) (a : Z) :
  index source 0 = Some a ->
  In (sizeClass a) [3; 5; 6; 7] ->
  1 + 2 * sizeClass a < len source ->
  Decompress d source destination = Some (RESULT_ERROR_CORRUPTED_DATA, destination) /\
  GetCompressionInfo d source = Some (RESULT_ERROR_CORRUPTED_DATA, Info.zero).
Proof.
  intros Ha Hin Hlen.
  assert (decodeHeader source =
    Some (RESULT_ERROR_CORRUPTED_DATA,
          mkHeader 0 0 (Z.land a 7) (negb (Z.land a 128 =? 0)),
          1 + 2 * sizeClass a)) as E.
  { apply decodeHeader_corrupted; trivial; try lia;
    cbn [In] in Hin; lia. }
  unfold Decompress, GetCompressionInfo. rewrite E. cbn. split; reflexivity.
Qed.

Lemma bad_size_class_is_corrupted_witness :
  index [40; 0; 0; 0; 0; 0; 0; 0; 0; 0; 0; 0; 0; 0] 0 = Some 40 /\
  In (sizeClass 40) [3; 5; 6; 7] /\
  Decompress Decompressor_zero [40; 0; 0; 0; 0; 0; 0; 0; 0; 0; 0; 0; 0; 0] [9]
    = Some (RESULT_ERROR_CORRUPTED_DATA, [9]) /\
  GetCompressionInfo Decompressor_zero [40; 0; 0; 0; 0; 0; 0; 0; 0; 0; 0; 0; 0; 0]
    = Some (RESULT_ERROR_CORRUPTED_DATA, Info.zero).
Proof.
  split; [reflexivity|]. split; [cbn; tauto|].
  apply (bad_size_class_is_corrupted Decompressor_zero
           [40; 0; 0; 0; 0; 0; 0; 0; 0; 0; 0; 0; 0; 0] [9] 40).
  - reflexivity.
  - cbn; tauto.
  - reflexivity.
Defined.



(** C7: [getBestMatch] returns the first candidate of the list whose
    Length exceeds its coded size; when there is none, it returns a match
    of Length 0.  (This holds for every list, sorted or not.) *)

Theorem getBestMatch_first_profitable (matchCandidates : list Match) :
  (exists before m after,
      matchCandidates = before ++ m :: after /\
      Forall (fun c => ~ profitable c) before /\
      profitable m /\
      getBestMatch matchCandidates = m)
  \/ (Forall (fun c => ~ profitable c) matchCandidates /\
      Length (getBestMatch matchCandidates) = 0).
Proof.
  induction matchCandidates as [|c rest IH].
  - right. split; [constructor|reflexivity].
  - cbn [getBestMatch]. destruct (Z.gtb_spec (Length c) (getMatchCodedSize c)) as [G|G].
    + left. exists [], c, rest. repeat split; trivial. unfold profitable. lia.
    + assert (~ profitable c) as NP by (unfold profitable; lia).
      destruct IH as [(before & m & after & -> & Hb & Hm & E)|[Hall E]].
      * left. exists (c :: before), m, after. repeat split; trivial.
        constructor; trivial.
      * right. split; trivial. constructor; trivial.
Qed.

(* ------------------------------------------------------------------ *)
(** * The match codec *)

Lemma firstn_skipn_index (b bs : list Z) (off : Z) :
  0 <= off ->
  (forall k, (k < length bs)%nat -> index b (off + Z.of_nat k) = nth_error bs k) ->
  firstn (length bs) (skipn (Z.to_nat off) b) = bs.
Proof.
  intros H0 H. apply nth_error_ext. intros k.
  rewrite nth_error_firstn. destruct (Nat.ltb_spec k (length bs)) as [L|L].
  - rewrite nth_error_skipn. rewrite <- (H k L). unfold index.
    destruct (Z.ltb_spec (off + Z.of_nat k) 0); [lia|]. f_equal. lia.
  - symmetry. apply nth_error_None. lia.
Qed.

Lemma le_read_bytes (b bs : list Z) (off : Z) :
  0 <= off -> off + len bs <= len b ->
  (forall k, (k < length bs)%nat -> index b (off + Z.of_nat k) = nth_error bs k) ->
  le_read (length bs) b off = Some (le_value bs).
Proof.
  intros H0 H1 H. unfold le_read. fold (len bs).
  destruct (Z.leb_spec 0 off); [|lia].
  destruct (Z.leb_spec (off + len bs) (len b)); [|lia].
  cbn [andb]. now rewrite firstn_skipn_index.
Qed.

Lemma le_read4 (b : list Z) (off b0 b1 b2 b3 : Z) :
  index b off = Some b0 -> index b (off + 1) = Some b1 ->
  index b (off + 2) = Some b2 -> index b (off + 3) = Some b3 ->
  le_read 4 b off = Some (b0 + 256 * (b1 + 256 * (b2 + 256 * b3))).
Proof.
  intros E0 E1 E2 E3.
  pose proof (index_range _ _ _ E0). pose proof (index_range _ _ _ E3).
  change 4%nat with (length [b0; b1; b2; b3]).
  rewrite (le_read_bytes b [b0; b1; b2; b3] off).
  - cbn [le_value]. f_equal. lia.
  - lia.
  - unfold len at 1; cbn [length]; lia.
  - intros k Hk. cbn [length] in Hk.
    destruct k as [|[|[|[|k]]]]; cbn [nth_error]; try lia;
      rewrite <- ?E0, <- ?E1, <- ?E2, <- ?E3; f_equal; lia.
Qed.

Lemma land_shifted_small (a b k : Z) :
  0 <= k -> 0 <= b < 2 ^ k -> Z.land (a * 2 ^ k) b = 0.
Proof.
  intros Hk Hb. apply Z.bits_inj'. intros n Hn.
  rewrite Z.land_spec, Z.bits_0.
  destruct (Z.ltb_spec n k).
  - rewrite Z.mul_pow2_bits_low by lia. reflexivity.
  - rewrite <- (Z.mod_small b (2 ^ k)) by lia.
    rewrite Z.mod_pow2_bits_high by lia. apply andb_false_r.
Qed.

Lemma lor_shifted_small (a b k : Z) :
  0 <= k -> 0 <= b < 2 ^ k -> Z.lor (a * 2 ^ k) b = a * 2 ^ k + b.
Proof.
  intros Hk Hb. pose proof (Z.add_lor_land (a * 2 ^ k) b) as E.
  rewrite land_shifted_small in E by trivial. lia.
Qed.

Lemma shl_small (x k : Z) :
  0 <= k -> 0 <= x -> x * 2 ^ k < 2 ^ 64 -> shl x k = x * 2 ^ k.
Proof.
  intros Hk Hx Hs. unfold shl, to_uint. rewrite Z.shiftl_mul_pow2 by lia.
  apply Z.mod_small. split; [|lia]. apply Z.mul_nonneg_nonneg; lia.
Qed.

Lemma matchCode_arith (m : Match) :
  3 <= Length m <= 258 -> 0 <= Offset m < 2 ^ 32 ->
  matchCode m = codeWord m.
Proof.
  intros HL HO. unfold matchCode, codeWord, MIN_MATCH_LENGTH.
  unfold to_uint. rewrite !Z.mod_small by lia.
  set (l := Length m - 3) in *. set (o := Offset m) in *.
  assert (0 <= l < 256) by (subst l; lia).
  rewrite !shl_small by lia.
  destruct ((l =? 0) && (o <? 64)); [f_equal; lia|].
  destruct ((l =? 0) && (o <? 16384)).
  { f_equal. rewrite lor_shifted_small by lia. lia. }
  destruct ((l <? 16) && (o <? 1024)) eqn:E3.
  { apply andb_prop in E3 as [E3 _]. apply Z.ltb_lt in E3. f_equal.
    rewrite <- Z.lor_assoc.
    rewrite (lor_shifted_small l 2 2) by lia.
    rewrite (lor_shifted_small o (l * 2 ^ 2 + 2) 6) by lia. lia. }
  destruct ((l <? 32) && (o <? 65536)) eqn:E4.
  { apply andb_prop in E4 as [E4 _]. apply Z.ltb_lt in E4. f_equal.
    rewrite <- Z.lor_assoc.
    rewrite (lor_shifted_small l 3 3) by lia.
    rewrite (lor_shifted_small o (l * 2 ^ 3 + 3) 8) by lia. lia. }
  f_equal. rewrite <- Z.lor_assoc.
  rewrite (lor_shifted_small l 7 3) by lia.
  rewrite (lor_shifted_small o (l * 2 ^ 3 + 7) 11) by lia. lia.
Qed.

Lemma le_bytes4 (v : Z) :
  le_bytes 4 v = [v mod 256; (v / 256) mod 256; (v / 65536) mod 256; (v / 16777216) mod 256].
Proof. unfold le_bytes. cbn [map seq]. f_equal. f_equal. apply Z.div_1_r. Qed.

Lemma le_bytes2 (v : Z) : le_bytes 2 v = [v mod 256; (v / 256) mod 256].
Proof. unfold le_bytes. cbn [map seq]. f_equal. f_equal. apply Z.div_1_r. Qed.

Lemma bytes_ok_index (buf : list Z) (i b : Z) :
  bytes_ok buf -> index buf i = Some b -> 0 <= b < 256.
Proof.
  intros Hb E. unfold index in E. destruct (i <? 0); [discriminate|].
  apply nth_error_In in E. unfold bytes_ok in Hb. rewrite Forall_forall in Hb.
  exact (Hb _ E).
Qed.

Ltac written_byte E n :=
  rewrite (index_blit _ _ _ _ _ E); unfold len; cbn [length];
  match goal with
  | |- context [(?a <=? ?j) && (?j <? ?b)] =>
      destruct (Z.leb_spec a j); [|lia]; destruct (Z.ltb_spec j b); [|lia]
  end;
  cbn [andb];
  match goal with |- index _ ?k = _ => replace k with n by lia end;
  reflexivity.

Ltac kept_byte E :=
  rewrite (index_blit _ _ _ _ _ E); unfold len; cbn [length];
  match goal with
  | |- context [(?a <=? ?j) && (?j <? ?b)] => destruct (Z.ltb_spec j b); [lia|]
  end;
  rewrite andb_false_r; assumption.

(** Reading a word back where a code of [s] bytes was written: the code in
    the low bytes, whatever the buffer held above them. *)
Lemma FastRead_FastWrite (buf : list Z) (off w s : Z) :
  bytes_ok buf -> 0 <= off -> off + 4 <= len buf ->
  (s = 1 /\ 0 <= w < 2 ^ 8) \/ (s = 2 /\ 0 <= w < 2 ^ 16) \/
  (s = 3 /\ 0 <= w < 2 ^ 24) \/ (s = 4 /\ 0 <= w < 2 ^ 32) ->
  exists buf' G,
    FastWrite buf off w s = Some buf' /\
    FastRead buf' off 4 = Some (w + 2 ^ (8 * s) * G) /\
    0 <= G /\ w + 2 ^ (8 * s) * G < 2 ^ 32 /\ (3 <= s -> G = 0).
Proof.
  intros Hb H0 H4 Hs.
  destruct (index_Some buf (off + 1)) as [g1 E1]; [lia|].
  destruct (index_Some buf (off + 2)) as [g2 E2]; [lia|].
  destruct (index_Some buf (off + 3)) as [g3 E3]; [lia|].
  pose proof (bytes_ok_index _ _ _ Hb E1) as R1.
  pose proof (bytes_ok_index _ _ _ Hb E2) as R2.
  pose proof (bytes_ok_index _ _ _ Hb E3) as R3.
  unfold FastRead, FastWrite. cbn [Z.eqb Pos.eqb].
  assert (s = 1 /\ 0 <= w < 2 ^ 8 \/ s = 2 /\ 0 <= w < 2 ^ 16 \/
          (s = 3 \/ s = 4) /\ 0 <= w < 2 ^ 32) as [[-> Hw]|[[-> Hw]|[Hs' Hw]]] by lia;
    clear Hs.
  - (* one byte is assigned *)
    destruct (assign_Some buf off (to_byte w)) as (buf' & E & L); [lia|].
    exists buf', (g1 + 256 * (g2 + 256 * g3)). cbn [Z.eqb Pos.eqb]. rewrite E.
    split; [reflexivity|]. split; [|lia].
    rewrite (le_read4 buf' off (to_byte w) g1 g2 g3).
    + f_equal. unfold to_byte. rewrite Z.mod_small by lia. lia.
    + rewrite (index_assign _ _ _ _ _ E), Z.eqb_refl. reflexivity.
    + rewrite (index_assign _ _ _ _ _ E).
      destruct (Z.eqb_spec (off + 1) off); [lia|assumption].
    + rewrite (index_assign _ _ _ _ _ E).
      destruct (Z.eqb_spec (off + 2) off); [lia|assumption].
    + rewrite (index_assign _ _ _ _ _ E).
      destruct (Z.eqb_spec (off + 3) off); [lia|assumption].
  - (* two bytes are stored *)
    cbn [Z.eqb Pos.eqb].
    destruct (Z.leb_spec 0 off); [|lia].
    destruct (Z.leb_spec (off + 4) (len buf)); [|lia]. cbn [andb].
    destruct (blit_Some buf off (le_bytes 2 (to_uint16 w))) as (buf' & E & L);
      [lia|rewrite le_bytes2; unfold len at 1; cbn [length]; lia|].
    exists buf', (g2 + 256 * g3). rewrite E.
    split; [reflexivity|]. split; [|lia].
    unfold to_uint16 in E. rewrite Z.mod_small in E by lia. rewrite le_bytes2 in E.
    rewrite (le_read4 buf' off (w mod 256) ((w / 256) mod 256) g2 g3).
    + f_equal. Z.div_mod_to_equations. lia.
    + written_byte E 0.
    + written_byte E 1.
    + kept_byte E.
    + kept_byte E.
  - (* four bytes are stored, for a code of three bytes too *)
    assert (FastWrite buf off w s = blit buf off (le_bytes 4 (to_uint32 w))) as EW
      by (unfold FastWrite; destruct Hs' as [-> | ->]; reflexivity).
    unfold FastWrite in EW. rewrite EW.
    destruct (blit_Some buf off (le_bytes 4 (to_uint32 w))) as (buf' & E & L);
      [lia|rewrite le_bytes4; unfold len at 1; cbn [length]; lia|].
    exists buf', 0. rewrite E. split; [reflexivity|].
    split; [|destruct Hs' as [-> | ->]; lia].
    unfold to_uint32 in E. rewrite Z.mod_small in E by lia. rewrite le_bytes4 in E.
    rewrite (le_read4 buf' off (w mod 256) ((w / 256) mod 256)
               ((w / 65536) mod 256) ((w / 16777216) mod 256)).
    + f_equal. Z.div_mod_to_equations. lia.
    + written_byte E 0.
    + written_byte E 1.
    + written_byte E 2.
    + written_byte E 3.
Qed.

Lemma lut_entry (d : Decompressor) (i : Z) :
  index (lut (Decompressor_initialize d)) i =
    if i =? 0 then Some (mkLookupTable 255 2 0 0 1)
    else if i =? 1 then Some (mkLookupTable 65535 2 0 0 2)
    else if i =? 2 then Some (mkLookupTable 65535 6 15 2 2)
    else if i =? 3 then Some (mkLookupTable 16777215 8 31 3 3)
    else if i =? 4 then Some (mkLookupTable 255 2 0 0 1)
    else if i =? 5 then Some (mkLookupTable 65535 2 0 0 2)
    else if i =? 6 then Some (mkLookupTable 65535 6 15 2 2)
    else if i =? 7 then Some (mkLookupTable 4294967295 11 255 3 4)
    else None.
Proof.
  destruct (Z.eqb_spec i 0) as [->|]; [reflexivity|].
  destruct (Z.eqb_spec i 1) as [->|]; [reflexivity|].
  destruct (Z.eqb_spec i 2) as [->|]; [reflexivity|].
  destruct (Z.eqb_spec i 3) as [->|]; [reflexivity|].
  destruct (Z.eqb_spec i 4) as [->|]; [reflexivity|].
  destruct (Z.eqb_spec i 5) as [->|]; [reflexivity|].
  destruct (Z.eqb_spec i 6) as [->|]; [reflexivity|].
  destruct (Z.eqb_spec i 7) as [->|]; [reflexivity|].
  apply index_None. unfold len. cbn [length lut Decompressor_initialize]. lia.
Qed.

Lemma land_low (r k : Z) : 0 <= k -> Z.land r (2 ^ k - 1) = r mod 2 ^ k.
Proof.
  intros Hk. rewrite <- Z.land_ones by lia. f_equal.
  rewrite Z.ones_equiv. lia.
Qed.

(** [decodeMatch] on a word [r] whose low three bits select the row [e]. *)
Lemma decodeMatch_row (d : Decompressor) (source : list Z) (off r i : Z) (e : LookupTable) :
  FastRead source off 4 = Some r ->
  r mod 8 = i ->
  index (lut (Decompressor_initialize d)) i = Some e ->
  decodeMatch (Decompressor_initialize d) source off =
    Some (mkMatch (Z.land (Z.shiftr r (lengthShift e)) (lengthMask e) + 3)
                  (Z.shiftr (Z.land r (mask e)) (offsetShift e)),
          size e).
Proof.
  intros Er Ei Ee. unfold decodeMatch, WORD_SIZE. rewrite Er.
  change 7 with (2 ^ 3 - 1). rewrite land_low by lia. change (2 ^ 3) with 8.
  rewrite Ei, Ee. reflexivity.
Qed.

Ltac bits_to_arith :=
  repeat match goal with
  | |- context [Z.land ?r 255] =>
      change (Z.land r 255) with (Z.land r (2 ^ 8 - 1)); rewrite (land_low r 8) by lia
  | |- context [Z.land ?r 65535] =>
      change (Z.land r 65535) with (Z.land r (2 ^ 16 - 1)); rewrite (land_low r 16) by lia
  | |- context [Z.land ?r 16777215] =>
      change (Z.land r 16777215) with (Z.land r (2 ^ 24 - 1)); rewrite (land_low r 24) by lia
  | |- context [Z.land ?r 4294967295] =>
      change (Z.land r 4294967295) with (Z.land r (2 ^ 32 - 1)); rewrite (land_low r 32) by lia
  | |- context [Z.land ?r 15] =>
      change (Z.land r 15) with (Z.land r (2 ^ 4 - 1)); rewrite (land_low r 4) by lia
  | |- context [Z.land ?r 31] =>
      change (Z.land r 31) with (Z.land r (2 ^ 5 - 1)); rewrite (land_low r 5) by lia
  | |- context [Z.land ?r 0] => rewrite (Z.land_0_r r)
  | |- context [Z.shiftr ?r ?k] => rewrite (Z.shiftr_div_pow2 r k) by lia
  end.

Ltac pow_consts :=
  change (2 ^ (8 * 1)) with 256 in *; change (2 ^ (8 * 2)) with 65536 in *;
  change (2 ^ (8 * 3)) with 16777216 in *; change (2 ^ (8 * 4)) with 4294967296 in *;
  change (2 ^ 0) with 1 in *; change (2 ^ 2) with 4 in *; change (2 ^ 3) with 8 in *;
  change (2 ^ 4) with 16 in *; change (2 ^ 5) with 32 in *; change (2 ^ 6) with 64 in *;
  change (2 ^ 8) with 256 in *; change (2 ^ 11) with 2048 in *;
  change (2 ^ 16) with 65536 in *; change (2 ^ 24) with 16777216 in *;
  change (2 ^ 32) with 4294967296 in *.

Ltac decoded :=
  cbn [Z.eqb Pos.eqb lengthShift lengthMask mask offsetShift size];
  bits_to_arith; pow_consts;
  f_equal; f_equal; f_equal; Z.div_mod_to_equations; lia.

(** C2, amended: for every match with MIN_MATCH_LENGTH <= Length <=
    MAX_MATCH_LENGTH and 1 <= Offset < DICTIONARY_SIZE, [encodeMatch]
    writes its code into a buffer with four bytes at the offset, and
    [decodeMatch], with the lookup table initialised, reads the same match
    back from there and reports the size [getMatchCodedSize] gives. *)
Theorem decodeMatch_encodeMatch (d : Decompressor) (m : Match) (buf : list Z) (off : Z) :
  MIN_MATCH_LENGTH <= Length m <= MAX_MATCH_LENGTH ->
  1 <= Offset m < DICTIONARY_SIZE ->
  bytes_ok buf -> 0 <= off -> off + 4 <= len buf ->
  exists buf',
    encodeMatch m buf off = Some (buf', getMatchCodedSize m) /\
    decodeMatch (Decompressor_initialize d) buf' off = Some (m, getMatchCodedSize m).
Proof.
  unfold MIN_MATCH_LENGTH, MAX_MATCH_LENGTH, DICTIONARY_SIZE, MIN_MATCH_LENGTH.
  change (2 ^ 21) with 2097152.
  intros HL HO Hb H0 H4.
  unfold encodeMatch, getMatchCodedSize.
  rewrite matchCode_arith by (change (2 ^ 32) with 4294967296; lia). unfold codeWord.
  destruct m as [L O]. cbn [Length Offset] in *.
  remember (L - 3) as l eqn:El.
  assert (0 <= l < 256) as Hl by lia.
  destruct (Z.eqb_spec l 0) as [->|Nl]; cbn [andb].
  - destruct (Z.ltb_spec O 64).
    + destruct (FastRead_FastWrite buf off (4 * O) 1 Hb H0 H4)
        as (buf' & G & EW & ER & HG & HR & _); [pow_consts; lia|].
      exists buf'. rewrite EW. split; [reflexivity|]. cbn [snd].
      assert ((4 * O + 2 ^ (8 * 1) * G) mod 8 = 0 \/ (4 * O + 2 ^ (8 * 1) * G) mod 8 = 4)
        as [Ei|Ei] by (pow_consts; Z.div_mod_to_equations; lia).
      * rewrite (decodeMatch_row d buf' off _ 0 _ ER Ei (lut_entry d 0)).
        decoded.
      * rewrite (decodeMatch_row d buf' off _ 4 _ ER Ei (lut_entry d 4)).
        decoded.
    + destruct (Z.ltb_spec O 16384).
      * destruct (FastRead_FastWrite buf off (4 * O + 1) 2 Hb H0 H4)
          as (buf' & G & EW & ER & HG & HR & _); [pow_consts; lia|].
        exists buf'. rewrite EW. split; [reflexivity|]. cbn [snd].
        assert ((4 * O + 1 + 2 ^ (8 * 2) * G) mod 8 = 1 \/
                (4 * O + 1 + 2 ^ (8 * 2) * G) mod 8 = 5)
          as [Ei|Ei] by (pow_consts; Z.div_mod_to_equations; lia).
        -- rewrite (decodeMatch_row d buf' off _ 1 _ ER Ei (lut_entry d 1)).
           decoded.
        -- rewrite (decodeMatch_row d buf' off _ 5 _ ER Ei (lut_entry d 5)).
           decoded.
      * cbn [Z.ltb Z.compare].
        destruct (Z.ltb_spec O 1024); [lia|]. cbn [andb].
        destruct (Z.ltb_spec O 65536); cbn [andb].
        -- destruct (FastRead_FastWrite buf off (256 * O + 8 * 0 + 3) 3 Hb H0 H4)
             as (buf' & G & EW & ER & HG & HR & HZ); [pow_consts; lia|].
           rewrite (HZ ltac:(lia)) in ER.
           exists buf'. rewrite EW. split; [reflexivity|]. cbn [snd].
           assert ((256 * O + 8 * 0 + 3 + 2 ^ (8 * 3) * 0) mod 8 = 3) as Ei
             by (pow_consts; Z.div_mod_to_equations; lia).
           rewrite (decodeMatch_row d buf' off _ 3 _ ER Ei (lut_entry d 3)).
           decoded.
        -- destruct (FastRead_FastWrite buf off (2048 * O + 8 * 0 + 7) 4 Hb H0 H4)
             as (buf' & G & EW & ER & HG & HR & HZ); [pow_consts; lia|].
           rewrite (HZ ltac:(lia)) in ER.
           exists buf'. rewrite EW. split; [reflexivity|]. cbn [snd].
           assert ((2048 * O + 8 * 0 + 7 + 2 ^ (8 * 4) * 0) mod 8 = 7) as Ei
             by (pow_consts; Z.div_mod_to_equations; lia).
           rewrite (decodeMatch_row d buf' off _ 7 _ ER Ei (lut_entry d 7)).
           decoded.
  - destruct (Z.ltb_spec l 16); cbn [andb].
    + destruct (Z.ltb_spec O 1024).
      * destruct (FastRead_FastWrite buf off (64 * O + 4 * l + 2) 2 Hb H0 H4)
          as (buf' & G & EW & ER & HG & HR & _); [pow_consts; lia|].
        exists buf'. rewrite EW. split; [reflexivity|]. cbn [snd].
        assert ((64 * O + 4 * l + 2 + 2 ^ (8 * 2) * G) mod 8 = 2 \/
                (64 * O + 4 * l + 2 + 2 ^ (8 * 2) * G) mod 8 = 6)
          as [Ei|Ei] by (pow_consts; Z.div_mod_to_equations; lia).
        -- rewrite (decodeMatch_row d buf' off _ 2 _ ER Ei (lut_entry d 2)).
           decoded.
        -- rewrite (decodeMatch_row d buf' off _ 6 _ ER Ei (lut_entry d 6)).
           decoded.
      * destruct (Z.ltb_spec l 32); [|lia]. cbn [andb].
        destruct (Z.ltb_spec O 65536).
        -- destruct (FastRead_FastWrite buf off (256 * O + 8 * l + 3) 3 Hb H0 H4)
             as (buf' & G & EW & ER & HG & HR & HZ); [pow_consts; lia|].
           rewrite (HZ ltac:(lia)) in ER.
           exists buf'. rewrite EW. split; [reflexivity|]. cbn [snd].
           assert ((256 * O + 8 * l + 3 + 2 ^ (8 * 3) * 0) mod 8 = 3) as Ei
             by (pow_consts; Z.div_mod_to_equations; lia).
           rewrite (decodeMatch_row d buf' off _ 3 _ ER Ei (lut_entry d 3)).
           decoded.
        -- destruct (FastRead_FastWrite buf off (2048 * O + 8 * l + 7) 4 Hb H0 H4)
             as (buf' & G & EW & ER & HG & HR & HZ); [pow_consts; lia|].
           rewrite (HZ ltac:(lia)) in ER.
           exists buf'. rewrite EW. split; [reflexivity|]. cbn [snd].
           assert ((2048 * O + 8 * l + 7 + 2 ^ (8 * 4) * 0) mod 8 = 7) as Ei
             by (pow_consts; Z.div_mod_to_equations; lia).
           rewrite (decodeMatch_row d buf' off _ 7 _ ER Ei (lut_entry d 7)).
           decoded.
    + destruct ((l <? 32) && (O <? 65536)) eqn:E4.
      * apply andb_prop in E4 as [E4 E5]. apply Z.ltb_lt in E4, E5.
        destruct (FastRead_FastWrite buf off (256 * O + 8 * l + 3) 3 Hb H0 H4)
          as (buf' & G & EW & ER & HG & HR & HZ); [pow_consts; lia|].
        rewrite (HZ ltac:(lia)) in ER.
        exists buf'. rewrite EW. split; [reflexivity|]. cbn [snd].
        assert ((256 * O + 8 * l + 3 + 2 ^ (8 * 3) * 0) mod 8 = 3) as Ei
          by (pow_consts; Z.div_mod_to_equations; lia).
        rewrite (decodeMatch_row d buf' off _ 3 _ ER Ei (lut_entry d 3)).
        decoded.
      * destruct (FastRead_FastWrite buf off (2048 * O + 8 * l + 7) 4 Hb H0 H4)
          as (buf' & G & EW & ER & HG & HR & HZ); [pow_consts; lia|].
        rewrite (HZ ltac:(lia)) in ER.
        exists buf'. rewrite EW. split; [reflexivity|]. cbn [snd].
        assert ((2048 * O + 8 * l + 7 + 2 ^ (8 * 4) * 0) mod 8 = 7) as Ei
          by (pow_consts; Z.div_mod_to_equations; lia).
        rewrite (decodeMatch_row d buf' off _ 7 _ ER Ei (lut_entry d 7)).
        decoded.
Qed.

Lemma decodeMatch_encodeMatch_witness :
  MIN_MATCH_LENGTH <= Length (mkMatch 40 70000) <= MAX_MATCH_LENGTH /\
  1 <= Offset (mkMatch 40 70000) < DICTIONARY_SIZE /\
  bytes_ok [9; 9; 9; 9; 9; 9] /\ 0 <= 1 /\ 1 + 4 <= len [9; 9; 9; 9; 9; 9] /\
  exists buf',
    encodeMatch (mkMatch 40 70000) [9; 9; 9; 9; 9; 9] 1
      = Some (buf', getMatchCodedSize (mkMatch 40 70000)) /\
    decodeMatch (Decompressor_initialize Decompressor_zero) buf' 1
      = Some (mkMatch 40 70000, getMatchCodedSize (mkMatch 40 70000)).
Proof.
  assert (MIN_MATCH_LENGTH <= Length (mkMatch 40 70000) <= MAX_MATCH_LENGTH) as H1
    by (vm_compute; split; discriminate).
  assert (1 <= Offset (mkMatch 40 70000) < DICTIONARY_SIZE) as H2
    by (vm_compute; split; [discriminate|reflexivity]).
  assert (bytes_ok [9; 9; 9; 9; 9; 9]) as H3
    by (repeat constructor; unfold byte_ok; lia).
  assert (0 <= 1) as H4 by lia.
  assert (1 + 4 <= len [9; 9; 9; 9; 9; 9]) as H5 by (vm_compute; discriminate).
  split; [exact H1|]. split; [exact H2|]. split; [exact H3|].
  split; [exact H4|]. split; [exact H5|].
  exact (decodeMatch_encodeMatch Decompressor_zero (mkMatch 40 70000)
           [9; 9; 9; 9; 9; 9] 1 H1 H2 H3 H4 H5).
Defined.

(** C2 as stated fails at Offset = DICTIONARY_SIZE: the offset does not fit
    the 21 bits of the four-byte code, and is read back as 0. *)
Lemma offset_DICTIONARY_SIZE_is_lost :
  MIN_MATCH_LENGTH <= Length (mkMatch 3 DICTIONARY_SIZE) <= MAX_MATCH_LENGTH /\
  1 <= Offset (mkMatch 3 DICTIONARY_SIZE) <= DICTIONARY_SIZE /\
  encodeMatch (mkMatch 3 DICTIONARY_SIZE) [0; 0; 0; 0] 0 = Some ([7; 0; 0; 0], 4) /\
  decodeMatch (Decompressor_initialize Decompressor_zero) [7; 0; 0; 0] 0
    = Some (mkMatch 3 0, 4).
Proof.
  split; [vm_compute; split; discriminate|].
  split; [vm_compute; split; discriminate|].
  split; reflexivity.
Qed.

(* ------------------------------------------------------------------ *)
(** * The dictionary *)

Lemma DICTIONARY_SIZE_eq : DICTIONARY_SIZE = 2097152.
Proof. reflexivity. Qed.

Lemma CHILD_COUNT_eq : CHILD_COUNT = 4194304.
Proof. reflexivity. Qed.

Lemma HASH_TABLE_SIZE_eq : HASH_TABLE_SIZE = 1048576.
Proof. reflexivity. Qed.

Lemma REBASE_THRESHOLD_eq : REBASE_THRESHOLD = 4398046511103 * 2097152.
Proof. reflexivity. Qed.

Ltac consts :=
  rewrite ?DICTIONARY_SIZE_eq, ?CHILD_COUNT_eq, ?HASH_TABLE_SIZE_eq,
    ?REBASE_THRESHOLD_eq in *;
  unfold MAX_MATCH_CANDIDATE_COUNT, MAX_MATCH_LENGTH, MIN_MATCH_LENGTH,
    TAIL_LENGTH, WORD_SIZE, INVALID_POSITION in *.

Lemma slot_range (q side : Z) : side_ok side -> 0 <= slot q side < CHILD_COUNT.
Proof.
  intros Hs. unfold slot, side_ok in *. consts.
  pose proof (Z.mod_pos_bound q 2097152 eq_refl). lia.
Qed.

Lemma slot_inj (position q q' side side' : Z) :
  windowStart position <= q <= position ->
  windowStart position <= q' <= position ->
  side_ok side -> side_ok side' ->
  slot q side = slot q' side' -> q = q' /\ side = side'.
Proof.
  unfold windowStart, slot, side_ok. consts. intros Hq Hq' Hs Hs' E.
  pose proof (Z.div_mod q 2097152 ltac:(lia)).
  pose proof (Z.div_mod q' 2097152 ltac:(lia)).
  pose proof (Z.mod_pos_bound q 2097152 eq_refl).
  pose proof (Z.mod_pos_bound q' 2097152 eq_refl).
  lia.
Qed.

Lemma rem_slot (q side : Z) : 0 <= q -> Z.rem q DICTIONARY_SIZE * 2 + side = slot q side.
Proof.
  intros H. unfold slot. rewrite Z.rem_mod_nonneg by (consts; lia). lia.
Qed.

Lemma slice_get_in (n : Z) (c : Z -> Z) (i : Z) :
  0 <= i < n -> slice_get (Slice n c) i = Some (c i).
Proof.
  intros H. cbn [slice_get].
  destruct (Z.leb_spec 0 i); [|lia]. destruct (Z.ltb_spec i n); [|lia]. reflexivity.
Qed.

Lemma slice_set_in (n : Z) (c : Z -> Z) (i v : Z) :
  0 <= i < n -> slice_set (Slice n c) i v = Some (Slice n (update c i v)).
Proof.
  intros H. cbn [slice_set].
  destruct (Z.leb_spec 0 i); [|lia]. destruct (Z.ltb_spec i n); [|lia]. reflexivity.
Qed.

Lemma update_same (c : Z -> Z) (i v : Z) : update c i v i = v.
Proof. unfold update. now rewrite Z.eqb_refl. Qed.

Lemma update_other (c : Z -> Z) (i v j : Z) : j <> i -> update c i v j = c j.
Proof. intros H. unfold update. destruct (Z.eqb_spec j i); [contradiction|reflexivity]. Qed.

Lemma valid_below_mono (b b' v : Z) : b <= b' -> valid_below b v -> valid_below b' v.
Proof. unfold valid_below. intros H [E|R]; [now left|right; lia]. Qed.

Lemma min_spec (a b : Z) : min a b = Z.min a b.
Proof. unfold min. destruct (Z.ltb_spec a b); lia. Qed.

(** The comparison loop stays inside the buffer and stops by [maxMatchLength]. *)
Lemma extendMatch_Some (buffer : list Z) (a b maxMatchLength : Z) :
  forall (fuel : nat) (matchLength : Z),
  0 <= matchLength ->
  maxMatchLength - matchLength <= Z.of_nat fuel ->
  0 <= a -> a + maxMatchLength <= len buffer ->
  0 <= b -> b + maxMatchLength <= len buffer ->
  exists l, extendMatch fuel buffer a b maxMatchLength matchLength = Some l /\
            (matchLength <= l <= maxMatchLength \/ (maxMatchLength < matchLength /\ l = matchLength)).
Proof.
  induction fuel as [|fuel IH]; intros ml H0 Hf Ha Hal Hb Hbl.
  - cbn [extendMatch]. destruct (Z.ltb_spec ml maxMatchLength); [lia|].
    exists ml. split; [reflexivity|lia].
  - cbn [extendMatch]. destruct (Z.ltb_spec ml maxMatchLength).
    + destruct (index_Some buffer (a + ml)) as [x ->]; [lia|].
      destruct (index_Some buffer (b + ml)) as [y ->]; [lia|].
      destruct (x =? y).
      * destruct (IH (ml + 1)) as (l & E & R); try lia.
        exists l. split; [exact E|lia].
      * exists ml. split; [reflexivity|lia].
    + exists ml. split; [reflexivity|lia].
Qed.

Lemma gtb_false (a b : Z) : (a >? b) = false -> a <= b.
Proof. destruct (Z.gtb_spec a b); [discriminate|intros _; lia]. Qed.

Lemma geb_false (a b : Z) : (a >=? b) = false -> a < b.
Proof. destruct (Z.geb_spec a b); [discriminate|intros _; lia]. Qed.

Lemma gtb_true (a b : Z) : (a >? b) = true -> a > b.
Proof. destruct (Z.gtb_spec a b); [intros _; lia|discriminate]. Qed.

Lemma geb_true (a b : Z) : (a >=? b) = true -> a >= b.
Proof. destruct (Z.geb_spec a b); [intros _; lia|discriminate]. Qed.

Lemma windowStart_nonneg (position : Z) : 0 <= windowStart position.
Proof. unfold windowStart. lia. Qed.

(** One turn of the loop, run under the loop invariant, is one step of
    [SearchTurn]: it does not panic. *)
Lemma searchStep_turn (buffer : list Z) (bufferBase position maxMatchLength : Z) (s : Search) :
  0 <= bufferBase -> 0 <= position ->
  bufferBase + position + maxMatchLength <= len buffer ->
  MIN_MATCH_LENGTH <= maxMatchLength ->
  SearchInv position maxMatchLength s ->
  exists c turn,
    tree s = Slice CHILD_COUNT c /\
    searchStep buffer bufferBase position (windowStart position) maxMatchLength s
      = Some turn /\
    SearchTurn position maxMatchLength s c turn.
Proof.
  intros Hbase Hpos Hbuf Hmax [Htree [Hcnt Hcount] Hroom (Hlow & Hhigh & Hlong)].
  destruct Htree as (c & aL & aR & Et & HaL & HaR & EL & ER & Hmp & Hc).
  pose proof (windowStart_nonneg position) as Hws.
  assert (0 <= leftSubtreeLeaf s < CHILD_COUNT) as RL.
  { rewrite EL. apply slot_range. unfold side_ok. destruct (aL =? position); lia. }
  assert (0 <= rightSubtreeLeaf s < CHILD_COUNT) as RR.
  { rewrite ER. apply slot_range. unfold side_ok. destruct (aR =? position); lia. }
  exists c. unfold searchStep. rewrite Et.
  destruct (Z.ltb_spec (matchPosition s) (windowStart position)) as [Hlt|Hge].
  { cbn [orb]. rewrite slice_set_in by assumption. rewrite slice_set_in by assumption.
    eexists. split; [reflexivity|]. split; [reflexivity|].
    apply turn_exhausted. now left. }
  destruct (Z.eqb_spec (matchCount s) MAX_MATCH_CANDIDATE_COUNT) as [Hfull|Hnot].
  { cbn [orb]. rewrite slice_set_in by assumption. rewrite slice_set_in by assumption.
    eexists. split; [reflexivity|]. split; [reflexivity|].
    apply turn_exhausted. now right. }
  cbn [orb]. cbv zeta.
  assert (0 <= matchPosition s < position) as Rmp.
  { destruct Hmp as [E|R]; [unfold INVALID_POSITION in E; lia|lia]. }
  rewrite min_spec.
  destruct (extendMatch_Some buffer (bufferBase + position)
              (bufferBase + matchPosition s) maxMatchLength
              (Z.to_nat (maxMatchLength - Z.min (lowMatchLength s) (highMatchLength s)))
              (Z.min (lowMatchLength s) (highMatchLength s)))
    as (l & El & Rl); try lia.
  rewrite El. cbv beta iota.
  set (longer := (l >? longestMatchLength s) && (l >=? MIN_MATCH_LENGTH)).
  assert (exists cands count longest,
    (if longer
     then match candidates s with
          | Some arr =>
              arr <- assign arr (matchCandidateCount s)
                       (mkMatch l (position - matchPosition s));;
              Some (Some arr, matchCandidateCount s + 1)
          | None => Some (None, matchCandidateCount s)
          end
     else Some (candidates s, matchCandidateCount s)) = Some (cands, count) /\
    (if longer then l else longestMatchLength s) = longest /\
    Recorded position s l cands count longest) as (cands & count & longest & Ec & Elg & Hrec).
  { destruct longer eqn:Elonger.
    - apply andb_prop in Elonger as [G1 G2].
      apply gtb_true in G1. apply geb_true in G2.
      destruct (candidates s) as [arr|] eqn:Ecs.
      + destruct (assign_Some arr (matchCandidateCount s)
                    (mkMatch l (position - matchPosition s))) as (arr' & Ea & La).
        { specialize (Hroom arr eq_refl). lia. }
        rewrite Ea. do 3 eexists. split; [reflexivity|]. split; [reflexivity|].
        eapply recorded_stored; eauto; lia.
      + do 3 eexists. split; [reflexivity|]. split; [reflexivity|].
        apply recorded_nil; trivial; lia.
    - do 3 eexists. split; [reflexivity|]. split; [reflexivity|].
      apply recorded_not. intros [G1 G2].
      apply andb_false_iff in Elonger as [F|F].
      + apply gtb_false in F. lia.
      + apply geb_false in F. lia. }
  rewrite Ec, Elg. cbv beta iota.
  assert (0 <= slot (matchPosition s) 0 < CHILD_COUNT) as S0
    by (apply slot_range; now left).
  assert (0 <= slot (matchPosition s) 1 < CHILD_COUNT) as S1
    by (apply slot_range; now right).
  pose proof (rem_slot (matchPosition s) 0 ltac:(lia)) as Q0. rewrite Z.add_0_r in Q0.
  pose proof (rem_slot (matchPosition s) 1 ltac:(lia)) as Q1.
  rewrite Q1, Q0.
  destruct (longer && (l =? maxMatchLength)) eqn:Ebreak.
  - apply andb_prop in Ebreak as [_ Emax]. apply Z.eqb_eq in Emax. subst l.
    rewrite slice_get_in by assumption. rewrite slice_set_in by assumption.
    rewrite slice_get_in by assumption. rewrite slice_set_in by assumption.
    eexists. split; [reflexivity|]. split; [reflexivity|].
    apply turn_splice; trivial. lia.
  - assert (l < maxMatchLength) as Hl.
    { apply andb_false_iff in Ebreak as [F|F].
      - destruct (Z.eq_dec l maxMatchLength) as [->|]; [|lia].
        subst longer. apply andb_false_iff in F as [F|F].
        + apply gtb_false in F. lia.
        + apply geb_false in F. lia.
      - apply Z.eqb_neq in F. lia. }
    destruct (index_Some buffer (bufferBase + position + l)) as [x ->]; [lia|].
    destruct (index_Some buffer (bufferBase + matchPosition s + l)) as [y ->]; [lia|].
    destruct (x <? y).
    + rewrite slice_set_in by assumption. rewrite slice_get_in by assumption.
      eexists. split; [reflexivity|]. split; [reflexivity|].
      apply turn_right; trivial; rewrite ?min_spec; lia.
    + rewrite slice_set_in by assumption. rewrite slice_get_in by assumption.
      eexists. split; [reflexivity|]. split; [reflexivity|].
      apply turn_left; trivial; rewrite ?min_spec; lia.
Qed.

Lemma side_left (a position : Z) : side_ok (if a =? position then 0 else 1).
Proof. unfold side_ok. destruct (a =? position); lia. Qed.

Lemma side_right (a position : Z) : side_ok (if a =? position then 1 else 0).
Proof. unfold side_ok. destruct (a =? position); lia. Qed.

Lemma slot_older (position m a sm sa : Z) :
  windowStart position <= m -> m < a -> a <= position ->
  side_ok sm -> side_ok sa -> slot m sm <> slot a sa.
Proof.
  intros Hm Hma Ha Hsm Hsa E.
  destruct (slot_inj position m a sm sa) as [E' _]; trivial; lia.
Qed.

Lemma Recorded_count (position : Z) (s : Search) (l : Z)
  (cands : option (list Match)) (count longest : Z) :
  Recorded position s l cands count longest ->
  matchCandidateCount s <= count <= matchCandidateCount s + 1 /\
  option_map (@len Match) cands = option_map (@len Match) (candidates s) /\
  (longest = l \/ longest = longestMatchLength s).
Proof.
  intros [arr arr' G1 G2 Ec Ea|G1 G2 Ec|N].
  - split; [lia|]. split; [|now left]. rewrite Ec. cbn [option_map].
    f_equal. apply (assign_len _ _ _ _ Ea).
  - split; [lia|]. split; [|now left]. now rewrite Ec.
  - split; [lia|]. split; [reflexivity|now right].
Qed.

(** A step of [SearchTurn] keeps the loop invariant, or leaves the tree done. *)
Lemma turn_keeps_inv (position maxMatchLength : Z) (s : Search) (c : Z -> Z)
  (turn : Flow Search) :
  SearchInv position maxMatchLength s ->
  tree s = Slice CHILD_COUNT c ->
  SearchTurn position maxMatchLength s c turn ->
  match turn with
  | Continue s' =>
      SearchInv position maxMatchLength s' /\ matchCount s' = matchCount s + 1 /\
      option_map (@len Match) (candidates s') = option_map (@len Match) (candidates s)
  | Break s' =>
      TreeDone position s' /\
      0 <= matchCandidateCount s' <= MAX_MATCH_CANDIDATE_COUNT /\
      option_map (@len Match) (candidates s') = option_map (@len Match) (candidates s)
  end.
Proof.
  intros [Htree [Hcnt Hcount] Hroom (Hlow & Hhigh & Hlong)] Et Hturn.
  destruct Htree as (c0 & aL & aR & Et0 & HaL & HaR & EL & ER & Hmp & Hc).
  rewrite Et in Et0. injection Et0 as <-.
  pose proof (windowStart_nonneg position) as Hws.
  pose proof (side_left aL position) as SL.
  pose proof (side_right aR position) as SR.
  assert (forall q side, windowStart position <= q <= position -> side_ok side ->
            slot q side = leftSubtreeLeaf s -> q = aL) as QL.
  { intros q side Hq Hs E. rewrite EL in E.
    now destruct (slot_inj position q aL side _ Hq HaL Hs SL E). }
  assert (forall q side, windowStart position <= q <= position -> side_ok side ->
            slot q side = rightSubtreeLeaf s -> q = aR) as QR.
  { intros q side Hq Hs E. rewrite ER in E.
    now destruct (slot_inj position q aR side _ Hq HaR Hs SR E). }
  destruct Hturn as [Hex|cands count longest Hge Hlt Hrec
                    |l cands count longest Hge Hlt Hl Hrec
                    |l cands count longest Hge Hlt Hl Hrec].
  - (* the search is exhausted *)
    split; [|cbn [matchCandidateCount candidates]; split; [lia|reflexivity]].
    eexists. split; [reflexivity|]. intros q side Hq Hs.
    destruct (Z.eq_dec (slot q side) (rightSubtreeLeaf s)) as [E|NR].
    { rewrite E, update_same. now left. }
    rewrite update_other by assumption.
    destruct (Z.eq_dec (slot q side) (leftSubtreeLeaf s)) as [E|NL].
    { rewrite E, update_same. now left. }
    rewrite update_other by assumption. now apply Hc.
  - (* the match has the maximum length: the old node is spliced out *)
    assert (0 <= matchPosition s < Z.min aL aR) as Rmp.
    { destruct Hmp as [E|R]; [unfold INVALID_POSITION in E; lia|lia]. }
    destruct (Recorded_count _ _ _ _ _ _ Hrec) as (Rc & Rs & _).
    assert (forall side, side_ok side -> slot (matchPosition s) side <> leftSubtreeLeaf s)
      as NL.
    { intros side Hs. rewrite EL. apply (slot_older position); trivial; lia. }
    assert (forall side, side_ok side -> slot (matchPosition s) side <> rightSubtreeLeaf s)
      as NR.
    { intros side Hs. rewrite ER. apply (slot_older position); trivial; lia. }
    assert (forall side, side_ok side ->
              valid_below (matchPosition s) (c (slot (matchPosition s) side))) as Hkids.
    { intros side Hs. apply Hc; auto. lia. }
    split; [|cbn [matchCandidateCount candidates]; split; [lia|exact Rs]].
    eexists. split; [reflexivity|]. cbv zeta. intros q side Hq Hs.
    destruct (Z.eq_dec (slot q side) (rightSubtreeLeaf s)) as [E|NR'].
    { rewrite E, update_same. rewrite update_other by (apply NL; now right).
      rewrite (QR q side Hq Hs E).
      apply (valid_below_mono (matchPosition s)); [lia|]. apply Hkids. now right. }
    rewrite update_other by assumption.
    destruct (Z.eq_dec (slot q side) (leftSubtreeLeaf s)) as [E|NL'].
    { rewrite E, update_same. rewrite (QL q side Hq Hs E).
      apply (valid_below_mono (matchPosition s)); [lia|]. apply Hkids. now left. }
    rewrite update_other by assumption. now apply Hc.
  - (* the match goes to the right subtree; the search goes left *)
    assert (0 <= matchPosition s < Z.min aL aR) as Rmp.
    { destruct Hmp as [E|R]; [unfold INVALID_POSITION in E; lia|lia]. }
    destruct (Recorded_count _ _ _ _ _ _ Hrec) as (Rc & Rs & Rlong).
    assert (slot (matchPosition s) 0 <> rightSubtreeLeaf s) as NR.
    { rewrite ER. apply (slot_older position); trivial; [lia|lia|now left]. }
    assert (slot (matchPosition s) 0 <> leftSubtreeLeaf s) as NL.
    { rewrite EL. apply (slot_older position); trivial; [lia|lia|now left]. }
    split; [|cbn [matchCount candidates]; split; [reflexivity|exact Rs]].
    constructor; cbn [tree leftSubtreeLeaf rightSubtreeLeaf matchPosition
      matchCandidateCount matchCount candidates lowMatchLength highMatchLength
      longestMatchLength].
    + exists (update c (rightSubtreeLeaf s) (matchPosition s)), aL, (matchPosition s).
      split; [reflexivity|]. split; [lia|]. split; [lia|]. split; [exact EL|].
      split. { destruct (Z.eqb_spec (matchPosition s) position); [lia|reflexivity]. }
      split.
      { rewrite update_other by assumption.
        apply (valid_below_mono (matchPosition s)); [lia|].
        apply Hc; trivial; [lia|now left]. }
      intros q side Hq Hs NL' NR'.
      destruct (Z.eq_dec (slot q side) (rightSubtreeLeaf s)) as [E|NR''].
      { rewrite E, update_same. rewrite (QR q side Hq Hs E). right. lia. }
      rewrite update_other by assumption. now apply Hc.
    + lia.
    + intros arr Earr. destruct (candidates s) as [arr0|] eqn:E0.
      * rewrite Earr in Rs. cbn [option_map] in Rs. injection Rs as Rs.
        rewrite Rs. now apply Hroom.
      * rewrite Earr in Rs. discriminate.
    + rewrite min_spec in Hl. lia.
  - (* the match goes to the left subtree; the search goes right *)
    assert (0 <= matchPosition s < Z.min aL aR) as Rmp.
    { destruct Hmp as [E|R]; [unfold INVALID_POSITION in E; lia|lia]. }
    destruct (Recorded_count _ _ _ _ _ _ Hrec) as (Rc & Rs & Rlong).
    assert (slot (matchPosition s) 1 <> rightSubtreeLeaf s) as NR.
    { rewrite ER. apply (slot_older position); trivial; [lia|lia|now right]. }
    assert (slot (matchPosition s) 1 <> leftSubtreeLeaf s) as NL.
    { rewrite EL. apply (slot_older position); trivial; [lia|lia|now right]. }
    split; [|cbn [matchCount candidates]; split; [reflexivity|exact Rs]].
    constructor; cbn [tree leftSubtreeLeaf rightSubtreeLeaf matchPosition
      matchCandidateCount matchCount candidates lowMatchLength highMatchLength
      longestMatchLength].
    + exists (update c (leftSubtreeLeaf s) (matchPosition s)), (matchPosition s), aR.
      split; [reflexivity|]. split; [lia|]. split; [lia|].
      split. { destruct (Z.eqb_spec (matchPosition s) position); [lia|reflexivity]. }
      split; [exact ER|].
      split.
      { rewrite update_other by assumption.
        apply (valid_below_mono (matchPosition s)); [lia|].
        apply Hc; trivial; [lia|now right]. }
      intros q side Hq Hs NL' NR'.
      destruct (Z.eq_dec (slot q side) (leftSubtreeLeaf s)) as [E|NL''].
      { rewrite E, update_same. rewrite (QL q side Hq Hs E). right. lia. }
      rewrite update_other by assumption. now apply Hc.
    + lia.
    + intros arr Earr. destruct (candidates s) as [arr0|] eqn:E0.
      * rewrite Earr in Rs. cbn [option_map] in Rs. injection Rs as Rs.
        rewrite Rs. now apply Hroom.
      * rewrite Earr in Rs. discriminate.
    + rewrite min_spec in Hl. lia.
Qed.

(** The invariant rule of the search loop: the loop ends, by [break], with
    the tree done and with whatever the turns establish. *)
Section SearchLoopRule.
Variables (buffer : list Z) (bufferBase position maxMatchLength : Z).
Variables (P Q : Search -> Prop).
Hypothesis Hbase : 0 <= bufferBase.
Hypothesis Hpos : 0 <= position.
Hypothesis Hbuf : bufferBase + position + maxMatchLength <= len buffer.
Hypothesis Hmax : MIN_MATCH_LENGTH <= maxMatchLength.
Hypothesis Hturn :
  forall s c turn,
    SearchInv position maxMatchLength s -> P s ->
    tree s = Slice CHILD_COUNT c ->
    SearchTurn position maxMatchLength s c turn ->
    match turn with Continue s' => P s' | Break s' => Q s' end.

Lemma searchLoop_rule :
  forall (fuel : nat) (s : Search),
    SearchInv position maxMatchLength s -> P s ->
    MAX_MATCH_CANDIDATE_COUNT + 1 - matchCount s <= Z.of_nat fuel ->
    exists s',
      searchLoop fuel buffer bufferBase position (windowStart position)
        maxMatchLength s = Some s' /\
      TreeDone position s' /\
      0 <= matchCandidateCount s' <= MAX_MATCH_CANDIDATE_COUNT /\
      option_map (@len Match) (candidates s') = option_map (@len Match) (candidates s) /\
      Q s'.
Proof.
  induction fuel as [|fuel IH]; intros s Hinv HP Hfuel.
  - destruct Hinv as [_ [_ Hc] _ _]. lia.
  - cbn [searchLoop].
    destruct (searchStep_turn buffer bufferBase position maxMatchLength s
                Hbase Hpos Hbuf Hmax Hinv) as (c & turn & Et & Es & Ht).
    rewrite Es.
    pose proof (turn_keeps_inv _ _ _ _ _ Hinv Et Ht) as K.
    pose proof (Hturn s c turn Hinv HP Et Ht) as K'.
    destruct turn as [s1|s1].
    + destruct K as (Hinv1 & Hc1 & Hs1).
      destruct (IH s1 Hinv1 K') as (s' & E & HT & HC & HS & HQ); [lia|].
      exists s'. repeat split; trivial; try lia. congruence.
    + destruct K as (HT & HC & HS). exists s1. repeat split; trivial; lia.
Qed.
End SearchLoopRule.

(* ---- the candidates ---- *)

Lemma increasing_snoc (l : list Z) (x : Z) :
  increasing l -> Forall (fun y => y < x) l -> increasing (l ++ [x]).
Proof.
  unfold increasing. induction l as [|a l IH]; intros Hs Hall; cbn [app].
  - constructor; constructor.
  - inversion Hs as [|? ? Hs' Ha]; subst. inversion Hall as [|? ? Hax Hall']; subst.
    constructor; [now apply IH|].
    apply Forall_app. split; [assumption|]. constructor; [assumption|constructor].
Qed.

Lemma firstn_assign_snoc {A : Type} (arr arr' : list A) (i : Z) (x : A) :
  assign arr i x = Some arr' ->
  firstn (Z.to_nat (i + 1)) arr' = firstn (Z.to_nat i) arr ++ [x].
Proof.
  intros E. pose proof (assign_len _ _ _ _ E) as [L R].
  unfold assign in E.
  destruct (Z.leb_spec 0 i); [|lia]. destruct (Z.ltb_spec i (len arr)); [|lia].
  cbn [andb] in E. injection E as <-.
  replace (Z.to_nat (i + 1)) with (length (firstn (Z.to_nat i) arr) + 1)%nat.
  - rewrite firstn_app_2. cbn [firstn]. reflexivity.
  - rewrite length_firstn. unfold len in *. lia.
Qed.

Lemma candidate_ok_mono (a b : Z) (m : Match) :
  a <= b -> candidate_ok a m -> candidate_ok b m.
Proof. unfold candidate_ok. lia. Qed.

Lemma Recorded_cands (position : Z) (s : Search) (l : Z)
  (cands : option (list Match)) (count longest : Z) :
  windowStart position <= matchPosition s < position ->
  0 <= matchCandidateCount s ->
  Recorded position s l cands count longest ->
  CandInv s ->
  forall s', candidates s' = cands -> matchCandidateCount s' = count ->
             longestMatchLength s' = longest -> CandInv s'.
Proof.
  intros Hmp Hcnt Hrec [Hall Hinc] s' Ec En El. unfold CandInv, found in *.
  rewrite Ec, En, El.
  destruct Hrec as [arr arr' G1 G2 Ecs Ea|G1 G2 Ecs|N].
  - rewrite Ecs in Hall, Hinc. rewrite (firstn_assign_snoc _ _ _ _ Ea).
    split.
    + apply Forall_app. split.
      * eapply Forall_impl; [|exact Hall]. intros m. apply candidate_ok_mono. lia.
      * constructor; [|constructor]. unfold candidate_ok. cbn [Length Offset].
        unfold windowStart in Hmp. lia.
    + rewrite map_app. cbn [map Length]. apply increasing_snoc; [assumption|].
      rewrite Forall_map. eapply Forall_impl; [|exact Hall].
      unfold candidate_ok. intros m. lia.
  - split; constructor.
  - split; assumption.
Qed.

Lemma turn_cands (position maxMatchLength : Z) (s : Search) (c : Z -> Z)
  (turn : Flow Search) :
  SearchInv position maxMatchLength s -> CandInv s ->
  tree s = Slice CHILD_COUNT c ->
  SearchTurn position maxMatchLength s c turn ->
  match turn with
  | Continue s' => CandInv s'
  | Break s' => CandInv s' /\ longestMatchLength s' <= maxMatchLength
  end.
Proof.
  intros [Htree [Hcnt Hcount] Hroom (Hlow & Hhigh & Hlong)] Hcand Et Hturn.
  destruct Htree as (c0 & aL & aR & _ & HaL & HaR & _ & _ & Hmp & _).
  assert (windowStart position <= matchPosition s ->
          windowStart position <= matchPosition s < position) as Rmp.
  { pose proof (windowStart_nonneg position).
    destruct Hmp as [E|R]; [unfold INVALID_POSITION in E; lia|lia]. }
  destruct Hturn as [Hex|cands count longest Hge Hlt Hrec
                    |l cands count longest Hge Hlt Hl Hrec
                    |l cands count longest Hge Hlt Hl Hrec].
  - split; [|cbn [longestMatchLength]; lia]. exact Hcand.
  - split.
    + eapply (Recorded_cands position s maxMatchLength cands count longest);
        eauto; lia.
    + cbn [longestMatchLength].
      destruct (Recorded_count _ _ _ _ _ _ Hrec) as (_ & _ & [->| ->]); lia.
  - eapply (Recorded_cands position s l cands count longest); eauto; lia.
  - eapply (Recorded_cands position s l cands count longest); eauto; lia.
Qed.

(* ---- every cell below the position ---- *)

Lemma cells_below_update (bound n : Z) (c : Z -> Z) (i v : Z) :
  cells_below bound (Slice n c) -> valid_below bound v ->
  cells_below bound (Slice n (update c i v)).
Proof.
  cbn [cells_below]. intros Hc Hv j Hj. unfold update.
  destruct (j =? i); auto.
Qed.

Lemma turn_cells (bound position maxMatchLength : Z) (s : Search) (c : Z -> Z)
  (turn : Flow Search) :
  cells_below bound (tree s) /\ valid_below bound (matchPosition s) ->
  tree s = Slice CHILD_COUNT c ->
  SearchTurn position maxMatchLength s c turn ->
  match turn with
  | Continue s' => cells_below bound (tree s') /\ valid_below bound (matchPosition s')
  | Break s' => cells_below bound (tree s')
  end.
Proof.
  intros [Hc Hmp] Et Hturn. rewrite Et in Hc.
  assert (forall side, side_ok side -> valid_below bound (c (slot (matchPosition s) side)))
    as Hkid.
  { intros side Hs. apply Hc. now apply slot_range. }
  assert (valid_below bound INVALID_POSITION) as Hinv by now left.
  destruct Hturn as [Hex|cands count longest Hge Hlt Hrec
                    |l cands count longest Hge Hlt Hl Hrec
                    |l cands count longest Hge Hlt Hl Hrec]; cbn [tree matchPosition].
  - now repeat apply cells_below_update.
  - cbv zeta. apply cells_below_update.
    + apply cells_below_update; [assumption|]. apply Hkid. now left.
    + assert (cells_below bound
               (Slice CHILD_COUNT
                  (update c (leftSubtreeLeaf s) (c (slot (matchPosition s) 0))))) as H1.
      { apply cells_below_update; [assumption|]. apply Hkid. now left. }
      apply H1. apply slot_range. now right.
  - assert (cells_below bound
             (Slice CHILD_COUNT (update c (rightSubtreeLeaf s) (matchPosition s)))) as H1
      by now apply cells_below_update.
    split; [exact H1|]. apply H1. apply slot_range. now left.
  - assert (cells_below bound
             (Slice CHILD_COUNT (update c (leftSubtreeLeaf s) (matchPosition s)))) as H1
      by now apply cells_below_update.
    split; [exact H1|]. apply H1. apply slot_range. now right.
Qed.

Lemma cells_below_mono (b b' : Z) (t : IntSlice) :
  b <= b' -> cells_below b t -> cells_below b' t.
Proof.
  intros H. destruct t as [|n c]; cbn [cells_below]; [trivial|].
  intros Hc i Hi. apply (valid_below_mono b); auto.
Qed.

Lemma slice_update_all_in (n : Z) (c : Z -> Z) (count : Z) (g : Z -> Z) :
  count <= n ->
  slice_update_all (Slice n c) count g = Some (Slice n (update_all c count g)).
Proof.
  intros H. cbn [slice_update_all]. destruct (Z.leb_spec count n); [reflexivity|lia].
Qed.

Lemma update_all_in (c : Z -> Z) (count : Z) (g : Z -> Z) (j : Z) :
  0 <= j < count -> update_all c count g j = g (c j).
Proof.
  intros H. unfold update_all.
  destruct (Z.leb_spec 0 j); [|lia]. destruct (Z.ltb_spec j count); [|lia]. reflexivity.
Qed.

Lemma rebase_valid (delta bound v : Z) :
  0 < delta -> valid_below bound v -> valid_below (bound - delta) (rebase delta v).
Proof.
  unfold valid_below, rebase, INVALID_POSITION. intros Hd [E|R].
  - subst v. destruct (Z.geb_spec (-1) delta); [lia|now left].
  - destruct (Z.geb_spec v delta); [right; lia|now left].
Qed.

Lemma slot_shift (q k side : Z) : slot (q + k * DICTIONARY_SIZE) side = slot q side.
Proof. unfold slot. now rewrite Z_mod_plus_full. Qed.

(** [computeRelativePosition] keeps the invariant; after it, the relative
    position is the number of positions already inserted. *)
Lemma computeRelativePosition_spec (d : Dictionary) :
  DictInv d -> absolutePosition d < matchableBufferLength d ->
  exists d' position,
    computeRelativePosition d = Some (d', position) /\
    position = absolutePosition d' - bufferBase d' /\
    0 <= position /\
    absolutePosition d' = absolutePosition d /\
    buffer d' = buffer d /\
    matchableBufferLength d' = matchableBufferLength d /\
    DictInv d' /\
    (cells_below (currentRelative d + 1) (hashTable d) ->
     cells_below (position + 1) (hashTable d')) /\
    (cells_below (currentRelative d + 1) (children d) ->
     cells_below (position + 1) (children d')).
Proof.
  intros Hinv Hlt. pose proof Hinv as [(h & Eh & Hh) (c & Ec & Hc) Hbase Hm].
  assert (processed d = absolutePosition d - bufferBase d) as Ep
    by (unfold processed; lia).
  unfold computeRelativePosition.
  destruct (Z.eqb_spec (absolutePosition d - bufferBase d) REBASE_THRESHOLD) as [ET|NT].
  - rewrite Eh, Ec.
    rewrite slice_update_all_in by lia. rewrite slice_update_all_in by lia.
    do 2 eexists. split; [reflexivity|].
    cbn [absolutePosition bufferBase buffer matchableBufferLength hashTable children].
    assert (REBASE_THRESHOLD - DICTIONARY_SIZE = 4398046511102 * DICTIONARY_SIZE) as Ed
      by reflexivity.
    assert (0 < REBASE_THRESHOLD - DICTIONARY_SIZE) as Hd by reflexivity.
    assert (DICTIONARY_SIZE = 2097152) as ED by reflexivity.
    split; [lia|]. split; [lia|]. split; [reflexivity|]. split; [reflexivity|].
    split; [reflexivity|]. split; [|split].
    + constructor;
        cbn [absolutePosition bufferBase buffer matchableBufferLength hashTable children].
      * eexists. split; [reflexivity|]. intros i Hi.
        rewrite update_all_in by assumption.
        unfold processed.
        cbn [absolutePosition bufferBase buffer matchableBufferLength].
        replace (Z.min (absolutePosition d) (matchableBufferLength d) -
                 (bufferBase d + (REBASE_THRESHOLD - DICTIONARY_SIZE)))
          with (processed d - (REBASE_THRESHOLD - DICTIONARY_SIZE))
          by (unfold processed; lia).
        apply rebase_valid; [assumption|]. now apply Hh.
      * eexists. split; [reflexivity|]. intros q side Hq0 Hq Hs.
        unfold processed in Hq.
        cbn [absolutePosition bufferBase buffer matchableBufferLength] in Hq.
        rewrite update_all_in by (now apply slot_range).
        rewrite <- (slot_shift q 4398046511102 side). rewrite <- Ed.
        replace q with (q + (REBASE_THRESHOLD - DICTIONARY_SIZE)
                        - (REBASE_THRESHOLD - DICTIONARY_SIZE)) at 1 by lia.
        apply rebase_valid; [assumption|].
        apply Hc; trivial; lia.
      * lia.
      * exact Hm.
    + intros Hb. cbn [cells_below]. intros i Hi. rewrite update_all_in by assumption.
      rewrite ?Eh in Hb. cbn [cells_below] in Hb. unfold currentRelative in Hb.
      replace (absolutePosition d - bufferBase d -
               (REBASE_THRESHOLD - DICTIONARY_SIZE) + 1)
        with (absolutePosition d - bufferBase d + 1
              - (REBASE_THRESHOLD - DICTIONARY_SIZE)) by lia.
      apply rebase_valid; auto.
    + intros Hb. cbn [cells_below]. intros i Hi. rewrite update_all_in by assumption.
      rewrite ?Ec in Hb. cbn [cells_below] in Hb. unfold currentRelative in Hb.
      replace (absolutePosition d - bufferBase d -
               (REBASE_THRESHOLD - DICTIONARY_SIZE) + 1)
        with (absolutePosition d - bufferBase d + 1
              - (REBASE_THRESHOLD - DICTIONARY_SIZE)) by lia.
      apply rebase_valid; auto.
  - do 2 eexists. split; [reflexivity|]. split; [reflexivity|]. split; [lia|].
    split; [reflexivity|]. split; [reflexivity|]. split; [reflexivity|].
    split; [assumption|]. unfold currentRelative. split; trivial.
Qed.

Lemma hash_Some (data : list Z) (pos : Z) :
  0 <= pos -> pos + 2 < len data ->
  exists h, hash data pos = Some h /\ 0 <= h.
Proof.
  intros H0 H2. unfold hash.
  destruct (index_Some data (pos + 0)) as [b0 ->]; [lia|].
  destruct (index_Some data (pos + 1)) as [b1 ->]; [lia|].
  destruct (index_Some data (pos + 2)) as [b2 ->]; [lia|].
  eexists. split; [reflexivity|]. unfold to_uint.
  apply Z.mod_pos_bound. reflexivity.
Qed.

Lemma windowStart_if (position : Z) :
  (if position >=? DICTIONARY_SIZE then position - DICTIONARY_SIZE + 1 else 0)
  = windowStart position.
Proof. unfold windowStart. destruct (Z.geb_spec position DICTIONARY_SIZE); lia. Qed.

Lemma found_none (s : Search) : matchCandidateCount s = 0 -> found s = [].
Proof. intros E. unfold found. rewrite E. now destruct (candidates s). Qed.

(** [FindMatches] under the dictionary invariant: it returns, keeps the
    invariant, slides by one position, and its candidates are sorted and
    in range. *)
Lemma FindMatches_spec (d : Dictionary) (out : option (list Match)) :
  DictInv d ->
  (forall arr, out = Some arr -> MAX_MATCH_CANDIDATE_COUNT <= len arr) ->
  exists d' out' count,
    FindMatches d out = Some (d', out', count) /\
    DictInv d' /\
    absolutePosition d' = absolutePosition d + 1 /\
    buffer d' = buffer d /\
    0 <= count <= MAX_MATCH_CANDIDATE_COUNT /\
    option_map (@len Match) out' = option_map (@len Match) out /\
    (forall arr', out' = Some arr' ->
       Forall (candidate_ok MAX_MATCH_LENGTH) (firstn (Z.to_nat count) arr') /\
       increasing (map Length (firstn (Z.to_nat count) arr'))) /\
    (cells_below (currentRelative d + 1) (hashTable d) ->
     cells_below (currentRelative d + 1) (children d) ->
     cells_below (currentRelative d' + 1) (hashTable d') /\
     cells_below (currentRelative d' + 1) (children d')).
Proof.
  intros Hinv Hroom. unfold FindMatches.
  destruct (Z.geb_spec (absolutePosition d) (matchableBufferLength d)) as [Hpast|Hin].
  - (* past the matchable part: only the position moves *)
    do 3 eexists. split; [reflexivity|].
    destruct Hinv as [Ht Hc Hb Hm].
    split.
    { constructor;
        unfold processed in *;
        cbn [absolutePosition bufferBase buffer matchableBufferLength hashTable children].
      - replace (Z.min (absolutePosition d + 1) (matchableBufferLength d))
          with (Z.min (absolutePosition d) (matchableBufferLength d)) by lia.
        exact Ht.
      - replace (Z.min (absolutePosition d + 1) (matchableBufferLength d))
          with (Z.min (absolutePosition d) (matchableBufferLength d)) by lia.
        exact Hc.
      - lia.
      - exact Hm. }
    cbn [absolutePosition bufferBase buffer matchableBufferLength hashTable children].
    split; [reflexivity|]. split; [reflexivity|].
    split; [unfold MAX_MATCH_CANDIDATE_COUNT; lia|]. split; [reflexivity|].
    split.
    { intros arr' _. cbn [Z.to_nat firstn map]. split; constructor. }
    unfold currentRelative.
    cbn [absolutePosition bufferBase buffer matchableBufferLength hashTable children].
    intros H1 H2. split; eapply cells_below_mono; try eassumption; lia.
  - (* a position of the matchable part is inserted *)
    destruct (computeRelativePosition_spec d Hinv Hin)
      as (d1 & position & E1 & Epos & Hpos & Eabs & Ebuf & Emat & Hinv1 & Hcb1 & Hcb2).
    rewrite E1. pose proof DICTIONARY_SIZE_eq as ED.
    pose proof Hinv1 as [(h & Eh & Hh) (c & Ec & Hc) Hbase Hm].
    rewrite Emat in Hm. rewrite Ebuf in Hm.
    assert (absolutePosition d + 11 < len (buffer d)) as Hlen
      by (unfold TAIL_LENGTH, WORD_SIZE, MIN_MATCH_LENGTH in Hm; lia).
    assert (processed d1 = position) as Eproc by (unfold processed; lia).
    rewrite windowStart_if. rewrite min_spec.
    set (maxMatchLength :=
           Z.min (len (buffer d) - TAIL_LENGTH - absolutePosition d) MAX_MATCH_LENGTH).
    assert (MIN_MATCH_LENGTH <= maxMatchLength <= MAX_MATCH_LENGTH /\
            absolutePosition d + maxMatchLength <= len (buffer d)) as (Hmax & Hfit).
    { subst maxMatchLength.
      unfold TAIL_LENGTH, WORD_SIZE, MAX_MATCH_LENGTH, MIN_MATCH_LENGTH in *. lia. }
    replace (bufferBase d1 + position) with (absolutePosition d) by lia.
    destruct (hash_Some (buffer d1) (absolutePosition d)) as (hv & Ehash & Hhv);
      [lia|rewrite Ebuf; lia|].
    rewrite Ehash.
    assert (0 <= hv mod HASH_TABLE_SIZE < HASH_TABLE_SIZE) as Rhv
      by (apply Z.mod_pos_bound; reflexivity).
    rewrite Eh. rewrite slice_get_in by assumption. rewrite slice_set_in by assumption.
    pose proof (rem_slot position 0 Hpos) as Q0. rewrite Z.add_0_r in Q0.
    pose proof (rem_slot position 1 Hpos) as Q1.
    rewrite Q1, Q0.
    set (CB := cells_below (position + 1) (hashTable d1) /\
               cells_below (position + 1) (children d1)).
    set (s0 := mkSearch (children d1) out (h (hv mod HASH_TABLE_SIZE))
                 (slot position 0) (slot position 1) 0 0 0 0 0).
    assert (SearchInv position maxMatchLength s0) as Hs0.
    { constructor; cbn [s0 tree leftSubtreeLeaf rightSubtreeLeaf matchPosition
        matchCandidateCount matchCount candidates lowMatchLength highMatchLength
        longestMatchLength].
      - exists c, position, position. rewrite Z.eqb_refl.
        pose proof (windowStart_nonneg position). unfold windowStart in *.
        split; [exact Ec|]. split; [unfold windowStart; lia|].
        split; [unfold windowStart; lia|].
        split; [reflexivity|]. split; [reflexivity|]. split.
        { rewrite Z.min_id. rewrite <- Eproc. now apply Hh. }
        intros q side Hq Hs NL NR.
        assert (q <> position) as Nq.
        { intros ->. destruct Hs as [-> | ->]; contradiction. }
        apply Hc; trivial; lia.
      - unfold MAX_MATCH_CANDIDATE_COUNT. lia.
      - exact Hroom.
      - unfold MIN_MATCH_LENGTH in Hmax. lia. }
    set (P := fun s => CandInv s /\
                (CB -> cells_below (position + 1) (tree s) /\
                       valid_below (position + 1) (matchPosition s))).
    set (Q := fun s => (CandInv s /\ longestMatchLength s <= maxMatchLength) /\
                (CB -> cells_below (position + 1) (tree s))).
    assert (forall s c0 turn,
              SearchInv position maxMatchLength s -> P s ->
              tree s = Slice CHILD_COUNT c0 ->
              SearchTurn position maxMatchLength s c0 turn ->
              match turn with Continue s' => P s' | Break s' => Q s' end) as Hturns.
    { intros s c0 turn Hsi [HP1 HP2] Et Hturn.
      pose proof (turn_cands _ _ _ _ _ Hsi HP1 Et Hturn) as K1.
      destruct turn as [s1|s1].
      - split; [exact K1|]. intros Hcb.
        exact (turn_cells (position + 1) _ _ _ _ _ (HP2 Hcb) Et Hturn).
      - split; [exact K1|]. intros Hcb.
        exact (turn_cells (position + 1) _ _ _ _ _ (HP2 Hcb) Et Hturn). }
    assert (P s0) as HP0.
    { split.
      - unfold CandInv. rewrite (found_none s0 eq_refl). split; constructor.
      - intros [Hb1 Hb2]. split; [exact Hb2|].
        cbn [s0 matchPosition]. rewrite Eh in Hb1. now apply Hb1. }
    destruct (searchLoop_rule (buffer d1) (bufferBase d1) position maxMatchLength P Q
                ltac:(lia) Hpos ltac:(rewrite Ebuf; lia) ltac:(lia) Hturns
                (S (Z.to_nat MAX_MATCH_CANDIDATE_COUNT)) s0 Hs0 HP0)
      as (s' & Eloop & Hdone & Hcount & Hshape & (Hcand & Hlongest) & Hcells).
    { cbn [s0 matchCount]. unfold MAX_MATCH_CANDIDATE_COUNT. lia. }
    fold s0. rewrite Eloop.
    do 3 eexists. split; [reflexivity|].
    destruct Hdone as (c' & Ec' & Hc').
    split.
    { constructor; unfold processed;
        cbn [absolutePosition bufferBase buffer matchableBufferLength hashTable children].
      - eexists. split; [reflexivity|]. intros i Hi. unfold update.
        destruct (Z.eqb_spec i (hv mod HASH_TABLE_SIZE)).
        + right. lia.
        + apply (valid_below_mono position); [lia|].
          rewrite <- Eproc. now apply Hh.
      - exists c'. split; [exact Ec'|]. intros q side Hq0 Hq Hs.
        apply Hc'; trivial. unfold windowStart. lia.
      - lia.
      - rewrite Emat, Ebuf. exact Hm. }
    cbn [absolutePosition bufferBase buffer matchableBufferLength hashTable children].
    split; [lia|]. split; [exact Ebuf|]. split; [exact Hcount|].
    split; [exact Hshape|]. split.
    { intros arr' Earr. destruct Hcand as [Hall Hinc]. unfold found in *.
      rewrite Earr in Hall, Hinc. split; [|exact Hinc].
      eapply Forall_impl; [|exact Hall]. intros m. apply candidate_ok_mono. lia. }
    intros Hb1 Hb2. unfold currentRelative.
    cbn [absolutePosition bufferBase buffer matchableBufferLength hashTable children].
    replace (absolutePosition d1 + 1 - bufferBase d1 + 1) with (position + 2) by lia.
    specialize (Hcb1 Hb1). specialize (Hcb2 Hb2).
    split.
    + rewrite Eh in Hcb1. cbn [cells_below] in *. intros i Hi. unfold update.
      destruct (Z.eqb_spec i (hv mod HASH_TABLE_SIZE)).
      * right. lia.
      * apply (valid_below_mono (position + 1)); [lia|]. now apply Hcb1.
    + apply (cells_below_mono (position + 1)); [lia|]. apply Hcells. now split.
Qed.

(** [SetBuffer] on a dictionary that is new or was used before. *)
Lemma SetBuffer_spec (d0 : Dictionary) (b : list Z) :
  Usable d0 ->
  exists d,
    SetBuffer d0 b = Some d /\ DictInv d /\
    absolutePosition d = 0 /\ bufferBase d = 0 /\ buffer d = b /\
    (hashTable d0 = NilSlice ->
     cells_below (currentRelative d + 1) (hashTable d) /\
     cells_below (currentRelative d + 1) (children d)).
Proof.
  intros Hu. unfold SetBuffer.
  cbn [hashTable children].
  assert (exists h c,
    (if is_nil (hashTable d0)
     then Dictionary_initialize
            (mkDictionary b 0
               (if len b >? TAIL_LENGTH + MIN_MATCH_LENGTH
                then len b - (TAIL_LENGTH + MIN_MATCH_LENGTH) else 0)
               0 (hashTable d0) (children d0))
     else mkDictionary b 0
            (if len b >? TAIL_LENGTH + MIN_MATCH_LENGTH
             then len b - (TAIL_LENGTH + MIN_MATCH_LENGTH) else 0)
            0 (hashTable d0) (children d0))
    = mkDictionary b 0
        (if len b >? TAIL_LENGTH + MIN_MATCH_LENGTH
         then len b - (TAIL_LENGTH + MIN_MATCH_LENGTH) else 0)
        0 (Slice HASH_TABLE_SIZE h) (Slice CHILD_COUNT c) /\
    (hashTable d0 = NilSlice -> c = fun _ => 0)) as (h & c & -> & Hfresh).
  { destruct Hu as [E|(h & c & Eh & Ec)].
    - rewrite E. cbn [is_nil]. do 2 eexists. split; [reflexivity|]. reflexivity.
    - rewrite Eh, Ec. cbn [is_nil]. do 2 eexists. split; [reflexivity|].
      discriminate. }
  cbn [hashTable children]. rewrite slice_update_all_in by lia.
  eexists. split; [reflexivity|].
  assert (forall i, 0 <= i < HASH_TABLE_SIZE ->
            update_all h HASH_TABLE_SIZE (fun _ => INVALID_POSITION) i = INVALID_POSITION)
    as Hall by (intros i Hi; now rewrite update_all_in).
  split.
  { constructor; unfold processed;
      cbn [absolutePosition bufferBase buffer matchableBufferLength hashTable children].
    - eexists. split; [reflexivity|]. intros i Hi. left. now apply Hall.
    - eexists. split; [reflexivity|]. intros q side Hq0 Hq.
      destruct (Z.gtb_spec (len b) (TAIL_LENGTH + MIN_MATCH_LENGTH)); lia.
    - lia.
    - destruct (Z.gtb_spec (len b) (TAIL_LENGTH + MIN_MATCH_LENGTH)); lia. }
  cbn [absolutePosition bufferBase buffer hashTable children].
  split; [reflexivity|]. split; [reflexivity|]. split; [reflexivity|].
  intros Hnil. specialize (Hfresh Hnil). subst c. unfold currentRelative.
  cbn [absolutePosition bufferBase cells_below]. split.
  - intros i Hi. left. now apply Hall.
  - intros i Hi. right. lia.
Qed.

Lemma call_spec (d : Dictionary) (c : Call) :
  DictInv d -> roomy c ->
  exists d',
    call d c = Some d' /\ DictInv d' /\
    absolutePosition d' = absolutePosition d + 1 /\ buffer d' = buffer d /\
    (cells_below (currentRelative d + 1) (hashTable d) ->
     cells_below (currentRelative d + 1) (children d) ->
     cells_below (currentRelative d' + 1) (hashTable d') /\
     cells_below (currentRelative d' + 1) (children d')).
Proof.
  intros Hinv Hroom. destruct c as [out|]; cbn [call roomy] in *.
  - destruct (FindMatches_spec d (Some out) Hinv)
      as (d' & out' & count & E & Hinv' & Ha & Hb & _ & _ & _ & Hc).
    { intros arr [= <-]. exact Hroom. }
    rewrite E. exists d'. split; [reflexivity|]. split; [exact Hinv'|].
    split; [exact Ha|]. split; [exact Hb|]. exact Hc.
  - unfold Skip.
    destruct (FindMatches_spec d None Hinv)
      as (d' & out' & count & E & Hinv' & Ha & Hb & _ & _ & _ & Hc).
    { discriminate. }
    rewrite E. exists d'. split; [reflexivity|]. split; [exact Hinv'|].
    split; [exact Ha|]. split; [exact Hb|]. exact Hc.
Qed.

Lemma calls_spec (cs : list Call) :
  forall d, DictInv d -> Forall roomy cs ->
  exists d',
    calls d cs = Some d' /\ DictInv d' /\
    absolutePosition d' = absolutePosition d + len cs /\ buffer d' = buffer d /\
    (cells_below (currentRelative d + 1) (hashTable d) ->
     cells_below (currentRelative d + 1) (children d) ->
     cells_below (currentRelative d' + 1) (hashTable d') /\
     cells_below (currentRelative d' + 1) (children d')).
Proof.
  induction cs as [|c cs IH]; intros d Hinv Hroom.
  - exists d. cbn [calls]. unfold len. cbn [length].
    split; [reflexivity|]. split; [exact Hinv|]. split; [lia|]. split; [reflexivity|].
    intros H1 H2. now split.
  - inversion Hroom as [|? ? Hc Hcs]; subst. cbn [calls].
    destruct (call_spec d c Hinv Hc) as (d1 & E1 & Hinv1 & Ha1 & Hb1 & Hcb1).
    rewrite E1.
    destruct (IH d1 Hinv1 Hcs) as (d' & E' & Hinv' & Ha' & Hb' & Hcb').
    exists d'. rewrite len_cons.
    split; [exact E'|]. split; [exact Hinv'|]. split; [lia|]. split; [congruence|].
    intros H1 H2. destruct (Hcb1 H1 H2) as [K1 K2]. now apply Hcb'.
Qed.

(** C8: after [SetBuffer] (on a new dictionary or on one used before) and
    any sequence of [FindMatches] and [Skip] calls, a call of [FindMatches]
    with a candidate array of MAX_MATCH_CANDIDATE_COUNT entries returns
    candidates whose Lengths increase strictly, every Length in
    [MIN_MATCH_LENGTH, MAX_MATCH_LENGTH] and every Offset in
    [1, DICTIONARY_SIZE]. *)
Theorem FindMatches_candidates_sorted_in_range
  (d0 : Dictionary) (b : list Z) (cs : list Call) (out : list Match) :
  Usable d0 -> Forall roomy cs -> MAX_MATCH_CANDIDATE_COUNT <= len out ->
  exists d1 d2 d3 out' count,
    SetBuffer d0 b = Some d1 /\
    calls d1 cs = Some d2 /\
    FindMatches d2 (Some out) = Some (d3, Some out', count) /\
    0 <= count <= len out' /\
    increasing (map Length (firstn (Z.to_nat count) out')) /\
    Forall match_in_range (firstn (Z.to_nat count) out').
Proof.
  intros Hu Hcs Hout.
  destruct (SetBuffer_spec d0 b Hu) as (d1 & E1 & Hinv1 & _).
  destruct (calls_spec cs d1 Hinv1 Hcs) as (d2 & E2 & Hinv2 & _).
  destruct (FindMatches_spec d2 (Some out) Hinv2)
    as (d3 & out' & count & E3 & _ & _ & _ & Hcount & Hshape & Hcand & _).
  { intros arr [= <-]. exact Hout. }
  destruct out' as [arr'|]; [|discriminate].
  cbn [option_map] in Hshape. injection Hshape as Hlen.
  destruct (Hcand arr' eq_refl) as [Hall Hinc].
  exists d1, d2, d3, arr', count.
  split; [exact E1|]. split; [exact E2|]. split; [exact E3|]. split; [lia|].
  split; [exact Hinc|].
  eapply Forall_impl; [|exact Hall]. unfold candidate_ok, match_in_range.
  intros m. lia.
Qed.

Lemma FindMatches_candidates_sorted_in_range_witness :
  Usable Dictionary_zero /\
  Forall roomy [CallSkip; CallFindMatches (repeat (mkMatch 0 0) 128)] /\
  MAX_MATCH_CANDIDATE_COUNT <= len (repeat (mkMatch 0 0) 128) /\
  exists d1 d2 d3 out' count,
    SetBuffer Dictionary_zero (repeat 7 40) = Some d1 /\
    calls d1 [CallSkip; CallFindMatches (repeat (mkMatch 0 0) 128)] = Some d2 /\
    FindMatches d2 (Some (repeat (mkMatch 0 0) 128)) = Some (d3, Some out', count) /\
    0 <= count <= len out' /\
    increasing (map Length (firstn (Z.to_nat count) out')) /\
    Forall match_in_range (firstn (Z.to_nat count) out').
Proof.
  assert (Usable Dictionary_zero) as H1 by (left; reflexivity).
  assert (MAX_MATCH_CANDIDATE_COUNT <= len (repeat (mkMatch 0 0) 128)) as H3
    by (vm_compute; discriminate).
  assert (Forall roomy [CallSkip; CallFindMatches (repeat (mkMatch 0 0) 128)]) as H2
    by (repeat constructor; exact H3).
  split; [exact H1|]. split; [exact H2|]. split; [exact H3|].
  exact (FindMatches_candidates_sorted_in_range Dictionary_zero (repeat 7 40)
           [CallSkip; CallFindMatches (repeat (mkMatch 0 0) 128)]
           (repeat (mkMatch 0 0) 128) H1 H2 H3).
Defined.

(** C3, amended: after [SetBuffer] on a new dictionary and any sequence of
    [FindMatches] and [Skip] calls, every entry of [hashTable] and of
    [children] is INVALID_POSITION or a position p with
    0 <= p < currentRelative + 1. *)
Theorem entries_below_position (b : list Z) (cs : list Call) :
  Forall roomy cs ->
  exists d1 d2,
    SetBuffer Dictionary_zero b = Some d1 /\
    calls d1 cs = Some d2 /\
    forall i p,
      slice_get (hashTable d2) i = Some p \/ slice_get (children d2) i = Some p ->
      p = INVALID_POSITION \/ 0 <= p < currentRelative d2 + 1.
Proof.
  intros Hcs.
  destruct (SetBuffer_spec Dictionary_zero b (or_introl eq_refl))
    as (d1 & E1 & Hinv1 & _ & _ & _ & Hcb).
  destruct (Hcb eq_refl) as [Hcb1 Hcb2].
  destruct (calls_spec cs d1 Hinv1 Hcs) as (d2 & E2 & Hinv2 & _ & _ & Hcb').
  destruct (Hcb' Hcb1 Hcb2) as [K1 K2].
  exists d1, d2. split; [exact E1|]. split; [exact E2|].
  intros i p [G|G].
  - destruct (hashTable d2) as [|n c]; [discriminate|].
    cbn [slice_get cells_below] in *.
    destruct (Z.leb_spec 0 i); [|discriminate].
    destruct (Z.ltb_spec i n); [|discriminate].
    cbn [andb] in G. injection G as <-. apply K1. lia.
  - destruct (children d2) as [|n c]; [discriminate|].
    cbn [slice_get cells_below] in *.
    destruct (Z.leb_spec 0 i); [|discriminate].
    destruct (Z.ltb_spec i n); [|discriminate].
    cbn [andb] in G. injection G as <-. apply K2. lia.
Qed.

Lemma entries_below_position_witness :
  Forall roomy [CallSkip; CallFindMatches (repeat (mkMatch 0 0) 128); CallSkip] /\
  exists d1 d2,
    SetBuffer Dictionary_zero (repeat 7 40) = Some d1 /\
    calls d1 [CallSkip; CallFindMatches (repeat (mkMatch 0 0) 128); CallSkip] = Some d2 /\
    forall i p,
      slice_get (hashTable d2) i = Some p \/ slice_get (children d2) i = Some p ->
      p = INVALID_POSITION \/ 0 <= p < currentRelative d2 + 1.
Proof.
  assert (Forall roomy [CallSkip; CallFindMatches (repeat (mkMatch 0 0) 128); CallSkip])
    as H by (repeat constructor; vm_compute; discriminate).
  split; [exact H|].
  exact (entries_below_position (repeat 7 40)
           [CallSkip; CallFindMatches (repeat (mkMatch 0 0) 128); CallSkip] H).
Defined.

(** Calls past the matchable part of the buffer only move the position. *)
Lemma skips_past_end (n : nat) :
  forall d, matchableBufferLength d <= absolutePosition d ->
  calls d (repeat CallSkip n) =
    Some (mkDictionary (buffer d) (bufferBase d) (matchableBufferLength d)
            (absolutePosition d + Z.of_nat n) (hashTable d) (children d)).
Proof.
  induction n as [|n IH]; intros d H.
  - cbn [repeat calls]. rewrite Z.add_0_r. now destruct d.
  - cbn [repeat calls call]. unfold Skip, FindMatches.
    destruct (Z.geb_spec (absolutePosition d) (matchableBufferLength d)); [|lia].
    rewrite IH by (cbn [absolutePosition matchableBufferLength]; lia).
    cbn [absolutePosition bufferBase buffer matchableBufferLength hashTable children].
    do 2 f_equal. lia.
Qed.

(** C3 as stated fails: after [SetBuffer] of an empty buffer and
    DICTIONARY_SIZE + 1 calls of [Skip], the entry 0 of [children] is
    still 0, below the window that starts at position 2. *)
Lemma entry_falls_out_of_window :
  exists d1 d2,
    SetBuffer Dictionary_zero [] = Some d1 /\
    calls d1 (repeat CallSkip (Z.to_nat (DICTIONARY_SIZE + 1))) = Some d2 /\
    currentRelative d2 = DICTIONARY_SIZE + 1 /\
    slice_get (children d2) 0 = Some 0 /\
    ~ in_window d2 0.
Proof.
  eexists. eexists. split; [reflexivity|]. split.
  { apply skips_past_end. vm_compute. discriminate. }
  cbn [buffer bufferBase matchableBufferLength absolutePosition hashTable children].
  rewrite Z2Nat.id by (unfold DICTIONARY_SIZE; lia).
  split; [reflexivity|]. split; [reflexivity|].
  unfold in_window, currentRelative, INVALID_POSITION.
  cbn [absolutePosition bufferBase].
  intros [E|[H _]]; [discriminate|].
  rewrite DICTIONARY_SIZE_eq in H. vm_compute in H. apply H. reflexivity.
Qed.

(** [SetBuffer] clears [hashTable] only: on a dictionary that was used
    before, [children] keeps entries of the previous buffer, here the
    position 4 in slot 16 while the dictionary stands at position 0. *)
Example stale_children_after_reuse :
  (d1 <- SetBuffer Dictionary_zero
           [1; 2; 3; 10; 1; 2; 3; 11; 1; 2; 3; 12; 1; 2; 3; 13; 0; 0; 0; 0; 0; 0; 0; 0];;
   d2 <- calls d1 (repeat CallSkip 10);;
   d3 <- SetBuffer d2 [5; 5; 5];;
   Some (currentRelative d3, slice_get (children d3) 16)) = Some (0, Some 4).
Proof. vm_compute. reflexivity. Qed.

(* ------------------------------------------------------------------ *)
(** * The compressor driver does not panic *)

Lemma len_le_bytes (n : nat) (v : Z) : len (le_bytes n v) = Z.of_nat n.
Proof. unfold len, le_bytes. now rewrite length_map, length_seq. Qed.

Lemma FastWrite_Some (out : list Z) (off w s : Z) :
  0 <= off -> off + 4 <= len out -> 1 <= s <= 4 ->
  exists out', FastWrite out off w s = Some out' /\ len out' = len out.
Proof.
  intros H0 H4 Hs. unfold FastWrite.
  assert (s = 1 \/ s = 2 \/ s = 3 \/ s = 4) as [->|[->|[->| ->]]] by lia;
    cbn [Z.eqb Pos.eqb].
  - apply assign_Some. lia.
  - destruct (Z.leb_spec 0 off); [|lia].
    destruct (Z.leb_spec (off + 4) (len out)); [|lia]. cbn [andb].
    apply blit_Some; [lia|]. rewrite len_le_bytes. lia.
  - apply blit_Some; [lia|]. rewrite len_le_bytes. lia.
  - apply blit_Some; [lia|]. rewrite len_le_bytes. lia.
Qed.

Lemma FastWrite_byte (out : list Z) (off w : Z) :
  0 <= off < len out ->
  exists out', FastWrite out off w 1 = Some out' /\ len out' = len out.
Proof. intros H. unfold FastWrite. cbn [Z.eqb Pos.eqb]. now apply assign_Some. Qed.

Lemma matchCode_size (m : Match) : 1 <= snd (matchCode m) <= 4.
Proof.
  unfold matchCode.
  repeat match goal with |- context [if ?b then _ else _] => destruct b end;
    cbn [snd]; lia.
Qed.

Lemma encodeMatch_Some (m : Match) (out : list Z) (off : Z) :
  0 <= off -> off + 4 <= len out ->
  exists out' written,
    encodeMatch m out off = Some (out', written) /\ len out' = len out /\
    1 <= written <= 4.
Proof.
  intros H0 H4. unfold encodeMatch. pose proof (matchCode_size m) as Hs.
  destruct (matchCode m) as [word size]. cbn [snd] in Hs.
  destruct (FastWrite_Some out off word size H0 H4 Hs) as (out' & E & L).
  rewrite E. eauto.
Qed.

Lemma findBest_spec (d : Dictionary) (arr : list Match) :
  DictInv d -> MAX_MATCH_CANDIDATE_COUNT <= len arr ->
  exists d' arr' next,
    findBest d arr = Some (d', arr', next) /\ DictInv d' /\
    absolutePosition d' = absolutePosition d + 1 /\ buffer d' = buffer d /\
    len arr' = len arr.
Proof.
  intros Hinv Hroom. unfold findBest.
  destruct (FindMatches_spec d (Some arr) Hinv)
    as (d' & out' & count & E & Hinv' & Ha & Hb & Hcount & Hshape & _).
  { intros a [= <-]. exact Hroom. }
  rewrite E. destruct out' as [arr'|]; [|discriminate].
  cbn [option_map] in Hshape. injection Hshape as Hlen.
  unfold prefix.
  destruct (Z.leb_spec 0 count); [|lia].
  destruct (Z.leb_spec count (len arr')); [|lia]. cbn [andb].
  do 3 eexists. split; [reflexivity|]. auto.
Qed.

Lemma skipTimes_spec (n : nat) :
  forall d, DictInv d ->
  exists d', skipTimes n d = Some d' /\ DictInv d' /\
             absolutePosition d' = absolutePosition d + Z.of_nat n /\
             buffer d' = buffer d.
Proof.
  induction n as [|n IH]; intros d Hinv.
  - exists d. cbn [skipTimes]. repeat (split; trivial). lia.
  - cbn [skipTimes].
    destruct (call_spec d CallSkip Hinv I) as (d1 & E1 & Hinv1 & Ha1 & Hb1 & _).
    cbn [call] in E1. rewrite E1.
    destruct (IH d1 Hinv1) as (d' & E' & Hinv' & Ha' & Hb').
    exists d'. split; [exact E'|]. split; [exact Hinv'|]. split; [lia|congruence].
Qed.

Lemma getHeaderSize_range (n : Z) : 3 <= getHeaderSize n <= 9.
Proof.
  unfold getHeaderSize, getSizeCodedSize.
  destruct (n <=? 255); [lia|]. destruct (n <=? 65535); lia.
Qed.

Ltac sizes :=
  change TRAILING_DUMMY_SIZE with 4 in *; change WORD_SIZE with 4 in *;
  change controlWordBitCount with 31 in *; change (2 * 4) with 8 in *.

(** One turn of the main loop under its invariant. *)
Lemma compressStep_spec (source : list Z) (maxOutputEnd : Z) (e : Encoder) :
  EncInv source maxOutputEnd e ->
  Position (finder e) - 1 < len source ->
  exists turn,
    compressStep source maxOutputEnd e = Some turn /\
    match turn with
    | Continue e' =>
        EncInv source maxOutputEnd e' /\
        Position (finder e) < Position (finder e') /\
        outputIterator e' + TRAILING_DUMMY_SIZE <= maxOutputEnd /\
        len (outputBuffer e') = len (outputBuffer e)
    | Break e' => e' = e
    end.
Proof.
  intros [Hd Hb Hp Hroom [Hptr0 Hptr] Hit Hbit Hcands] Hcond.
  unfold compressStep, Position in *. sizes.
  destruct (Z.gtb_spec (outputIterator e + 8 + 4) maxOutputEnd) as [Hfull|Hfits].
  { eexists. split; reflexivity. }
  pose proof (getHeaderSize_range maxOutputEnd) as Hhs.
  assert (exists out1 word1 bit1 ptr1 it1,
    (if controlWordBit e =? 31
     then out <- FastWrite (outputBuffer e) (controlWordPointer e) (controlWord e) 4;;
          Some (out, controlWordGuardBit, 0, outputIterator e, outputIterator e + 4)
     else Some (outputBuffer e, controlWord e, controlWordBit e,
                controlWordPointer e, outputIterator e))
    = Some (out1, word1, bit1, ptr1, it1) /\
    len out1 = len (outputBuffer e) /\ 0 <= bit1 <= 30 /\
    getHeaderSize maxOutputEnd <= ptr1 /\ ptr1 + 4 <= it1 /\
    outputIterator e <= it1 <= outputIterator e + 4)
    as (out1 & word1 & bit1 & ptr1 & it1 & -> & Lout1 & Hbit1 & Hptr1 & Hptr1' & Hit1).
  { destruct (Z.eqb_spec (controlWordBit e) 31).
    - destruct (FastWrite_Some (outputBuffer e) (controlWordPointer e) (controlWord e) 4)
        as (out1 & E1 & L1); try lia.
      rewrite E1. do 5 eexists. split; [reflexivity|]. repeat split; lia.
    - do 5 eexists. split; [reflexivity|]. repeat split; lia. }
  cbv beta iota.
  destruct (findBest_spec (finder e) (matchCandidates e) Hd Hcands)
    as (d1 & arr1 & next1 & -> & Hd1 & Ha1 & Hb1 & La1).
  cbv beta iota.
  set (m := if (Length (nextMatch e) >? 0)
               && ((1 + Length next1) * getMatchCodedSize (nextMatch e)
                   >? Length (nextMatch e) * (1 + getMatchCodedSize next1))
            then mkMatch 0 (Offset (nextMatch e)) else nextMatch e).
  destruct (Length m =? 0).
  - (* a literal *)
    destruct (index_Some source (absolutePosition d1 - 2)) as [b ->]; [lia|].
    destruct (FastWrite_byte out1 it1 (to_uint b)) as (out2 & -> & L2); [lia|].
    eexists. split; [reflexivity|]. cbn [finder outputIterator outputBuffer].
    split; [|repeat split; lia].
    constructor; cbn [finder outputBuffer outputIterator controlWord controlWordBit
      controlWordPointer nextMatch matchCandidates]; unfold Position; sizes;
      try lia; try assumption.
    congruence.
  - (* a match *)
    destruct (encodeMatch_Some m out1 it1) as (out2 & written & -> & L2 & Hw); try lia.
    destruct (skipTimes_spec (Z.to_nat (Length m - 2)) d1 Hd1)
      as (d2 & -> & Hd2 & Ha2 & Hb2).
    destruct (findBest_spec d2 arr1 Hd2 ltac:(lia))
      as (d3 & arr3 & next3 & -> & Hd3 & Ha3 & Hb3 & La3).
    eexists. split; [reflexivity|]. cbn [finder outputIterator outputBuffer].
    split; [|repeat split; lia].
    constructor; cbn [finder outputBuffer outputIterator controlWord controlWordBit
      controlWordPointer nextMatch matchCandidates]; unfold Position; sizes;
      try lia; try assumption.
    congruence.
Qed.

(** The main loop ends, through [store] or by its condition. *)
Lemma compressLoop_spec (source : list Z) (maxOutputEnd : Z) :
  1 <= len source ->
  forall (fuel : nat) (e : Encoder),
    EncInv source maxOutputEnd e ->
    len source - (Position (finder e) - 1) <= Z.of_nat fuel ->
    exists exit,
      compressLoop fuel source maxOutputEnd e = Some exit /\
      match exit with
      | StoreInstead e' =>
          EncInv source maxOutputEnd e' /\
          len (outputBuffer e') = len (outputBuffer e)
      | LoopDone e' =>
          EncInv source maxOutputEnd e' /\
          len (outputBuffer e') = len (outputBuffer e) /\
          outputIterator e' + TRAILING_DUMMY_SIZE <= maxOutputEnd
      end.
Proof.
  intros Hlen. induction fuel as [|fuel IH]; intros e Hinv Hfuel.
  - cbn [compressLoop]. destruct (Z.ltb_spec (Position (finder e) - 1) (len source)); [lia|].
    eexists. split; [reflexivity|]. split; [assumption|]. split; [reflexivity|].
    destruct Hinv as [_ _ Hp _ _ [Hit|Hit] _ _]; [assumption|].
    unfold Position in *. lia.
  - cbn [compressLoop].
    destruct (Z.ltb_spec (Position (finder e) - 1) (len source)) as [Hcond|Hcond].
    + destruct (compressStep_spec source maxOutputEnd e Hinv Hcond) as (turn & -> & Ht).
      destruct turn as [e'|e'].
      * destruct Ht as (Hinv' & Hpos & _ & Hl).
        destruct (IH e' Hinv') as (exit & -> & Hexit); [lia|].
        exists exit. split; [reflexivity|].
        destruct exit as [e2|e2].
        -- destruct Hexit as [H1 H2]. split; [exact H1|congruence].
        -- destruct Hexit as (H1 & H2 & H3). split; [exact H1|]. split; [congruence|exact H3].
      * subst e'. eexists. split; [reflexivity|]. split; [assumption|reflexivity].
    + eexists. split; [reflexivity|]. split; [assumption|]. split; [reflexivity|].
      destruct Hinv as [_ _ Hp _ _ [Hit|Hit] _ _]; [assumption|].
      unfold Position in *. lia.
Qed.

Lemma getSizeCodedSize_cases (n : Z) :
  (n <= 255 /\ getSizeCodedSize n = 1) \/
  (255 < n <= 65535 /\ getSizeCodedSize n = 2) \/
  (65535 < n /\ getSizeCodedSize n = 4).
Proof.
  unfold getSizeCodedSize.
  destruct (Z.leb_spec n 255); [left; lia|].
  destruct (Z.leb_spec n 65535); [right; left; lia|right; right; lia].
Qed.

Lemma blit_blit_index (l l1 l2 : list Z) (o1 o2 : Z) (b1 b2 : list Z) (j : Z) :
  blit l o1 b1 = Some l1 -> blit l1 o2 b2 = Some l2 ->
  index l2 j =
    if (o2 <=? j) && (j <? o2 + len b2) then index b2 (j - o2)
    else if (o1 <=? j) && (j <? o1 + len b1) then index b1 (j - o1)
    else index l j.
Proof.
  intros E1 E2. rewrite (index_blit _ _ _ _ j E2).
  destruct ((o2 <=? j) && (j <? o2 + len b2)); [reflexivity|].
  apply (index_blit _ _ _ _ j E1).
Qed.

(** [encodeHeader] for a header of version 0. *)
Lemma encodeHeader_spec (u c : Z) (stored : bool) (maxCompressedSize : Z) (dst : list Z) :
  getHeaderSize maxCompressedSize <= len dst ->
  exists out,
    encodeHeader (mkHeader u c VERSION stored) maxCompressedSize dst = Some out /\
    len out = len dst /\
    index out 0 = Some (attributeByte (getSizeCodedSize maxCompressedSize) stored) /\
    (forall j, getHeaderSize maxCompressedSize <= j -> index out j = index dst j) /\
    (getSizeCodedSize maxCompressedSize = 4 ->
     forall k, 0 <= k < 4 ->
       index out (1 + k) = index (le_bytes 4 (to_uint32 u)) k /\
       index out (5 + k) = index (le_bytes 4 (to_uint32 c)) k).
Proof.
  intros Hlen. unfold getHeaderSize in *. unfold encodeHeader.
  cbn [Version IsStored UncompressedSize CompressedSize].
  destruct (getSizeCodedSize_cases maxCompressedSize) as [[_ E]|[[_ E]| [_ E]]];
    rewrite E in *; clear E.
  - change (to_uint 1) with 1. cbn [Z.eqb Pos.eqb].
    set (a := to_byte _).
    assert (a = attributeByte 1 stored) as -> by (subst a; now destruct stored).
    destruct (assign_Some dst 0 (attributeByte 1 stored)) as (d1 & E1 & L1); [lia|].
    rewrite E1.
    destruct (assign_Some d1 (1 + 0) (to_byte u)) as (d2 & E2 & L2); [lia|].
    rewrite E2.
    destruct (assign_Some d2 (1 + 1) (to_byte c)) as (d3 & E3 & L3); [lia|].
    rewrite E3. exists d3. split; [reflexivity|]. split; [lia|]. split; [|split].
    + rewrite (index_assign _ _ _ 0 _ E3), (index_assign _ _ _ 0 _ E2),
        (index_assign _ _ _ 0 _ E1). reflexivity.
    + intros j Hj. rewrite (index_assign _ _ _ j _ E3), (index_assign _ _ _ j _ E2),
        (index_assign _ _ _ j _ E1).
      destruct (Z.eqb_spec j (1 + 1)); [lia|]. destruct (Z.eqb_spec j (1 + 0)); [lia|].
      destruct (Z.eqb_spec j 0); [lia|]. reflexivity.
    + discriminate.
  - change (to_uint 2) with 2. cbn [Z.eqb Pos.eqb].
    set (a := to_byte _).
    assert (a = attributeByte 2 stored) as -> by (subst a; now destruct stored).
    destruct (assign_Some dst 0 (attributeByte 2 stored)) as (d1 & E1 & L1); [lia|].
    rewrite E1.
    destruct (blit_Some d1 1 (le_bytes 2 (to_uint16 u))) as (d2 & E2 & L2);
      [lia|rewrite len_le_bytes; lia|].
    rewrite E2.
    destruct (blit_Some d2 (1 + 2) (le_bytes 2 (to_uint16 c))) as (d3 & E3 & L3);
      [lia|rewrite len_le_bytes; lia|].
    rewrite E3. exists d3. split; [reflexivity|]. split; [lia|]. split; [|split].
    + rewrite (blit_blit_index _ _ _ _ _ _ _ 0 E2 E3), !len_le_bytes.
      cbn [Z.leb Z.compare andb Z.ltb Z.add Z.of_nat Pos.of_succ_nat Pos.succ Pos.add].
      rewrite (index_assign _ _ _ 0 _ E1). reflexivity.
    + intros j Hj. rewrite (blit_blit_index _ _ _ _ _ _ _ j E2 E3), !len_le_bytes.
      destruct (Z.ltb_spec j (1 + 2 + Z.of_nat 2)); [lia|]. rewrite andb_false_r.
      destruct (Z.ltb_spec j (1 + Z.of_nat 2)); [lia|]. rewrite andb_false_r.
      rewrite (index_assign _ _ _ j _ E1). destruct (Z.eqb_spec j 0); [lia|reflexivity].
    + discriminate.
  - change (to_uint 4) with 4. cbn [Z.eqb Pos.eqb].
    set (a := to_byte _).
    assert (a = attributeByte 4 stored) as -> by (subst a; now destruct stored).
    destruct (assign_Some dst 0 (attributeByte 4 stored)) as (d1 & E1 & L1); [lia|].
    rewrite E1.
    destruct (blit_Some d1 1 (le_bytes 4 (to_uint32 u))) as (d2 & E2 & L2);
      [lia|rewrite len_le_bytes; lia|].
    rewrite E2.
    destruct (blit_Some d2 (1 + 4) (le_bytes 4 (to_uint32 c))) as (d3 & E3 & L3);
      [lia|rewrite len_le_bytes; lia|].
    rewrite E3. exists d3. split; [reflexivity|]. split; [lia|]. split; [|split].
    + rewrite (blit_blit_index _ _ _ _ _ _ _ 0 E2 E3), !len_le_bytes.
      cbn [Z.leb Z.compare andb Z.ltb Z.add Z.of_nat Pos.of_succ_nat Pos.succ Pos.add].
      rewrite (index_assign _ _ _ 0 _ E1). reflexivity.
    + intros j Hj. rewrite (blit_blit_index _ _ _ _ _ _ _ j E2 E3), !len_le_bytes.
      destruct (Z.ltb_spec j (1 + 4 + Z.of_nat 4)); [lia|]. rewrite andb_false_r.
      destruct (Z.ltb_spec j (1 + Z.of_nat 4)); [lia|]. rewrite andb_false_r.
      rewrite (index_assign _ _ _ j _ E1). destruct (Z.eqb_spec j 0); [lia|reflexivity].
    + intros _ k Hk. split.
      * rewrite (blit_blit_index _ _ _ _ _ _ _ (1 + k) E2 E3), !len_le_bytes.
        destruct (Z.leb_spec (1 + 4) (1 + k)); [lia|]. cbn [andb].
        destruct (Z.leb_spec 1 (1 + k)); [|lia].
        destruct (Z.ltb_spec (1 + k) (1 + Z.of_nat 4)); [|lia]. cbn [andb].
        f_equal. lia.
      * rewrite (blit_blit_index _ _ _ _ _ _ _ (5 + k) E2 E3), !len_le_bytes.
        destruct (Z.leb_spec (1 + 4) (5 + k)); [|lia].
        destruct (Z.ltb_spec (5 + k) (1 + 4 + Z.of_nat 4)); [|lia]. cbn [andb].
        f_equal. lia.
Qed.

Lemma GetMaxCompressedSize_eq (n : Z) : GetMaxCompressedSize n = 9 + n.
Proof. reflexivity. Qed.

Lemma DictInv_Usable (d : Dictionary) : DictInv d -> Usable d.
Proof.
  intros [(h & Eh & _) (c & Ec & _) _ _]. right. eauto.
Qed.

Lemma store_spec (source buf : list Z) :
  GetMaxCompressedSize (len source) <= len buf ->
  exists out,
    store source buf =
      Some (RESULT_OK, getHeaderSize (GetMaxCompressedSize (len source)) + len source, out) /\
    len out = len buf /\
    HeaderWritten source out
      (getHeaderSize (GetMaxCompressedSize (len source)) + len source).
Proof.
  intros Hroom. unfold store.
  pose proof (getHeaderSize_range (GetMaxCompressedSize (len source))) as Hhs.
  pose proof (len_nonneg source) as Hs.
  rewrite GetMaxCompressedSize_eq in *.
  destruct (encodeHeader_spec (to_uint (len source))
              (to_uint (getHeaderSize (9 + len source) + len source)) true
              (9 + len source) buf) as (hb & E & L & _); [lia|].
  rewrite E. unfold copy_slices.
  destruct (Z.leb_spec 0 (0 + getHeaderSize (9 + len source))); [|lia].
  destruct (Z.leb_spec (0 + getHeaderSize (9 + len source)) (len hb)); [|lia].
  destruct (Z.leb_spec (len hb) (len hb)); [|lia].
  destruct (Z.leb_spec 0 0); [|lia].
  destruct (Z.leb_spec 0 (len source)); [|lia].
  cbn [andb skipn Z.to_nat].
  destruct (blit_Some hb (0 + getHeaderSize (9 + len source))
              (firstn (Z.to_nat (len hb - (0 + getHeaderSize (9 + len source)))) source))
    as (out & Eb & Lb).
  { lia. }
  { rewrite len_firstn_min. lia. }
  rewrite Eb. exists out. split; [reflexivity|]. split; [lia|].
  exists true, buf, hb. split; [exact E|]. split; [lia|].
  intros j Hj. rewrite GetMaxCompressedSize_eq in Hj. rewrite (index_blit _ _ _ _ j Eb).
  destruct (Z.leb_spec (0 + getHeaderSize (9 + len source)) j); [lia|]. reflexivity.
Qed.

(** [Compress] on a non-empty source and a destination of the required
    size returns RESULT_OK. *)
Lemma Compress_spec (c : Compressor) (source destination : list Z) (compressedSize : Z) :
  Usable (dict c) ->
  1 <= len source ->
  GetMaxCompressedSize (len source) <= len destination ->
  exists size out c',
    Compress c source destination compressedSize = Some (RESULT_OK, size, out, c') /\
    Usable (dict c') /\
    len out = len destination /\
    getHeaderSize (GetMaxCompressedSize (len source)) < size
      <= GetMaxCompressedSize (len source) /\
    HeaderWritten source out size.
Proof.
  intros Hu Hlen Hroom. unfold Compress.
  destruct (Z.eqb_spec (len source) 0); [lia|].
  destruct (Z.ltb_spec (len destination) (GetMaxCompressedSize (len source))); [lia|].
  destruct (SetBuffer_spec (dict c) source Hu) as (d0 & -> & Hd0 & Ha0 & _ & Hb0 & _).
  destruct (call_spec d0 CallSkip Hd0 I) as (d1 & E1 & Hd1 & Ha1 & Hb1 & _).
  cbn [call] in E1. rewrite E1.
  pose proof (getHeaderSize_range (GetMaxCompressedSize (len source))) as Hhs.
  set (e0 := mkEncoder d1 destination _ _ _ _ _ _).
  assert (EncInv source (GetMaxCompressedSize (len source)) e0) as He0.
  { constructor; cbn [e0 finder outputBuffer outputIterator controlWord controlWordBit
      controlWordPointer nextMatch matchCandidates]; unfold Position; sizes;
      try lia; try assumption.
    - congruence.
    - rewrite len_repeat. unfold MAX_MATCH_CANDIDATE_COUNT. lia. }
  destruct (compressLoop_spec source (GetMaxCompressedSize (len source)) Hlen
              (length source) e0 He0) as (exit & -> & Hexit).
  { cbn [e0 finder]. unfold Position, len. lia. }
  cbn [e0 outputBuffer] in Hexit.
  destruct exit as [e|e].
  - (* the block is stored *)
    destruct Hexit as [[Hd _ _ Hr _ _ _ _] Hl].
    destruct (store_spec source (outputBuffer e) Hr) as (out & -> & Lo & Hh).
    do 3 eexists. split; [reflexivity|]. cbn [dict].
    split; [now apply DictInv_Usable|]. split; [lia|]. split; [|exact Hh].
    rewrite GetMaxCompressedSize_eq in *. lia.
  - (* the block is compressed *)
    destruct Hexit as ([Hd _ _ Hr [Hp0 Hp] _ _ _] & Hl & Hit). sizes.
    destruct (FastWrite_Some (outputBuffer e) (controlWordPointer e) (controlWord e) 4)
      as (out1 & -> & L1); try lia.
    destruct (FastWrite_Some out1 (outputIterator e) 0 4) as (out2 & -> & L2); try lia.
    destruct (encodeHeader_spec (to_uint (len source)) (to_uint (outputIterator e + 4))
                false (GetMaxCompressedSize (len source)) out2)
      as (out & E & Lo & _); [lia|].
    rewrite E.
    do 3 eexists. split; [reflexivity|]. cbn [dict].
    split; [now apply DictInv_Usable|]. split; [lia|]. split; [lia|].
    exists false, out2, out. split; [exact E|]. split; [reflexivity|]. reflexivity.
Qed.

(** C9: [Compress] returns RESULT_ERROR_BUFFER_TOO_SMALL exactly when the
    source is empty or the destination is shorter than
    GetMaxCompressedSize (len source); on every other input it returns
    RESULT_OK, whether the block ends up compressed or stored. *)
Theorem Compress_result (c : Compressor) (source destination : list Z) (compressedSize : Z) :
  Usable (dict c) ->
  exists result size out c',
    Compress c source destination compressedSize = Some (result, size, out, c') /\
    (result = RESULT_ERROR_BUFFER_TOO_SMALL <->
     len source = 0 \/ len destination < GetMaxCompressedSize (len source)) /\
    (result = RESULT_ERROR_BUFFER_TOO_SMALL \/ result = RESULT_OK).
Proof.
  intros Hu. pose proof (len_nonneg source) as Hs.
  destruct (Z.eq_dec (len source) 0) as [E0|N0].
  { unfold Compress. rewrite E0. cbn [Z.eqb].
    do 4 eexists. split; [reflexivity|]. split; [|now left]. split; auto. }
  destruct (Z.lt_ge_cases (len destination) (GetMaxCompressedSize (len source)))
    as [Hsmall|Hroom].
  { unfold Compress. destruct (Z.eqb_spec (len source) 0); [lia|].
    destruct (Z.ltb_spec (len destination) (GetMaxCompressedSize (len source))); [|lia].
    do 4 eexists. split; [reflexivity|]. split; [|now left]. split; auto. }
  destruct (Compress_spec c source destination compressedSize Hu ltac:(lia) Hroom)
    as (size & out & c' & E & _).
  rewrite E. do 4 eexists. split; [reflexivity|]. split; [|now right].
  split; [discriminate|]. intros [H|H]; lia.
Qed.

Lemma Compress_result_witness :
  Usable (dict Compressor_zero) /\
  exists result size out c',
    Compress Compressor_zero [1; 2; 3] (zeros 12) 0 = Some (result, size, out, c') /\
    (result = RESULT_ERROR_BUFFER_TOO_SMALL <->
     len [1; 2; 3] = 0 \/ len (zeros 12) < GetMaxCompressedSize (len [1; 2; 3])) /\
    (result = RESULT_ERROR_BUFFER_TOO_SMALL \/ result = RESULT_OK).
Proof.
  assert (Usable (dict Compressor_zero)) as H by (left; reflexivity).
  split; [exact H|].
  exact (Compress_result Compressor_zero [1; 2; 3] (zeros 12) 0 H).
Defined.

Lemma sizeClass_attributeByte (n : Z) (stored : bool) :
  sizeClass (attributeByte (getSizeCodedSize n) stored) = getSizeCodedSize n.
Proof.
  destruct (getSizeCodedSize_cases n) as [[_ ->]|[[_ ->]|[_ ->]]];
    now destruct stored.
Qed.

Lemma encodeHeader_room (u c : Z) (stored : bool) (maxCompressedSize : Z)
  (buf hb : list Z) :
  encodeHeader (mkHeader u c VERSION stored) maxCompressedSize buf = Some hb ->
  getHeaderSize maxCompressedSize <= len buf.
Proof.
  intros Eh. unfold encodeHeader in Eh.
  destruct (assign buf 0 _) as [b1|] eqn:E1; [|discriminate].
  pose proof (assign_len _ _ _ _ E1) as [L1 R1].
  cbn [Version IsStored UncompressedSize CompressedSize] in Eh.
  unfold getHeaderSize in *.
  destruct (getSizeCodedSize_cases maxCompressedSize)
    as [[_ Ec]|[[_ Ec]|[_ Ec]]]; rewrite Ec in *.
  - change (to_uint 1) with 1 in Eh. cbn [Z.eqb Pos.eqb] in Eh.
    destruct (assign b1 (1 + 0) _) as [b2|] eqn:E2; [|discriminate].
    pose proof (assign_len _ _ _ _ E2) as [L2 R2].
    pose proof (assign_len _ _ _ _ Eh) as [L3 R3]. lia.
  - change (to_uint 2) with 2 in Eh. cbn [Z.eqb Pos.eqb] in Eh.
    destruct (blit b1 1 _) as [b2|] eqn:E2; [|discriminate].
    pose proof (blit_len _ _ _ _ E2) as [L2 R2].
    pose proof (blit_len _ _ _ _ Eh) as [L3 R3].
    rewrite len_le_bytes in *. lia.
  - change (to_uint 4) with 4 in Eh. cbn [Z.eqb Pos.eqb] in Eh.
    destruct (blit b1 1 _) as [b2|] eqn:E2; [|discriminate].
    pose proof (blit_len _ _ _ _ E2) as [L2 R2].
    pose proof (blit_len _ _ _ _ Eh) as [L3 R3].
    rewrite len_le_bytes in *. lia.
Qed.

(** The bytes of the header at the head of a compressed block. *)
Lemma HeaderWritten_bytes (source out : list Z) (size : Z) :
  HeaderWritten source out size ->
  exists stored,
    index out 0 =
      Some (attributeByte (getSizeCodedSize (GetMaxCompressedSize (len source))) stored) /\
    (getSizeCodedSize (GetMaxCompressedSize (len source)) = 4 ->
     forall k, 0 <= k < 4 ->
       index out (1 + k) = index (le_bytes 4 (to_uint32 (to_uint (len source)))) k /\
       index out (5 + k) = index (le_bytes 4 (to_uint32 (to_uint size))) k).
Proof.
  intros (stored & buf & hb & Eh & Lh & Hh).
  pose proof (getHeaderSize_range (GetMaxCompressedSize (len source))) as Hhs.
  pose proof (encodeHeader_room _ _ _ _ _ _ Eh) as Hbuf.
  destruct (encodeHeader_spec (to_uint (len source)) (to_uint size) stored
              (GetMaxCompressedSize (len source)) buf Hbuf)
    as (hb' & Eh' & _ & Ha & _ & H4).
  rewrite Eh in Eh'. injection Eh' as <-.
  exists stored. split.
  - rewrite Hh by lia. exact Ha.
  - intros E4 k Hk. unfold getHeaderSize in Hh. rewrite E4 in Hh.
    rewrite !Hh by lia. now apply H4.
Qed.

(** C5: [getSizeCodedSize] is 1 up to 255, 2 up to 65535 and 4 above,
    never 8; and the header of every block [Compress] emits carries a
    size class in {1,2,4}. *)
Theorem size_class_is_1_2_or_4 :
  (forall n, 0 <= n ->
     (n <= 255 -> getSizeCodedSize n = 1) /\
     (256 <= n <= 65535 -> getSizeCodedSize n = 2) /\
     (65535 < n -> getSizeCodedSize n = 4) /\
     getSizeCodedSize n <> 8) /\
  (forall c source destination compressedSize,
     Usable (dict c) -> 1 <= len source ->
     GetMaxCompressedSize (len source) <= len destination ->
     exists size out c' a,
       Compress c source destination compressedSize = Some (RESULT_OK, size, out, c') /\
       index out 0 = Some a /\ In (sizeClass a) [1; 2; 4]).
Proof.
  split.
  - intros n _. destruct (getSizeCodedSize_cases n) as [[H ->]|[[H ->]|[H ->]]];
      repeat split; lia.
  - intros c source destination compressedSize Hu Hlen Hroom.
    destruct (Compress_spec c source destination compressedSize Hu Hlen Hroom)
      as (size & out & c' & E & _ & _ & _ & Hw).
    destruct (HeaderWritten_bytes source out size Hw) as (stored & Ha & _).
    exists size, out, c', (attributeByte (getSizeCodedSize (GetMaxCompressedSize (len source))) stored).
    split; [exact E|]. split.
    + exact Ha.
    + rewrite sizeClass_attributeByte.
      destruct (getSizeCodedSize_cases (GetMaxCompressedSize (len source)))
        as [[_ ->]|[[_ ->]|[_ ->]]]; cbn [In]; auto.
Qed.

Lemma size_class_is_1_2_or_4_witness :
  (0 <= 70000 /\ getSizeCodedSize 70000 = 4 /\ getSizeCodedSize 70000 <> 8) /\
  Usable (dict Compressor_zero) /\ 1 <= len [1; 2; 3] /\
  GetMaxCompressedSize (len [1; 2; 3]) <= len (zeros 12) /\
  exists size out c' a,
    Compress Compressor_zero [1; 2; 3] (zeros 12) 0 = Some (RESULT_OK, size, out, c') /\
    index out 0 = Some a /\ In (sizeClass a) [1; 2; 4].
Proof.
  destruct size_class_is_1_2_or_4 as [H1 H2].
  assert (0 <= 70000) as P0 by lia.
  destruct (H1 70000 P0) as (_ & _ & G4 & G8).
  assert (Usable (dict Compressor_zero)) as Hu by (left; reflexivity).
  assert (1 <= len [1; 2; 3]) as Hl by (vm_compute; discriminate).
  assert (GetMaxCompressedSize (len [1; 2; 3]) <= len (zeros 12)) as Hr
    by (vm_compute; discriminate).
  split; [split; [exact P0|split; [apply G4; lia|exact G8]]|].
  split; [exact Hu|]. split; [exact Hl|]. split; [exact Hr|].
  exact (H2 Compressor_zero [1; 2; 3] (zeros 12) 0 Hu Hl Hr).
Defined.

(* ------------------------------------------------------------------ *)
(** * Sources of 4 GiB and more: the size fields wrap *)

Lemma index_firstn {A : Type} (n : nat) (l : list A) (j : Z) :
  j < Z.of_nat n -> index (firstn n l) j = index l j.
Proof.
  intros H. unfold index. destruct (Z.ltb_spec j 0); [reflexivity|].
  apply nth_error_firstn_lt. lia.
Qed.

Lemma index_skipn {A : Type} (n : nat) (l : list A) (j : Z) :
  0 <= j -> index (skipn n l) j = index l (Z.of_nat n + j).
Proof.
  intros H. unfold index.
  destruct (Z.ltb_spec j 0); [lia|]. destruct (Z.ltb_spec (Z.of_nat n + j) 0); [lia|].
  rewrite nth_error_skipn. f_equal. lia.
Qed.

Lemma le_bytes4_value (v : Z) :
  0 <= v < 2 ^ 32 ->
  v mod 256 + 256 * ((v / 256) mod 256 + 256 * ((v / 65536) mod 256
    + 256 * ((v / 16777216) mod 256))) = v.
Proof. change (2 ^ 32) with 4294967296. intros H. Z.div_mod_to_equations. lia. Qed.

(** Reading back a header of size class 4. *)
Lemma decodeHeader_class4 (src : list Z) (stored : bool) (u c : Z) :
  9 < len src ->
  index src 0 = Some (attributeByte 4 stored) ->
  (forall k, 0 <= k < 4 ->
     index src (1 + k) = index (le_bytes 4 u) k /\
     index src (5 + k) = index (le_bytes 4 c) k) ->
  0 <= u < 2 ^ 32 -> 0 <= c < 2 ^ 32 ->
  decodeHeader src = Some (RESULT_OK, mkHeader u c 0 stored, 9).
Proof.
  intros Hlen Ha Hb Hu Hc. unfold decodeHeader.
  destruct (Z.ltb_spec (len src) 1); [lia|]. rewrite Ha.
  rewrite len_tail by lia.
  assert (Z.land (Z.shiftr (attributeByte 4 stored) 3) 7 + 1 = 4) as ->
    by now destruct stored.
  assert (Z.land (attributeByte 4 stored) 7 = 0) as -> by now destruct stored.
  assert (negb (Z.land (attributeByte 4 stored) 128 =? 0) = stored) as ->
    by now destruct stored.
  destruct (Z.ltb_spec (len src - 1) (1 + 2 * 4)); [lia|].
  cbn [Z.eqb Pos.eqb UncompressedSize CompressedSize Version IsStored Header_zero].
  rewrite le_bytes4 in Hb.
  rewrite (le_read4 (skipn 1 src) 0 (u mod 256) ((u / 256) mod 256)
             ((u / 65536) mod 256) ((u / 16777216) mod 256)).
  2-5: rewrite index_skipn by lia.
  2: { destruct (Hb 0 ltac:(lia)) as [G _]. exact G. }
  2: { destruct (Hb 1 ltac:(lia)) as [G _]. exact G. }
  2: { destruct (Hb 2 ltac:(lia)) as [G _]. exact G. }
  2: { destruct (Hb 3 ltac:(lia)) as [G _]. exact G. }
  rewrite le_bytes4_value by assumption.
  rewrite le_bytes4 in Hb.
  rewrite (le_read4 (skipn 1 src) 4 (c mod 256) ((c / 256) mod 256)
             ((c / 65536) mod 256) ((c / 16777216) mod 256)).
  2-5: rewrite index_skipn by lia.
  2: { destruct (Hb 0 ltac:(lia)) as [_ G]. exact G. }
  2: { destruct (Hb 1 ltac:(lia)) as [_ G]. exact G. }
  2: { destruct (Hb 2 ltac:(lia)) as [_ G]. exact G. }
  2: { destruct (Hb 3 ltac:(lia)) as [_ G]. exact G. }
  rewrite le_bytes4_value by assumption. reflexivity.
Qed.

Lemma decodeMatch_Length (d : Decompressor) (src : list Z) (off : Z) (m : Match) (sz : Z) :
  decodeMatch (Decompressor_initialize d) src off = Some (m, sz) ->
  MIN_MATCH_LENGTH <= Length m.
Proof.
  unfold decodeMatch. destruct (FastRead src off WORD_SIZE) as [w|]; [|discriminate].
  rewrite lut_entry.
  repeat match goal with
         | |- context [if ?b then _ else _] => destruct b
         end; try discriminate;
    intros [= <- _]; cbn [Length lengthMask lengthShift];
    match goal with
    | |- _ <= Z.land ?a ?b + _ =>
        assert (0 <= Z.land a b) by (apply Z.land_nonneg; right; lia)
    end; unfold MIN_MATCH_LENGTH; lia.
Qed.

Lemma blit_nil (l : list Z) (off : Z) : 0 <= off <= len l -> blit l off [] = Some l.
Proof.
  intros H. unfold blit. change (len []) with 0.
  destruct (Z.leb_spec 0 off); [|lia]. destruct (Z.leb_spec (off + 0) (len l)); [|lia].
  cbn [andb length app]. rewrite Nat.add_0_r, firstn_skipn. reflexivity.
Qed.

(** A block whose header announces no data: [Decompress] writes nothing. *)
Lemma Decompress_writes_nothing (d : Decompressor) (src dst : list Z)
  (stored : bool) (c : Z) :
  decodeHeader src = Some (RESULT_OK, mkHeader 0 c 0 stored, 9) ->
  Decompress (Decompressor_initialize d) src dst = None \/
  exists r, Decompress (Decompressor_initialize d) src dst = Some (r, dst).
Proof.
  intros Eh. unfold Decompress. rewrite Eh.
  cbn [Result_eqb negb Version VERSION Z.eqb UncompressedSize CompressedSize IsStored].
  pose proof (len_nonneg dst) as Hd.
  destruct (Z.ltb_spec (len src) c); [right; eexists; reflexivity|].
  destruct (Z.ltb_spec (len dst) 0); [lia|]. cbn [orb].
  destruct stored.
  - unfold copy_slices. cbn [Z.sub Z.to_nat firstn].
    match goal with
    | |- context [if ?b then blit _ _ _ else None] => destruct b
    end; [|now left].
    rewrite blit_nil by lia. right. eexists. reflexivity.
  - change (if 0 >? TAIL_LENGTH then 0 - TAIL_LENGTH else 0) with 0.
    cbn [decodeLoop].
    destruct (0 + 9 + 2 * WORD_SIZE >? c); [right; eexists; reflexivity|].
    change (1 =? 1) with true. cbv iota.
    destruct (FastRead src (0 + 9) WORD_SIZE) as [w|]; [|now left].
    destruct (Z.land w 1 =? 0).
    + change (0 <? 0) with false. cbv iota.
      change (Z.to_nat (0 - 0)) with 0%nat. cbn [tailLiterals].
      change (0 <? 0) with false. cbv iota. right. eexists. reflexivity.
    + destruct (decodeMatch _ src _) as [[m sz]|] eqn:Em; [|now left].
      pose proof (decodeMatch_Length _ _ _ _ _ Em) as HL.
      unfold MIN_MATCH_LENGTH in HL.
      destruct (Z.gtb_spec (0 + Length m) 0); [|lia].
      rewrite orb_true_r. right. eexists. reflexivity.
Qed.

Lemma len_big_source : len big_source = 2 ^ 32.
Proof. unfold big_source. rewrite len_repeat. apply Z2Nat.id. discriminate. Qed.

Lemma len_zeros (n : Z) : 0 <= n -> len (zeros n) = n.
Proof. intros H. unfold zeros. rewrite len_repeat. now apply Z2Nat.id. Qed.

Lemma zeros_not_big_source : zeros (len big_source) <> big_source.
Proof.
  rewrite len_big_source. unfold zeros, big_source.
  destruct (Z.to_nat (2 ^ 32)) as [|n] eqn:E.
  - assert (Z.of_nat (Z.to_nat (2 ^ 32)) = 2 ^ 32) as H by (apply Z2Nat.id; discriminate).
    rewrite E in H. discriminate.
  - cbn [repeat]. discriminate.
Qed.

(** With an initialised decompressor, a source of 4 GiB: the block is
    compressed without error, its header announces an uncompressed size of
    0, and [Decompress] leaves the destination as it was. *)
Lemma four_GiB_not_restored (d : Decompressor) :
  exists size out c',
    Compress Compressor_zero big_source
      (zeros (GetMaxCompressedSize (len big_source))) 0
      = Some (RESULT_OK, size, out, c') /\
    (Decompress (Decompressor_initialize d) (firstn (Z.to_nat size) out)
       (zeros (len big_source)) = None \/
     exists r,
       Decompress (Decompressor_initialize d) (firstn (Z.to_nat size) out)
         (zeros (len big_source)) = Some (r, zeros (len big_source))) /\
    zeros (len big_source) <> big_source.
Proof.
  pose proof len_big_source as Ls.
  assert (GetMaxCompressedSize (len big_source) = 2 ^ 32 + 9) as Em
    by (rewrite GetMaxCompressedSize_eq, Ls; reflexivity).
  destruct (Compress_spec Compressor_zero big_source
              (zeros (GetMaxCompressedSize (len big_source))) 0)
    as (size & out & c' & E & _ & Lo & Hsize & Hw).
  { left. reflexivity. }
  { rewrite Ls. discriminate. }
  { rewrite len_zeros; [lia|]. rewrite Em. discriminate. }
  exists size, out, c'. split; [exact E|]. split; [|exact zeros_not_big_source].
  destruct (HeaderWritten_bytes _ _ _ Hw) as (stored & Ha & Hb).
  rewrite Em in *.
  assert (getSizeCodedSize (2 ^ 32 + 9) = 4) as E4 by reflexivity.
  rewrite E4 in *. specialize (Hb eq_refl).
  change (getHeaderSize (2 ^ 32 + 9)) with 9 in Hsize.
  rewrite len_zeros in Lo by discriminate.
  assert (to_uint32 (to_uint (len big_source)) = 0) as Eu by (rewrite Ls; reflexivity).
  rewrite Eu in Hb.
  apply (Decompress_writes_nothing d _ _ stored (to_uint32 (to_uint size))).
  apply decodeHeader_class4.
  - rewrite len_firstn_min. lia.
  - rewrite index_firstn by lia. exact Ha.
  - intros k Hk. rewrite !index_firstn by lia. now apply Hb.
  - change (2 ^ 32) with 4294967296. lia.
  - unfold to_uint32. apply Z.mod_pos_bound. reflexivity.
Qed.

(** C1: the round trip fails.  A [Decompressor] is only ever the zero
    value, since nothing calls [initialize]: on the compressed block of
    forty equal bytes [Decompress] then panics at the first literal run.
    With the tables initialised, a source of 4 GiB is compressed into a
    block whose header says 0 bytes, and [Decompress] writes nothing. *)
Theorem roundtrip_fails :
  (outcome (Compress Compressor_zero (repeat 65 40) (zeros (GetMaxCompressedSize 40)) 0)
   = Some (RESULT_OK, 23,
           [0; 40; 23; 2; 0; 0; 128; 65; 227; 1; 0; 65; 65; 65; 65; 65; 65; 65; 65;
            0; 0; 0; 0] ++ zeros 26) /\
   Decompress Decompressor_zero
     [0; 40; 23; 2; 0; 0; 128; 65; 227; 1; 0; 65; 65; 65; 65; 65; 65; 65; 65;
      0; 0; 0; 0] (zeros 40) = None) /\
  (forall d,
   exists size out c',
     Compress Compressor_zero big_source
       (zeros (GetMaxCompressedSize (len big_source))) 0
       = Some (RESULT_OK, size, out, c') /\
     (Decompress (Decompressor_initialize d) (firstn (Z.to_nat size) out)
        (zeros (len big_source)) = None \/
      exists r,
        Decompress (Decompressor_initialize d) (firstn (Z.to_nat size) out)
          (zeros (len big_source)) = Some (r, zeros (len big_source))) /\
     zeros (len big_source) <> big_source).
Proof.
  split.
  - split; vm_compute; reflexivity.
  - exact four_GiB_not_restored.
Qed.

(** With the tables initialised the same block of forty bytes is restored. *)
Example forty_bytes_restored :
  Decompress (Decompressor_initialize Decompressor_zero)
    [0; 40; 23; 2; 0; 0; 128; 65; 227; 1; 0; 65; 65; 65; 65; 65; 65; 65; 65;
     0; 0; 0; 0] (zeros 40) = Some (RESULT_OK, repeat 65 40).
Proof. vm_compute. reflexivity. Qed.

(** A source too short to gain anything is stored, and the call still
    returns RESULT_OK. *)
Example three_bytes_stored :
  outcome (Compress Compressor_zero [1; 2; 3] (zeros 12) 0)
  = Some (RESULT_OK, 6, [128; 3; 6; 1; 2; 3; 0; 0; 0; 0; 0; 0]).
Proof. vm_compute. reflexivity. Qed.

(* ------------------------------------------------------------------ *)
(** * Words and headers written and read back *)

Lemma le_value_map (v : Z) (n : nat) :
  forall s : nat,
    le_value (map (fun k => (v / 2 ^ (8 * Z.of_nat k)) mod 256) (seq s n))
    = (v / 2 ^ (8 * Z.of_nat s)) mod 2 ^ (8 * Z.of_nat n).
Proof.
  induction n as [|n IH]; intros s.
  - cbn [seq map le_value]. change (2 ^ (8 * Z.of_nat 0)) with 1.
    now rewrite Z.mod_1_r.
  - cbn [seq map le_value]. rewrite IH.
    replace (8 * Z.of_nat (S n)) with (8 + 8 * Z.of_nat n) by lia.
    rewrite Z.pow_add_r by lia. change (2 ^ 8) with 256.
    assert (0 < 2 ^ (8 * Z.of_nat n)) by (apply Z.pow_pos_nonneg; lia).
    assert (0 < 2 ^ (8 * Z.of_nat s)) by (apply Z.pow_pos_nonneg; lia).
    rewrite Z.rem_mul_r by lia.
    replace (8 * Z.of_nat (S s)) with (8 * Z.of_nat s + 8) by lia.
    rewrite Z.pow_add_r by lia. change (2 ^ 8) with 256.
    rewrite <- Z.div_div by lia. reflexivity.
Qed.

Lemma le_value_le_bytes (n : nat) (v : Z) :
  le_value (le_bytes n v) = v mod 2 ^ (8 * Z.of_nat n).
Proof.
  unfold le_bytes. rewrite le_value_map. change (2 ^ (8 * Z.of_nat 0)) with 1.
  now rewrite Z.div_1_r.
Qed.

Lemma length_le_bytes (n : nat) (v : Z) : length (le_bytes n v) = n.
Proof. unfold le_bytes. now rewrite length_map, length_seq. Qed.

(** Reading [n] bytes where the bytes of [v] stand. *)
Lemma le_read_written (n : nat) (b : list Z) (off v : Z) :
  0 <= off -> off + Z.of_nat n <= len b ->
  (forall k, 0 <= k < Z.of_nat n -> index b (off + k) = index (le_bytes n v) k) ->
  le_read n b off = Some (v mod 2 ^ (8 * Z.of_nat n)).
Proof.
  intros Ho Hl Hb.
  rewrite <- le_value_le_bytes, <- (length_le_bytes n v) at 1.
  apply le_read_bytes; [assumption|rewrite len_le_bytes; lia|].
  intros k Hk. rewrite length_le_bytes in Hk. rewrite Hb by lia.
  unfold index. destruct (Z.ltb_spec (Z.of_nat k) 0); [lia|].
  now rewrite Nat2Z.id.
Qed.

Lemma list_eq_index {A : Type} (a b : list A) :
  len a = len b -> (forall j, 0 <= j < len a -> index a j = index b j) -> a = b.
Proof.
  intros Hl Hi. apply nth_error_ext. intros n.
  destruct (Nat.lt_ge_cases n (length a)) as [Hn|Hn].
  - specialize (Hi (Z.of_nat n)). unfold index, len in *.
    destruct (Z.ltb_spec (Z.of_nat n) 0); [lia|]. rewrite Nat2Z.id in Hi.
    apply Hi. lia.
  - rewrite (proj2 (nth_error_None a n)) by assumption.
    symmetry. apply nth_error_None. unfold len in Hl. lia.
Qed.

(* ------------------------------------------------------------------ *)
(** * common.go: FastWrite and FastRead *)


Lemma blit_read (n : nat) (buf buf' : list Z) (off v : Z) :
  blit buf off (le_bytes n v) = Some buf' ->
  le_read n buf' off = Some (v mod 2 ^ (8 * Z.of_nat n)).
Proof.
  intros E. destruct (blit_len _ _ _ _ E) as (L & Ho & Hl). rewrite len_le_bytes in Hl.
  apply le_read_written; [lia|lia|].
  intros k Hk. rewrite (index_blit _ _ _ _ _ E), len_le_bytes.
  destruct (Z.leb_spec off (off + k)); [|lia].
  destruct (Z.ltb_spec (off + k) (off + Z.of_nat n)); [|lia].
  cbn [andb]. f_equal. lia.
Qed.

Lemma blit_outside (buf buf' : list Z) (off : Z) (bs : list Z) (j : Z) :
  blit buf off bs = Some buf' -> j < off \/ off + len bs <= j ->
  index buf' j = index buf j.
Proof.
  intros E Hj. rewrite (index_blit _ _ _ _ _ E).
  destruct (Z.leb_spec off j); [|reflexivity].
  destruct (Z.ltb_spec j (off + len bs)); [lia|reflexivity].
Qed.

(** What a [FastWrite] that has its slice stores, and what it keeps. *)
Lemma FastWrite_stores (buf : list Z) (off w s : Z) :
  1 <= s <= 4 -> 0 <= off -> off + bytesTaken s <= len buf ->
  exists buf',
    FastWrite buf off w s = Some buf' /\
    len buf' = len buf /\
    FastRead buf' off s = Some (w mod 2 ^ (8 * bytesStored s)) /\
    forall j, j < off \/ off + bytesStored s <= j -> index buf' j = index buf j.
Proof.
  intros Hs Ho Hr. unfold FastWrite, FastRead, bytesTaken, bytesStored in *.
  assert (s = 1 \/ s = 2 \/ s = 3 \/ s = 4) as [-> | [-> | [-> | ->]]] by lia;
    cbn [Z.eqb Pos.eqb] in *.
  - destruct (assign_Some buf off (to_byte w)) as (b' & E & L); [lia|].
    exists b'. rewrite E. repeat split; [assumption| |].
    + rewrite (index_assign _ _ _ _ _ E), Z.eqb_refl. reflexivity.
    + intros j Hj. rewrite (index_assign _ _ _ _ _ E).
      destruct (Z.eqb_spec j off); [lia|reflexivity].
  - destruct (Z.leb_spec 0 off); [|lia].
    destruct (Z.leb_spec (off + 4) (len buf)); [|lia]. cbn [andb].
    destruct (blit_Some buf off (le_bytes 2 (to_uint16 w))) as (b' & E & L);
      [lia|rewrite len_le_bytes; lia|].
    exists b'. rewrite E. repeat split; [assumption| |].
    + rewrite (blit_read _ _ _ _ _ E). unfold to_uint16.
      change (8 * Z.of_nat 2) with 16. change (8 * 2) with 16.
      now rewrite Z.mod_mod by (change (2 ^ 16) with 65536; lia).
    + intros j Hj. apply (blit_outside _ _ _ _ _ E). rewrite len_le_bytes. lia.
  - destruct (blit_Some buf off (le_bytes 4 (to_uint32 w))) as (b' & E & L);
      [lia|rewrite len_le_bytes; lia|].
    exists b'. rewrite E. repeat split; [assumption| |].
    + rewrite (blit_read _ _ _ _ _ E). unfold to_uint32.
      change (8 * Z.of_nat 4) with 32. change (8 * 4) with 32.
      now rewrite Z.mod_mod by (change (2 ^ 32) with 4294967296; lia).
    + intros j Hj. apply (blit_outside _ _ _ _ _ E). rewrite len_le_bytes. lia.
  - destruct (blit_Some buf off (le_bytes 4 (to_uint32 w))) as (b' & E & L);
      [lia|rewrite len_le_bytes; lia|].
    exists b'. rewrite E. repeat split; [assumption| |].
    + rewrite (blit_read _ _ _ _ _ E). unfold to_uint32.
      change (8 * Z.of_nat 4) with 32. change (8 * 4) with 32.
      now rewrite Z.mod_mod by (change (2 ^ 32) with 4294967296; lia).
    + intros j Hj. apply (blit_outside _ _ _ _ _ E). rewrite len_le_bytes. lia.
Qed.



(* ------------------------------------------------------------------ *)
(** * The header written and read back *)

Lemma attributes_byte (v k : Z) (stored : bool) :
  0 <= v <= 7 -> k = 1 \/ k = 2 \/ k = 4 ->
  to_byte (if stored
           then Z.lor (Z.lor (to_uint v) (shl (k - 1) 3)) 128
           else Z.lor (to_uint v) (shl (k - 1) 3))
  = attributes v k stored.
Proof.
  intros Hv Hk.
  assert (v = 0 \/ v = 1 \/ v = 2 \/ v = 3 \/ v = 4 \/ v = 5 \/ v = 6 \/ v = 7)
    as [-> | [-> | [-> | [-> | [-> | [-> | [-> | ->]]]]]]] by lia;
    destruct Hk as [-> | [-> | ->]]; destruct stored; reflexivity.
Qed.

Lemma attributes_fields (v k : Z) (stored : bool) :
  0 <= v <= 7 -> k = 1 \/ k = 2 \/ k = 4 ->
  sizeClass (attributes v k stored) = k /\
  Z.land (attributes v k stored) 7 = v /\
  negb (Z.land (attributes v k stored) 128 =? 0) = stored.
Proof.
  intros Hv Hk.
  assert (v = 0 \/ v = 1 \/ v = 2 \/ v = 3 \/ v = 4 \/ v = 5 \/ v = 6 \/ v = 7)
    as [-> | [-> | [-> | [-> | [-> | [-> | [-> | ->]]]]]]] by lia;
    destruct Hk as [-> | [-> | ->]]; destruct stored; repeat split; reflexivity.
Qed.

Lemma getSizeCodedSize_124 (n : Z) :
  getSizeCodedSize n = 1 \/ getSizeCodedSize n = 2 \/ getSizeCodedSize n = 4.
Proof. destruct (getSizeCodedSize_cases n) as [[_ E]|[[_ E]|[_ E]]]; auto. Qed.

Lemma index_le_bytes (n : nat) (v i : Z) :
  0 <= i < Z.of_nat n ->
  index (le_bytes n v) i = Some ((v / 2 ^ (8 * i)) mod 256).
Proof.
  intros Hi. unfold index, le_bytes. destruct (Z.ltb_spec i 0); [lia|].
  rewrite nth_error_map, nth_error_seq.
  destruct (Nat.ltb_spec (Z.to_nat i) n); [|lia].
  cbn [option_map Nat.add]. now rewrite Z2Nat.id by lia.
Qed.

(** The bytes [encodeHeader] leaves: the attribute byte and the two sizes,
    each on [sizeCodedSize] bytes; the rest of the buffer is kept. *)
Lemma encodeHeader_bytes (h : Header) (maxCompressedSize : Z) (dst : list Z) :
  0 <= Version h <= 7 ->
  getHeaderSize maxCompressedSize <= len dst ->
  exists out,
    encodeHeader h maxCompressedSize dst = Some out /\
    len out = len dst /\
    index out 0 =
      Some (attributes (Version h) (getSizeCodedSize maxCompressedSize) (IsStored h)) /\
    (forall j, getHeaderSize maxCompressedSize <= j -> index out j = index dst j) /\
    (forall i, 0 <= i < getSizeCodedSize maxCompressedSize ->
       index out (1 + i) = Some ((UncompressedSize h / 2 ^ (8 * i)) mod 256) /\
       index out (1 + getSizeCodedSize maxCompressedSize + i)
         = Some ((CompressedSize h / 2 ^ (8 * i)) mod 256)).
Proof.
  intros Hv Hlen. unfold getHeaderSize in *. unfold encodeHeader.
  pose proof (attributes_byte (Version h) (getSizeCodedSize maxCompressedSize)
                (IsStored h) Hv (getSizeCodedSize_124 _)) as Ha.
  destruct (getSizeCodedSize_cases maxCompressedSize) as [[_ E]|[[_ E]| [_ E]]];
    rewrite E in *; clear E.
  - change (to_uint 1) with 1. cbn [Z.eqb Pos.eqb]. rewrite Ha.
    destruct (assign_Some dst 0 (attributes (Version h) 1 (IsStored h)))
      as (d1 & E1 & L1); [lia|].
    rewrite E1.
    destruct (assign_Some d1 (1 + 0) (to_byte (UncompressedSize h)))
      as (d2 & E2 & L2); [lia|].
    rewrite E2.
    destruct (assign_Some d2 (1 + 1) (to_byte (CompressedSize h)))
      as (d3 & E3 & L3); [lia|].
    rewrite E3. exists d3. split; [reflexivity|]. split; [lia|]. split; [|split].
    + rewrite (index_assign _ _ _ 0 _ E3), (index_assign _ _ _ 0 _ E2),
        (index_assign _ _ _ 0 _ E1). reflexivity.
    + intros j Hj. rewrite (index_assign _ _ _ j _ E3), (index_assign _ _ _ j _ E2),
        (index_assign _ _ _ j _ E1).
      destruct (Z.eqb_spec j (1 + 1)); [lia|]. destruct (Z.eqb_spec j (1 + 0)); [lia|].
      destruct (Z.eqb_spec j 0); [lia|]. reflexivity.
    + intros i Hi. assert (i = 0) as -> by lia.
      change (2 ^ (8 * 0)) with 1. rewrite !Z.div_1_r. split.
      * rewrite (index_assign _ _ _ _ _ E3), (index_assign _ _ _ _ _ E2). reflexivity.
      * rewrite (index_assign _ _ _ _ _ E3). reflexivity.
  - change (to_uint 2) with 2. cbn [Z.eqb Pos.eqb]. rewrite Ha.
    destruct (assign_Some dst 0 (attributes (Version h) 2 (IsStored h)))
      as (d1 & E1 & L1); [lia|].
    rewrite E1.
    destruct (blit_Some d1 1 (le_bytes 2 (to_uint16 (UncompressedSize h))))
      as (d2 & E2 & L2); [lia|rewrite len_le_bytes; lia|].
    rewrite E2.
    destruct (blit_Some d2 (1 + 2) (le_bytes 2 (to_uint16 (CompressedSize h))))
      as (d3 & E3 & L3); [lia|rewrite len_le_bytes; lia|].
    rewrite E3. exists d3. split; [reflexivity|]. split; [lia|]. split; [|split].
    + rewrite (blit_blit_index _ _ _ _ _ _ _ 0 E2 E3), !len_le_bytes.
      cbn [Z.leb Z.compare andb Z.ltb Z.add Z.of_nat Pos.of_succ_nat Pos.succ Pos.add].
      rewrite (index_assign _ _ _ 0 _ E1). reflexivity.
    + intros j Hj. rewrite (blit_blit_index _ _ _ _ _ _ _ j E2 E3), !len_le_bytes.
      destruct (Z.ltb_spec j (1 + 2 + Z.of_nat 2)); [lia|]. rewrite andb_false_r.
      destruct (Z.ltb_spec j (1 + Z.of_nat 2)); [lia|]. rewrite andb_false_r.
      rewrite (index_assign _ _ _ j _ E1). destruct (Z.eqb_spec j 0); [lia|reflexivity].
    + intros i Hi. split.
      * rewrite (blit_blit_index _ _ _ _ _ _ _ _ E2 E3), !len_le_bytes.
        destruct (Z.leb_spec (1 + 2) (1 + i)); [lia|]. cbn [andb].
        destruct (Z.leb_spec 1 (1 + i)); [|lia].
        destruct (Z.ltb_spec (1 + i) (1 + Z.of_nat 2)); [|lia]. cbn [andb].
        replace (1 + i - 1) with i by lia. rewrite index_le_bytes by lia.
        f_equal. unfold to_uint16.
        assert (i = 0 \/ i = 1) as [-> | ->] by lia;
          [change (2 ^ (8 * 0)) with 1|change (2 ^ (8 * 1)) with 256];
          change (2 ^ 16) with 65536; Z.div_mod_to_equations; lia.
      * rewrite (blit_blit_index _ _ _ _ _ _ _ _ E2 E3), !len_le_bytes.
        destruct (Z.leb_spec (1 + 2) (1 + 2 + i)); [|lia].
        destruct (Z.ltb_spec (1 + 2 + i) (1 + 2 + Z.of_nat 2)); [|lia]. cbn [andb].
        replace (1 + 2 + i - (1 + 2)) with i by lia. rewrite index_le_bytes by lia.
        f_equal. unfold to_uint16.
        assert (i = 0 \/ i = 1) as [-> | ->] by lia;
          [change (2 ^ (8 * 0)) with 1|change (2 ^ (8 * 1)) with 256];
          change (2 ^ 16) with 65536; Z.div_mod_to_equations; lia.
  - change (to_uint 4) with 4. cbn [Z.eqb Pos.eqb]. rewrite Ha.
    destruct (assign_Some dst 0 (attributes (Version h) 4 (IsStored h)))
      as (d1 & E1 & L1); [lia|].
    rewrite E1.
    destruct (blit_Some d1 1 (le_bytes 4 (to_uint32 (UncompressedSize h))))
      as (d2 & E2 & L2); [lia|rewrite len_le_bytes; lia|].
    rewrite E2.
    destruct (blit_Some d2 (1 + 4) (le_bytes 4 (to_uint32 (CompressedSize h))))
      as (d3 & E3 & L3); [lia|rewrite len_le_bytes; lia|].
    rewrite E3. exists d3. split; [reflexivity|]. split; [lia|]. split; [|split].
    + rewrite (blit_blit_index _ _ _ _ _ _ _ 0 E2 E3), !len_le_bytes.
      cbn [Z.leb Z.compare andb Z.ltb Z.add Z.of_nat Pos.of_succ_nat Pos.succ Pos.add].
      rewrite (index_assign _ _ _ 0 _ E1). reflexivity.
    + intros j Hj. rewrite (blit_blit_index _ _ _ _ _ _ _ j E2 E3), !len_le_bytes.
      destruct (Z.ltb_spec j (1 + 4 + Z.of_nat 4)); [lia|]. rewrite andb_false_r.
      destruct (Z.ltb_spec j (1 + Z.of_nat 4)); [lia|]. rewrite andb_false_r.
      rewrite (index_assign _ _ _ j _ E1). destruct (Z.eqb_spec j 0); [lia|reflexivity].
    + intros i Hi. split.
      * rewrite (blit_blit_index _ _ _ _ _ _ _ _ E2 E3), !len_le_bytes.
        destruct (Z.leb_spec (1 + 4) (1 + i)); [lia|]. cbn [andb].
        destruct (Z.leb_spec 1 (1 + i)); [|lia].
        destruct (Z.ltb_spec (1 + i) (1 + Z.of_nat 4)); [|lia]. cbn [andb].
        replace (1 + i - 1) with i by lia. rewrite index_le_bytes by lia.
        f_equal. unfold to_uint32.
        assert (i = 0 \/ i = 1 \/ i = 2 \/ i = 3) as [-> | [-> | [-> | ->]]] by lia;
          [change (2 ^ (8 * 0)) with 1|change (2 ^ (8 * 1)) with 256
          |change (2 ^ (8 * 2)) with 65536|change (2 ^ (8 * 3)) with 16777216];
          change (2 ^ 32) with 4294967296; Z.div_mod_to_equations; lia.
      * rewrite (blit_blit_index _ _ _ _ _ _ _ _ E2 E3), !len_le_bytes.
        destruct (Z.leb_spec (1 + 4) (1 + 4 + i)); [|lia].
        destruct (Z.ltb_spec (1 + 4 + i) (1 + 4 + Z.of_nat 4)); [|lia]. cbn [andb].
        replace (1 + 4 + i - (1 + 4)) with i by lia. rewrite index_le_bytes by lia.
        f_equal. unfold to_uint32.
        assert (i = 0 \/ i = 1 \/ i = 2 \/ i = 3) as [-> | [-> | [-> | ->]]] by lia;
          [change (2 ^ (8 * 0)) with 1|change (2 ^ (8 * 1)) with 256
          |change (2 ^ (8 * 2)) with 65536|change (2 ^ (8 * 3)) with 16777216];
          change (2 ^ 32) with 4294967296; Z.div_mod_to_equations; lia.
Qed.

(** [decodeHeader] on a source that starts with the bytes of a header. *)
Lemma decodeHeader_bytes (src : list Z) (v k : Z) (stored : bool) (u c : Z) :
  0 <= v <= 7 -> k = 1 \/ k = 2 \/ k = 4 ->
  1 + 2 * k < len src ->
  index src 0 = Some (attributes v k stored) ->
  (forall i, 0 <= i < k ->
     index src (1 + i) = Some ((u / 2 ^ (8 * i)) mod 256) /\
     index src (1 + k + i) = Some ((c / 2 ^ (8 * i)) mod 256)) ->
  0 <= u < 2 ^ (8 * k) -> 0 <= c < 2 ^ (8 * k) ->
  decodeHeader src = Some (RESULT_OK, mkHeader u c v stored, 1 + 2 * k).
Proof.
  intros Hv Hk Hlen Ha Hb Hu Hc. unfold decodeHeader.
  destruct (Z.ltb_spec (len src) 1); [lia|]. rewrite Ha.
  rewrite len_tail by lia.
  destruct (attributes_fields v k stored Hv Hk) as (F1 & F2 & F3).
  unfold sizeClass in F1. rewrite F1, F2, F3.
  destruct (Z.ltb_spec (len src - 1) (1 + 2 * k)); [lia|].
  cbn [UncompressedSize CompressedSize Version IsStored Header_zero].
  assert (R : forall n : nat, Z.of_nat n = k -> forall o w,
            (o = 0 \/ o = k) -> 0 <= w < 2 ^ (8 * k) ->
            (forall i, 0 <= i < k ->
               index src (1 + o + i) = Some ((w / 2 ^ (8 * i)) mod 256)) ->
            le_read n (skipn 1 src) o = Some w).
  { intros n Hn o w Ho Hw Hi.
    rewrite (le_read_written n (skipn 1 src) o w).
    - rewrite Hn. now rewrite Z.mod_small by lia.
    - lia.
    - rewrite len_tail by lia. lia.
    - intros i Hi'. rewrite index_skipn by lia.
      change (Z.of_nat 1) with 1. rewrite Z.add_assoc, Hi by lia.
      now rewrite index_le_bytes by lia. }
  destruct Hk as [-> | [-> | ->]]; cbn [Z.eqb Pos.eqb].
  - destruct (Hb 0 ltac:(lia)) as [B1 B2].
    rewrite !index_skipn by lia. change (Z.of_nat 1 + 0) with (1 + 0).
    change (Z.of_nat 1 + 1) with (1 + 1 + 0). rewrite B1, B2.
    change (2 ^ (8 * 0)) with 1. rewrite !Z.div_1_r.
    change (2 ^ (8 * 1)) with 256 in *. rewrite !Z.mod_small by lia. reflexivity.
  - rewrite (R 2%nat eq_refl 0 u), (R 2%nat eq_refl 2 c); try assumption;
      try lia; try reflexivity.
    + intros i Hi. apply (Hb i Hi).
    + intros i Hi. replace (1 + 0 + i) with (1 + i) by lia. apply (Hb i Hi).
  - rewrite (R 4%nat eq_refl 0 u), (R 4%nat eq_refl 4 c); try assumption;
      try lia; try reflexivity.
    + intros i Hi. apply (Hb i Hi).
    + intros i Hi. replace (1 + 0 + i) with (1 + i) by lia. apply (Hb i Hi).
Qed.

Lemma size_fits (n maxCompressedSize : Z) :
  0 <= n <= maxCompressedSize -> maxCompressedSize < 2 ^ 32 ->
  0 <= n < 2 ^ (8 * getSizeCodedSize maxCompressedSize).
Proof.
  intros Hn Hm. change (2 ^ 32) with 4294967296 in Hm.
  destruct (getSizeCodedSize_cases maxCompressedSize) as [[H E]|[[H E]|[H E]]];
    rewrite E;
    [change (2 ^ (8 * 1)) with 256|change (2 ^ (8 * 2)) with 65536
    |change (2 ^ (8 * 4)) with 4294967296]; lia.
Qed.

(** X2: a header whose version is in 0..7 and whose two sizes are at most
    [maxCompressedSize], itself below 2^32, is read back by [decodeHeader]
    as it was given to [encodeHeader], with the header size
    [getHeaderSize maxCompressedSize], from any buffer longer than the
    header. *)
Theorem decodeHeader_encodeHeader (h : Header) (maxCompressedSize : Z) (dst : list Z) :
  0 <= Version h <= 7 ->
  0 <= UncompressedSize h <= maxCompressedSize ->
  0 <= CompressedSize h <= maxCompressedSize ->
  maxCompressedSize < 2 ^ 32 ->
  getHeaderSize maxCompressedSize < len dst ->
  exists out,
    encodeHeader h maxCompressedSize dst = Some out /\
    len out = len dst /\
    decodeHeader out = Some (RESULT_OK, h, getHeaderSize maxCompressedSize).
Proof.
  intros Hv Hu Hc Hm Hlen.
  destruct (encodeHeader_bytes h maxCompressedSize dst Hv ltac:(lia))
    as (out & E & L & A & _ & B).
  exists out. split; [assumption|]. split; [assumption|].
  unfold getHeaderSize in *.
  rewrite (decodeHeader_bytes out (Version h) (getSizeCodedSize maxCompressedSize)
             (IsStored h) (UncompressedSize h) (CompressedSize h));
    try assumption.
  - now destruct h.
  - apply getSizeCodedSize_124.
  - lia.
  - now apply size_fits.
  - now apply size_fits.
Qed.

Lemma decodeHeader_encodeHeader_witness :
  exists out,
    encodeHeader (mkHeader 70000 300 5 true) 70009 (zeros 12) = Some out /\
    len out = len (zeros 12) /\
    decodeHeader out = Some (RESULT_OK, mkHeader 70000 300 5 true, getHeaderSize 70009).
Proof.
  apply (decodeHeader_encodeHeader (mkHeader 70000 300 5 true) 70009 (zeros 12));
    vm_compute; try split; try discriminate; reflexivity.
Defined.

(** X3: a source of at most three bytes, the empty one included, is too
    small for any header: [Decompress] and [GetCompressionInfo] return
    BufferTooSmall whatever the bytes are, and the destination is left as
    it was. *)
Theorem short_source_is_too_small (d : Decompressor) (source destination : list Z) :
  len source <= 3 ->
  Decompress d source destination = Some (RESULT_ERROR_BUFFER_TOO_SMALL, destination) /\
  GetCompressionInfo d source = Some (RESULT_ERROR_BUFFER_TOO_SMALL, Info.zero).
Proof.
  intros Hl. unfold Decompress, GetCompressionInfo.
  destruct (Z.ltb_spec (len source) 1) as [H0|H0].
  - rewrite decodeHeader_empty by assumption. split; reflexivity.
  - destruct (index_Some source 0 ltac:(lia)) as (a & Ea).
    pose proof (sizeClass_range a).
    rewrite (decodeHeader_too_small source a Ea) by lia. split; reflexivity.
Qed.

Lemma short_source_is_too_small_witness :
  Decompress Decompressor_zero [128; 1; 4] [7]
    = Some (RESULT_ERROR_BUFFER_TOO_SMALL, [7]) /\
  GetCompressionInfo Decompressor_zero [128; 1; 4]
    = Some (RESULT_ERROR_BUFFER_TOO_SMALL, Info.zero).
Proof.
  apply (short_source_is_too_small Decompressor_zero [128; 1; 4] [7]).
  vm_compute. discriminate.
Defined.

(* ------------------------------------------------------------------ *)
(** * decodeMatch on any four bytes *)

Lemma FastRead_word (source : list Z) (off : Z) :
  bytes_ok source -> 0 <= off -> off + 4 <= len source ->
  exists r, FastRead source off 4 = Some r /\ 0 <= r < 2 ^ 32.
Proof.
  intros Hb Ho Hl.
  destruct (index_Some source off ltac:(lia)) as (b0 & E0).
  destruct (index_Some source (off + 1) ltac:(lia)) as (b1 & E1).
  destruct (index_Some source (off + 2) ltac:(lia)) as (b2 & E2).
  destruct (index_Some source (off + 3) ltac:(lia)) as (b3 & E3).
  pose proof (bytes_ok_index _ _ _ Hb E0). pose proof (bytes_ok_index _ _ _ Hb E1).
  pose proof (bytes_ok_index _ _ _ Hb E2). pose proof (bytes_ok_index _ _ _ Hb E3).
  eexists. split.
  - unfold FastRead. cbn [Z.eqb Pos.eqb]. apply (le_read4 _ _ _ _ _ _ E0 E1 E2 E3).
  - change (2 ^ 32) with 4294967296. lia.
Qed.

(** The bounds of what [decodeMatch] returns. *)
Lemma decodeMatch_bounds (d : Decompressor) (source : list Z) (off : Z) :
  bytes_ok source -> 0 <= off -> off + 4 <= len source ->
  exists m sz,
    decodeMatch (Decompressor_initialize d) source off = Some (m, sz) /\
    MIN_MATCH_LENGTH <= Length m <= MAX_MATCH_LENGTH /\
    0 <= Offset m < DICTIONARY_SIZE /\
    1 <= sz <= 4.
Proof.
  intros Hb Ho Hl.
  destruct (FastRead_word source off Hb Ho Hl) as (r & Er & Hr).
  assert (Hi : 0 <= r mod 8 < 8) by (apply Z.mod_pos_bound; lia).
  pose proof (lut_entry d (r mod 8)) as Hlut.
  rewrite DICTIONARY_SIZE_eq. unfold MAX_MATCH_LENGTH, MIN_MATCH_LENGTH.
  change (2 ^ 32) with 4294967296 in Hr.
  assert (r mod 8 = 0 \/ r mod 8 = 1 \/ r mod 8 = 2 \/ r mod 8 = 3 \/
          r mod 8 = 4 \/ r mod 8 = 5 \/ r mod 8 = 6 \/ r mod 8 = 7)
    as [E | [E | [E | [E | [E | [E | [E | E]]]]]]] by lia;
    rewrite E in Hlut; cbn [Z.eqb Pos.eqb] in Hlut;
    rewrite (decodeMatch_row d source off r _ _ Er E Hlut);
    do 2 eexists; (split; [reflexivity|]);
    cbn [Length Offset lengthShift lengthMask mask offsetShift size];
    bits_to_arith; pow_consts; (split; [|split]); try lia;
    Z.div_mod_to_equations; lia.
Qed.

(** X4: with the lookup table of [initialize], [decodeMatch] returns from
    any four bytes, and what it returns is a length between
    MIN_MATCH_LENGTH and MAX_MATCH_LENGTH, an offset from 0 to
    DICTIONARY_SIZE - 1 and a code size from 1 to 4. *)
Theorem decodeMatch_in_range (d : Decompressor) (source : list Z) (off : Z) :
  bytes_ok source -> 0 <= off -> off + 4 <= len source ->
  exists m sz,
    decodeMatch (Decompressor_initialize d) source off = Some (m, sz) /\
    MIN_MATCH_LENGTH <= Length m <= MAX_MATCH_LENGTH /\
    0 <= Offset m < DICTIONARY_SIZE /\
    1 <= sz <= 4.
Proof. apply decodeMatch_bounds. Qed.

Lemma decodeMatch_in_range_witness :
  exists m sz,
    decodeMatch (Decompressor_initialize Decompressor_zero) [255; 255; 255; 255] 0
      = Some (m, sz) /\
    MIN_MATCH_LENGTH <= Length m <= MAX_MATCH_LENGTH /\
    0 <= Offset m < DICTIONARY_SIZE /\
    1 <= sz <= 4.
Proof.
  apply (decodeMatch_in_range Decompressor_zero [255; 255; 255; 255] 0).
  - repeat constructor; unfold byte_ok; lia.
  - lia.
  - vm_compute. discriminate.
Defined.

(* ------------------------------------------------------------------ *)
(** * Stored blocks *)

Lemma to_uint_small (z : Z) : 0 <= z < 2 ^ 64 -> to_uint z = z.
Proof. intros H. unfold to_uint. now apply Z.mod_small. Qed.

Lemma copy_slices_all (dst : list Z) (lo : Z) (src : list Z) :
  0 <= lo -> lo + len src <= len dst ->
  copy_slices dst lo (len dst) src 0 = blit dst lo src.
Proof.
  intros Hlo Hl. unfold copy_slices. pose proof (len_nonneg src).
  destruct (Z.leb_spec 0 lo); [|lia]. destruct (Z.leb_spec lo (len dst)); [|lia].
  rewrite Z.leb_refl. destruct (Z.leb_spec 0 (len src)); [|lia]. cbn [andb Z.leb].
  cbn [Z.to_nat skipn]. rewrite firstn_all2; [reflexivity|]. unfold len in *. lia.
Qed.

(** The block [store] leaves: the header, then the source. *)
Lemma store_bytes (source buf : list Z) :
  GetMaxCompressedSize (len source) <= len buf ->
  let hs := getHeaderSize (GetMaxCompressedSize (len source)) in
  exists hb out,
    encodeHeader
      (mkHeader (to_uint (len source)) (to_uint (hs + len source)) VERSION true)
      (GetMaxCompressedSize (len source)) buf = Some hb /\
    store source buf = Some (RESULT_OK, hs + len source, out) /\
    len out = len buf /\
    (forall j, j < hs -> index out j = index hb j) /\
    (forall j, 0 <= j < len source -> index out (hs + j) = index source j) /\
    (forall j, hs + len source <= j -> index out j = index buf j).
Proof.
  intros Hroom hs. pose proof (getHeaderSize_range (GetMaxCompressedSize (len source))).
  rewrite GetMaxCompressedSize_eq in Hroom. pose proof (len_nonneg source).
  destruct (encodeHeader_bytes
              (mkHeader (to_uint (len source)) (to_uint (hs + len source)) VERSION true)
              (GetMaxCompressedSize (len source)) buf)
    as (hb & E & L & _ & K & _); [cbn; unfold VERSION; lia|fold hs; lia|].
  destruct (blit_Some hb hs source) as (out & Eo & Lo); [lia|fold hs; lia|].
  exists hb, out. split; [exact E|]. unfold store. fold hs. rewrite E.
  cbn [Z.add]. rewrite copy_slices_all by lia. rewrite Eo.
  split; [reflexivity|]. split; [lia|]. split; [|split].
  - intros j Hj. apply (blit_outside _ _ _ _ _ Eo). lia.
  - intros j Hj. rewrite (index_blit _ _ _ _ _ Eo).
    destruct (Z.leb_spec hs (hs + j)); [|lia].
    destruct (Z.ltb_spec (hs + j) (hs + len source)); [|lia]. cbn [andb].
    f_equal. lia.
  - intros j Hj. rewrite (blit_outside _ _ _ _ _ Eo) by lia. apply K. fold hs. lia.
Qed.

Lemma blit_front (dst bs : list Z) :
  len bs <= len dst -> blit dst 0 bs = Some (bs ++ skipn (length bs) dst).
Proof.
  intros H. unfold blit. pose proof (len_nonneg bs).
  destruct (Z.leb_spec (0 + len bs) (len dst)); [|lia]. reflexivity.
Qed.

(** [Decompress] on a block that is a header with the stored flag followed
    by the bytes [data]: no table of the decompressor is used. *)
Lemma Decompress_stored (d : Decompressor) (block dst data : list Z) (hs c : Z) :
  decodeHeader block = Some (RESULT_OK, mkHeader (len data) c 0 true, hs) ->
  c <= len block -> len data <= len dst ->
  0 <= hs <= len block -> skipn (Z.to_nat hs) block = data ->
  Decompress d block dst = Some (RESULT_OK, data ++ skipn (length data) dst).
Proof.
  intros E Hc Hd Hhs Hdata. unfold Decompress. rewrite E.
  cbn [Result_eqb negb UncompressedSize CompressedSize Version IsStored Z.add].
  change (0 =? VERSION) with true. cbn [negb].
  destruct (Z.ltb_spec (len block) c); [lia|].
  destruct (Z.ltb_spec (len dst) (len data)); [lia|]. cbn [orb].
  unfold copy_slices. pose proof (len_nonneg data).
  rewrite Z.leb_refl. destruct (Z.leb_spec 0 (len data)); [|lia].
  destruct (Z.leb_spec (len data) (len dst)); [|lia].
  destruct (Z.leb_spec 0 hs); [|lia]. destruct (Z.leb_spec hs (len block)); [|lia].
  cbn [andb]. rewrite Hdata, Z.sub_0_r.
  rewrite firstn_all2 by (unfold len; lia). now rewrite blit_front.
Qed.

(** X5: the block [store] writes for a source of 1 to 2^32 - 10 bytes is
    read back by [Decompress] with any decompressor, the zero value
    included: the result is RESULT_OK and the destination starts with the
    source. *)
Theorem store_then_Decompress (d : Decompressor) (source buf dst : list Z) :
  1 <= len source -> len source + 9 < 2 ^ 32 ->
  GetMaxCompressedSize (len source) <= len buf ->
  len source <= len dst ->
  exists size out,
    store source buf = Some (RESULT_OK, size, out) /\
    size = getHeaderSize (GetMaxCompressedSize (len source)) + len source /\
    Decompress d (firstn (Z.to_nat size) out) dst
      = Some (RESULT_OK, source ++ skipn (length source) dst).
Proof.
  intros H1 H32 Hroom Hdst.
  destruct (store_bytes source buf Hroom) as (hb & out & Eh & Es & Lo & Kh & Ks & _).
  set (hs := getHeaderSize (GetMaxCompressedSize (len source))) in *.
  pose proof (getHeaderSize_range (GetMaxCompressedSize (len source))) as Hhs.
  fold hs in Hhs. rewrite GetMaxCompressedSize_eq in Hroom.
  change (2 ^ 32) with 4294967296 in H32.
  exists (hs + len source), out. split; [exact Es|]. split; [reflexivity|].
  set (block := firstn (Z.to_nat (hs + len source)) out).
  assert (Lb : len block = hs + len source).
  { unfold block. rewrite len_firstn_min. lia. }
  assert (Ib : forall j, j < hs + len source -> index block j = index out j).
  { intros j Hj. apply index_firstn. lia. }
  rewrite (to_uint_small (len source)) in Eh
    by (change (2 ^ 64) with 18446744073709551616; lia).
  rewrite (to_uint_small (hs + len source)) in Eh
    by (change (2 ^ 64) with 18446744073709551616; clearbody hs; lia).
  destruct (encodeHeader_bytes (mkHeader (len source) (hs + len source) VERSION true)
              (GetMaxCompressedSize (len source)) buf
              ltac:(cbn; unfold VERSION; lia) ltac:(fold hs; lia))
    as (hb' & Eh' & _ & A & _ & B).
  rewrite Eh in Eh'. injection Eh' as <-.
  cbn [Version IsStored UncompressedSize CompressedSize] in A, B.
  apply (Decompress_stored d block dst source hs (hs + len source)).
  - unfold hs, getHeaderSize.
    apply (decodeHeader_bytes block VERSION
             (getSizeCodedSize (GetMaxCompressedSize (len source))) true).
    + unfold VERSION. lia.
    + apply getSizeCodedSize_124.
    + unfold hs, getHeaderSize in *. lia.
    + rewrite Ib, Kh by lia. exact A.
    + intros i Hi. unfold hs, getHeaderSize in *.
      rewrite !Ib, !Kh by lia. apply (B i Hi).
    + apply size_fits; rewrite GetMaxCompressedSize_eq;
        change (2 ^ 32) with 4294967296; lia.
    + pose proof (getSizeCodedSize_124 (GetMaxCompressedSize (len source))).
      apply size_fits; rewrite GetMaxCompressedSize_eq in *;
        change (2 ^ 32) with 4294967296; lia.
  - lia.
  - assumption.
  - lia.
  - apply list_eq_index.
    + rewrite len_skipn. lia.
    + intros j Hj. rewrite len_skipn in Hj. rewrite index_skipn by lia.
      rewrite Z2Nat.id by lia. rewrite Ib by lia. apply Ks. lia.
Qed.

Lemma store_then_Decompress_witness :
  exists size out,
    store [1; 2; 3] (zeros 12) = Some (RESULT_OK, size, out) /\
    size = getHeaderSize (GetMaxCompressedSize (len [1; 2; 3])) + len [1; 2; 3] /\
    Decompress Decompressor_zero (firstn (Z.to_nat size) out) [9; 9; 9; 9]
      = Some (RESULT_OK, [1; 2; 3] ++ skipn (length [1; 2; 3]) [9; 9; 9; 9]).
Proof.
  apply (store_then_Decompress Decompressor_zero [1; 2; 3] (zeros 12) [9; 9; 9; 9]);
    vm_compute; try reflexivity; discriminate.
Defined.

(* ------------------------------------------------------------------ *)
(** * The header of a compressed block *)

(** The header [decodeHeader] finds at the head of what [Compress] or
    [store] wrote, in any buffer [block] that starts with those bytes. *)
Lemma HeaderWritten_decoded (source out block : list Z) (size : Z) :
  HeaderWritten source out size ->
  1 <= len source -> len source + 9 < 2 ^ 32 ->
  0 <= size <= GetMaxCompressedSize (len source) ->
  getHeaderSize (GetMaxCompressedSize (len source)) < len block ->
  (forall j, j < getHeaderSize (GetMaxCompressedSize (len source)) ->
     index block j = index out j) ->
  exists stored,
    decodeHeader block =
      Some (RESULT_OK, mkHeader (len source) size 0 stored,
            getHeaderSize (GetMaxCompressedSize (len source))).
Proof.
  intros (stored & buf & hb & E & L & K) H1 H32 Hs Hb Hi.
  change (2 ^ 32) with 4294967296 in H32.
  pose proof (encodeHeader_room _ _ _ _ _ _ E) as Hroom.
  rewrite GetMaxCompressedSize_eq in Hs.
  rewrite (to_uint_small (len source)), (to_uint_small size) in E
    by (change (2 ^ 64) with 18446744073709551616; lia).
  destruct (encodeHeader_bytes (mkHeader (len source) size VERSION stored)
              (GetMaxCompressedSize (len source)) buf
              ltac:(cbn; unfold VERSION; lia) Hroom)
    as (hb' & E' & _ & A & _ & B).
  rewrite E in E'. injection E' as <-.
  cbn [Version IsStored UncompressedSize CompressedSize] in A, B.
  exists stored. unfold getHeaderSize in *.
  pose proof (getSizeCodedSize_124 (GetMaxCompressedSize (len source))).
  apply (decodeHeader_bytes block VERSION
           (getSizeCodedSize (GetMaxCompressedSize (len source))) stored).
  - unfold VERSION. lia.
  - assumption.
  - lia.
  - rewrite Hi, K by lia. exact A.
  - intros i Hi'. rewrite !Hi, !K by lia. apply (B i Hi').
  - apply size_fits; rewrite GetMaxCompressedSize_eq;
      change (2 ^ 32) with 4294967296; lia.
  - apply size_fits; rewrite GetMaxCompressedSize_eq;
      change (2 ^ 32) with 4294967296; lia.
Qed.

(** X6: when [Compress] succeeds on a source of 1 to 2^32 - 10 bytes, the
    size it reports is at most [GetMaxCompressedSize(len(source))], and
    [GetCompressionInfo] on the block reports the length of the source,
    that size and version 0. *)
Theorem GetCompressionInfo_after_Compress
  (c : Compressor) (d : Decompressor) (source destination : list Z) (compressedSize : Z) :
  Usable (dict c) ->
  1 <= len source -> len source + 9 < 2 ^ 32 ->
  GetMaxCompressedSize (len source) <= len destination ->
  exists size out c',
    Compress c source destination compressedSize = Some (RESULT_OK, size, out, c') /\
    size <= GetMaxCompressedSize (len source) /\
    GetCompressionInfo d (firstn (Z.to_nat size) out)
      = Some (RESULT_OK, Info.mk (len source) size 0).
Proof.
  intros Hu H1 H32 Hroom.
  destruct (Compress_spec c source destination compressedSize Hu H1 Hroom)
    as (size & out & c' & E & _ & L & Hs & Hw).
  exists size, out, c'. split; [exact E|]. split; [lia|].
  pose proof (getHeaderSize_range (GetMaxCompressedSize (len source))).
  destruct (HeaderWritten_decoded source out (firstn (Z.to_nat size) out) size Hw H1 H32)
    as (stored & Ed).
  - lia.
  - rewrite len_firstn_min. lia.
  - intros j Hj. apply index_firstn. lia.
  - unfold GetCompressionInfo. rewrite Ed. reflexivity.
Qed.

Lemma GetCompressionInfo_after_Compress_witness :
  exists size out c',
    Compress Compressor_zero [1; 2; 3] (zeros 12) 0 = Some (RESULT_OK, size, out, c') /\
    size <= GetMaxCompressedSize (len [1; 2; 3]) /\
    GetCompressionInfo Decompressor_zero (firstn (Z.to_nat size) out)
      = Some (RESULT_OK, Info.mk (len [1; 2; 3]) size 0).
Proof.
  apply (GetCompressionInfo_after_Compress Compressor_zero Decompressor_zero
           [1; 2; 3] (zeros 12) 0).
  - left. reflexivity.
  - vm_compute. discriminate.
  - reflexivity.
  - vm_compute. discriminate.
Defined.

(* ------------------------------------------------------------------ *)
(** * The position of the dictionary *)

(** X7: after [SetBuffer] on a dictionary that is new or was used before,
    any sequence of [FindMatches] and [Skip] calls returns (no panic) and
    [Position] is the number of calls made, also once the position has
    passed the end of the buffer; the buffer is the one given. *)
Theorem Position_counts_calls (d0 : Dictionary) (b : list Z) (cs : list Call) :
  Usable d0 -> Forall roomy cs ->
  exists d1 d2,
    SetBuffer d0 b = Some d1 /\ calls d1 cs = Some d2 /\
    Position d2 = len cs /\ buffer d2 = b.
Proof.
  intros Hu Hr.
  destruct (SetBuffer_spec d0 b Hu) as (d1 & E1 & I1 & P1 & _ & B1 & _).
  destruct (calls_spec cs d1 I1 Hr) as (d2 & E2 & _ & P2 & B2 & _).
  exists d1, d2. split; [exact E1|]. split; [exact E2|].
  unfold Position. split; [lia|congruence].
Qed.

Lemma Position_counts_calls_witness :
  exists d1 d2,
    SetBuffer Dictionary_zero [1; 2; 3] = Some d1 /\
    calls d1 [CallSkip; CallFindMatches (repeat (mkMatch 0 0) 128); CallSkip; CallSkip;
              CallSkip] = Some d2 /\
    Position d2 = len [CallSkip; CallFindMatches (repeat (mkMatch 0 0) 128); CallSkip;
                       CallSkip; CallSkip] /\
    buffer d2 = [1; 2; 3].
Proof.
  apply (Position_counts_calls Dictionary_zero [1; 2; 3]).
  - left. reflexivity.
  - repeat constructor. vm_compute. discriminate.
Defined.

(* ------------------------------------------------------------------ *)
(** * Decompress returns on every source *)

Lemma FastRead4_Some (b : list Z) (off : Z) :
  0 <= off -> off + 4 <= len b -> exists w, FastRead b off WORD_SIZE = Some w.
Proof.
  intros Ho Hl. unfold FastRead, WORD_SIZE. cbn [Z.eqb Pos.eqb].
  apply le_read_Some; [assumption|]. change (Z.of_nat 4) with 4. lia.
Qed.

Lemma FastWrite4 (out : list Z) (off w : Z) :
  0 <= off -> off + 4 <= len out ->
  exists out',
    FastWrite out off w WORD_SIZE = Some out' /\ len out' = len out /\
    forall j, j < off \/ off + 4 <= j -> index out' j = index out j.
Proof.
  intros Ho Hl.
  destruct (FastWrite_stores out off w 4 ltac:(lia) Ho Hl) as (o & E & L & _ & K).
  exists o. split; [exact E|]. split; [exact L|]. exact K.
Qed.

Lemma FastWrite1 (out : list Z) (off w : Z) :
  0 <= off < len out ->
  exists out',
    FastWrite out off w 1 = Some out' /\ len out' = len out /\
    forall j, j <> off -> index out' j = index out j.
Proof.
  intros Ho.
  destruct (FastWrite_stores out off w 1 ltac:(lia) ltac:(lia)
              ltac:(change (bytesTaken 1) with 1; lia)) as (o & E & L & _ & K).
  exists o. split; [exact E|]. split; [exact L|].
  intros j Hj. apply K. change (bytesStored 1) with 1. lia.
Qed.

(** The run length the table gives for a control word whose bit 0 is
    clear. *)
Lemma run_length (d : Decompressor) (cw : Z) :
  Z.land cw 1 = 0 ->
  exists r,
    index (literalRunLengthTable (Decompressor_initialize d)) (Z.land cw 15) = Some r /\
    1 <= r <= 4.
Proof.
  intros H.
  assert (Hn : 0 <= Z.land cw 15 < 16).
  { change 15 with (Z.ones 4). rewrite Z.land_ones by lia.
    apply Z.mod_pos_bound. reflexivity. }
  assert (He : Z.land (Z.land cw 15) 1 = 0).
  { rewrite <- Z.land_assoc. exact H. }
  remember (Z.to_nat (Z.land cw 15)) as k eqn:Ek.
  assert (Hk : (k < 16)%nat) by lia.
  rewrite <- (Z2Nat.id (Z.land cw 15)) in He |- * by lia. rewrite <- Ek in *.
  clear Ek Hn H.
  do 16 (destruct k as [|k];
         [try (vm_compute in He; discriminate He);
          eexists; (split; [reflexivity|lia])|]).
  lia.
Qed.

Section Returns.
Variables (input dst0 : list Z) (inputEnd outputEnd : Z).
Hypothesis Hinput : bytes_ok input.
Hypothesis HinputEnd : inputEnd <= len input.

Lemma tailLiterals_returns :
  forall (fuel : nat) (ii oi cw : Z) (out : list Z),
    0 <= ii -> 0 <= oi -> outputEnd <= len out -> kept dst0 outputEnd out ->
    outputEnd - oi <= Z.of_nat fuel ->
    exists r out',
      tailLiterals fuel input inputEnd outputEnd ii oi cw out = Some (r, out') /\
      kept dst0 outputEnd out'.
Proof.
  induction fuel as [|fuel IH]; intros ii oi cw out Hii Hoi Hend Hk Hf;
    cbn [tailLiterals]; destruct (Z.ltb_spec oi outputEnd) as [Hlt|Hge];
    try lia; try (now exists RESULT_OK, out).
  destruct (ii + WORD_SIZE + 1 >? inputEnd) eqn:G;
    [now exists RESULT_ERROR_CORRUPTED_DATA, out|].
  apply gtb_false in G. unfold WORD_SIZE in G.
  assert (Hrest : forall cw1 ii1, ii <= ii1 -> ii1 + 1 <= inputEnd ->
            exists r out',
              (b <- index input ii1;;
               outputBuffer <- assign out oi b;;
               tailLiterals fuel input inputEnd outputEnd (ii1 + 1) (oi + 1)
                 (Z.shiftr cw1 1) outputBuffer) = Some (r, out') /\ kept dst0 outputEnd out').
  { intros cw1 ii1 H1 H2.
    destruct (index_Some input ii1 ltac:(lia)) as (b & Eb). rewrite Eb.
    destruct (assign_Some out oi b ltac:(lia)) as (o & Eo & Lo). rewrite Eo.
    apply IH; try lia.
    destruct Hk as [K1 K2]. split; [lia|].
    intros j Hj. rewrite (index_assign _ _ _ _ _ Eo).
    destruct (Z.eqb_spec j oi); [lia|]. now apply K2. }
  destruct (cw =? 1).
  - destruct (FastRead4_Some input ii ltac:(lia) ltac:(lia)) as (w & Ew).
    rewrite Ew. apply Hrest; unfold WORD_SIZE; lia.
  - apply Hrest; lia.
Qed.

Lemma copyFirstBytes_returns :
  forall (fuel : nat) (out : list Z) (oi ms i : Z),
    0 <= i -> 0 <= ms -> ms <= oi -> oi + 3 <= outputEnd -> outputEnd <= len out ->
    kept dst0 outputEnd out -> 3 - i <= Z.of_nat fuel ->
    exists out',
      copyFirstBytes fuel out oi ms i = Some (out', Z.max i 3) /\ kept dst0 outputEnd out'.
Proof.
  induction fuel as [|fuel IH]; intros out oi ms i Hi Hms Hle Ho Hend Hk Hf;
    cbn [copyFirstBytes]; destruct (Z.ltb_spec i 3) as [Hlt|Hge]; try lia;
    try (exists out; split; [f_equal; f_equal; lia|assumption]).
  unfold FastRead; cbn [Z.eqb Pos.eqb].
  destruct (index_Some out (ms + i) ltac:(lia)) as (w & Ew). rewrite Ew.
  destruct (FastWrite1 out (oi + i) w ltac:(lia)) as (o & Eo & Lo & Ko). rewrite Eo.
  destruct (IH o oi ms (i + 1)) as (o' & E' & K'); try lia.
  - destruct Hk as [K1 K2]. split; [lia|].
    intros j Hj. rewrite Ko by lia. now apply K2.
  - exists o'. split; [|assumption]. rewrite E'. f_equal. f_equal. lia.
Qed.

Lemma copyWords_returns (oi ms length : Z) :
  ms <= oi -> oi + length + 4 <= outputEnd ->
  forall (fuel : nat) (out : list Z) (i : Z),
    0 <= i -> 0 <= ms + i -> i <= length -> outputEnd <= len out -> kept dst0 outputEnd out ->
    1 <= Z.of_nat fuel -> length - i <= Z.of_nat fuel ->
    exists out', copyWords fuel out oi ms i length = Some out' /\ kept dst0 outputEnd out'.
Proof.
  intros Hle Hroom.
  induction fuel as [|fuel IH]; intros out i Hi Hms Hil Hend Hk Hf1 Hf; [lia|].
  cbn [copyWords].
  destruct (FastRead4_Some out (ms + i) ltac:(lia) ltac:(lia)) as (w & Ew). rewrite Ew.
  destruct (FastWrite4 out (oi + i) w ltac:(lia) ltac:(lia)) as (o & Eo & Lo & Ko).
  rewrite Eo.
  assert (Hk' : kept dst0 outputEnd o).
  { destruct Hk as [K1 K2]. split; [lia|].
    intros j Hj. rewrite Ko by lia. now apply K2. }
  unfold WORD_SIZE. destruct (Z.ltb_spec (i + 4) length).
  - apply IH; try lia. assumption.
  - now exists o.
Qed.

Lemma decodeLoop_returns (d : Decompressor) :
  0 <= outputEnd ->
  forall (fuel : nat) (ii oi cw : Z) (out : list Z),
    0 <= ii -> 0 <= oi -> outputEnd <= len out -> kept dst0 outputEnd out ->
    1 <= Z.of_nat fuel -> inputEnd - ii - 6 <= Z.of_nat fuel ->
    exists r out',
      decodeLoop fuel (Decompressor_initialize d) input inputEnd outputEnd
        (if outputEnd >? TAIL_LENGTH then outputEnd - TAIL_LENGTH else 0)
        ii oi cw out = Some (r, out') /\
      kept dst0 outputEnd out'.
Proof.
  intros Hoe.
  set (tail := if outputEnd >? TAIL_LENGTH then outputEnd - TAIL_LENGTH else 0).
  assert (Htail : 0 <= tail /\ (0 < tail -> tail = outputEnd - 8)).
  { subst tail. destruct (outputEnd >? TAIL_LENGTH) eqn:G.
    - apply gtb_true in G. unfold TAIL_LENGTH, WORD_SIZE in *. lia.
    - lia. }
  clearbody tail.
  induction fuel as [|fuel IH]; intros ii oi cw out Hii Hoi Hend Hk Hf1 Hf; [lia|].
  cbn [decodeLoop].
  destruct (ii + 2 * WORD_SIZE >? inputEnd) eqn:G;
    [now exists RESULT_ERROR_CORRUPTED_DATA, out|].
  apply gtb_false in G. unfold WORD_SIZE in G.
  assert (Hrest : forall cw1 ii1, ii <= ii1 -> ii1 + 4 <= inputEnd ->
    exists r out',
      (if Z.land cw1 1 =? 0 then
         if oi <? tail then
           w <- FastRead input ii1 WORD_SIZE;;
           outputBuffer <- FastWrite out oi w WORD_SIZE;;
           runLength <- index (literalRunLengthTable (Decompressor_initialize d))
                          (Z.land cw1 15);;
           decodeLoop fuel (Decompressor_initialize d) input inputEnd outputEnd tail
             (ii1 + runLength) (oi + runLength) (Z.shiftr cw1 runLength) outputBuffer
         else
           tailLiterals (Z.to_nat (outputEnd - oi)) input inputEnd outputEnd ii1 oi cw1 out
       else
         '(m, matchSize) <- decodeMatch (Decompressor_initialize d) input ii1;;
         let inputIterator := ii1 + matchSize in
         let matchString := oi - Offset m in
         if (matchString <? 0) || (oi + Length m >? tail) then
           Some (RESULT_ERROR_CORRUPTED_DATA, out)
         else
           let i := 0 in
           '(outputBuffer, i, matchString) <-
             (if Offset m <? WORD_SIZE then
                '(outputBuffer, i) <- copyFirstBytes 3 out oi matchString i;;
                Some (outputBuffer, i, matchString - (2 + Z.land (Offset m) 1))
              else Some (out, i, matchString));;
           outputBuffer <-
             copyWords (Z.to_nat (Length m)) outputBuffer oi matchString i (Length m);;
           decodeLoop fuel (Decompressor_initialize d) input inputEnd outputEnd tail
             inputIterator (oi + Length m) (Z.shiftr cw1 1) outputBuffer)
      = Some (r, out') /\ kept dst0 outputEnd out').
  { intros cw1 ii1 H1 H2.
    destruct (Z.eqb_spec (Z.land cw1 1) 0) as [Hbit|Hbit].
    - destruct (Z.ltb_spec oi tail) as [Hot|Hot].
      + destruct (FastRead4_Some input ii1 ltac:(lia) ltac:(lia)) as (w & Ew).
        rewrite Ew.
        destruct (FastWrite4 out oi w ltac:(lia) ltac:(lia)) as (o & Eo & Lo & Ko).
        rewrite Eo.
        destruct (run_length d cw1 Hbit) as (r & Er & Hr). rewrite Er.
        apply IH; try lia.
        destruct Hk as [K1 K2]. split; [lia|].
        intros j Hj. rewrite Ko by lia. now apply K2.
      + apply tailLiterals_returns; try lia. assumption.
    - destruct (decodeMatch_bounds d input ii1 Hinput ltac:(lia) ltac:(lia))
        as (m & sz & Em & HL & HO & Hsz).
      rewrite Em. cbv zeta.
      unfold MIN_MATCH_LENGTH, MAX_MATCH_LENGTH in HL.
      destruct (Z.ltb_spec (oi - Offset m) 0) as [Hms|Hms];
        [now exists RESULT_ERROR_CORRUPTED_DATA, out|].
      destruct (oi + Length m >? tail) eqn:G2;
        [now exists RESULT_ERROR_CORRUPTED_DATA, out|].
      apply gtb_false in G2. cbn [orb].
      assert (Hoff1 : 0 <= Z.land (Offset m) 1 <= 1).
      { pose proof (Z.land_ones (Offset m) 1 ltac:(lia)) as Hl.
        change (Z.ones 1) with 1 in Hl. change (2 ^ 1) with 2 in Hl. rewrite Hl.
        pose proof (Z.mod_pos_bound (Offset m) 2). lia. }
      assert (Hcopy : forall o i ms,
                kept dst0 outputEnd o -> outputEnd <= len o -> (i = 0 \/ i = 3) ->
                0 <= ms + i -> ms <= oi ->
                exists r out',
                  (outputBuffer <-
                     copyWords (Z.to_nat (Length m)) o oi ms i (Length m);;
                   decodeLoop fuel (Decompressor_initialize d) input inputEnd
                     outputEnd tail (ii1 + sz) (oi + Length m) (Z.shiftr cw1 1)
                     outputBuffer) = Some (r, out') /\ kept dst0 outputEnd out').
      { intros o i ms Ko Lo Hi0 Hmsi Hmso.
        destruct (copyWords_returns oi ms (Length m) Hmso ltac:(lia)
                    (Z.to_nat (Length m)) o i) as (o' & E' & K'); try lia; try assumption.
        rewrite E'. apply IH; try lia; try assumption. destruct K' as [K1 _].
        destruct Ko as [K3 _]. lia. }
      destruct (Z.ltb_spec (Offset m) WORD_SIZE) as [Hsmall|Hbig].
      + destruct (copyFirstBytes_returns 3 out oi (oi - Offset m) 0)
          as (o & Eo & Ko); try lia; try assumption.
        rewrite Eo. change (Z.max 0 3) with 3.
        apply Hcopy; try lia; try assumption.
        destruct Ko as [K1 _]. destruct Hk as [K3 _]. lia.
      + apply Hcopy; try lia; assumption. }
  destruct (cw =? 1).
  - destruct (FastRead4_Some input ii ltac:(lia) ltac:(lia)) as (w & Ew).
    rewrite Ew. apply Hrest; unfold WORD_SIZE; lia.
  - apply Hrest; lia.
Qed.

End Returns.

Lemma Forall_firstn {A : Type} (P : A -> Prop) (n : nat) :
  forall l, Forall P l -> Forall P (firstn n l).
Proof.
  induction n as [|n IH]; intros [|x l] H; cbn [firstn]; try constructor.
  - now inversion H.
  - apply IH. now inversion H.
Qed.

Lemma Forall_skipn {A : Type} (P : A -> Prop) (n : nat) :
  forall l, Forall P l -> Forall P (skipn n l).
Proof.
  induction n as [|n IH]; intros [|x l] H; cbn [skipn]; try assumption.
  apply IH. now inversion H.
Qed.

Lemma le_value_nonneg (bs : list Z) : bytes_ok bs -> 0 <= le_value bs.
Proof.
  induction 1 as [|b bs Hb _ IH]; cbn [le_value]; [lia|]. unfold byte_ok in Hb. lia.
Qed.

Lemma le_read_nonneg (n : nat) (b : list Z) (off v : Z) :
  bytes_ok b -> le_read n b off = Some v -> 0 <= v.
Proof.
  intros Hb. unfold le_read. destruct (_ && _); [|discriminate].
  intros [= <-]. apply le_value_nonneg, Forall_firstn, Forall_skipn, Hb.
Qed.

(** What a header that [decodeHeader] accepts tells: sizes that are not
    negative, and a header size smaller than the source. *)
Lemma decodeHeader_accepts (source : list Z) (h : Header) (hs : Z) :
  bytes_ok source ->
  decodeHeader source = Some (RESULT_OK, h, hs) ->
  0 <= UncompressedSize h /\ 0 <= CompressedSize h /\ 3 <= hs < len source.
Proof.
  intros Hb. unfold decodeHeader.
  destruct (Z.ltb_spec (len source) 1); [discriminate|].
  destruct (index source 0) as [a|]; [|discriminate].
  pose proof (land7_range (Z.shiftr a 3)) as Hk.
  rewrite len_tail by lia.
  assert (Hb' : bytes_ok (skipn 1 source)) by now apply Forall_skipn.
  set (hsz := 1 + 2 * (Z.land (Z.shiftr a 3) 7 + 1)).
  assert (3 <= hsz) by (subst hsz; lia).
  destruct (Z.ltb_spec (len source - 1) hsz); [discriminate|]. clearbody hsz.
  cbn [UncompressedSize CompressedSize Version IsStored Header_zero].
  repeat match goal with
  | |- context [if ?b then _ else _] => destruct b
  end;
  repeat match goal with
  | |- context [index ?l ?i] =>
      let E := fresh "E" in
      destruct (index l i) eqn:E; [apply (bytes_ok_index _ _ _ Hb') in E|discriminate]
  | |- context [le_read ?n ?l ?i] =>
      let E := fresh "E" in
      destruct (le_read n l i) eqn:E; [apply (le_read_nonneg _ _ _ _ Hb') in E|discriminate]
  end;
  try discriminate; intros [= <- <-]; cbn [UncompressedSize CompressedSize]; lia.
Qed.

(** X8: with the tables set by [initialize], [Decompress] returns on every
    source and destination (no panic, whatever the bytes of the source
    are); the destination keeps its length, and its bytes from the
    UncompressedSize of the header on are left as they were. *)
Theorem Decompress_returns (d : Decompressor) (source destination : list Z) :
  bytes_ok source ->
  exists result out,
    Decompress (Decompressor_initialize d) source destination = Some (result, out) /\
    len out = len destination /\
    forall r h hs j,
      decodeHeader source = Some (r, h, hs) -> UncompressedSize h <= j ->
      index out j = index destination j.
Proof.
  intros Hb. unfold Decompress.
  destruct (decodeHeader_total source) as (r0 & h & hs & Eh). rewrite Eh.
  assert (Hsame : forall res : Result, exists result out,
            Some (res, destination) = Some (result, out) /\
            len out = len destination /\
            forall r h' hs' j,
              Some (r0, h, hs) = Some (r, h', hs') -> UncompressedSize h' <= j ->
              index out j = index destination j).
  { intros res. exists res, destination. repeat split. }
  destruct r0; cbn [Result_eqb negb]; try apply Hsame.
  destruct (decodeHeader_accepts source h hs Hb Eh) as (HU & HC & Hhs).
  destruct (Version h =? VERSION); cbn [negb]; [|apply Hsame].
  destruct (Z.ltb_spec (len source) (CompressedSize h)); [apply Hsame|].
  destruct (Z.ltb_spec (len destination) (UncompressedSize h)); [apply Hsame|].
  cbn [orb Z.add].
  assert (Hkept : forall (res : Result) (out : list Z),
            kept destination (UncompressedSize h) out ->
            exists result out',
              Some (res, out) = Some (result, out') /\
              len out' = len destination /\
              forall r h' hs' j,
                Some (RESULT_OK, h, hs) = Some (r, h', hs') -> UncompressedSize h' <= j ->
                index out' j = index destination j).
  { intros res out [K1 K2]. exists res, out. split; [reflexivity|]. split; [exact K1|].
    intros r h' hs' j [= <- <- <-]. apply K2. }
  destruct (IsStored h).
  - unfold copy_slices. rewrite Z.leb_refl.
    destruct (Z.leb_spec 0 (UncompressedSize h)); [|lia].
    destruct (Z.leb_spec (UncompressedSize h) (len destination)); [|lia].
    destruct (Z.leb_spec 0 hs); [|lia]. destruct (Z.leb_spec hs (len source)); [|lia].
    cbn [andb]. rewrite Z.sub_0_r.
    set (bs := firstn _ _).
    assert (Lbs : len bs <= UncompressedSize h).
    { subst bs. rewrite len_firstn_min. lia. }
    destruct (blit_Some destination 0 bs ltac:(lia) ltac:(lia)) as (o & Eo & Lo).
    rewrite Eo. apply Hkept. split; [exact Lo|].
    intros j Hj. apply (blit_outside _ _ _ _ _ Eo). lia.
  - destruct (decodeLoop_returns source destination (CompressedSize h)
                (UncompressedSize h) Hb ltac:(lia) d HU (S (length source))
                hs 0 1 destination) as (res & out & E & K); try lia.
    + split; [reflexivity|]. intros; reflexivity.
    + unfold len in *. lia.
    + rewrite E. now apply Hkept.
Qed.

Lemma Decompress_returns_witness :
  exists result out,
    Decompress (Decompressor_initialize Decompressor_zero)
      [0; 40; 23; 1; 0; 0; 0; 9; 9; 9; 9; 9; 9; 9; 9; 9; 9; 9; 9; 9; 9; 9; 9]
      (zeros 41) = Some (result, out) /\
    len out = len (zeros 41) /\
    forall r h hs j,
      decodeHeader [0; 40; 23; 1; 0; 0; 0; 9; 9; 9; 9; 9; 9; 9; 9; 9; 9; 9; 9; 9; 9; 9; 9]
        = Some (r, h, hs) ->
      UncompressedSize h <= j ->
      index out j = index (zeros 41) j.
Proof.
  apply (Decompress_returns Decompressor_zero
           [0; 40; 23; 1; 0; 0; 0; 9; 9; 9; 9; 9; 9; 9; 9; 9; 9; 9; 9; 9; 9; 9; 9]
           (zeros 41)).
  repeat constructor; unfold byte_ok; lia.
Defined.

(* ------------------------------------------------------------------ *)
(** * The order of the strings of the buffer *)

Lemma agree_sym (buf : list Z) (a b n : Z) : agree buf a b n -> agree buf b a n.
Proof. intros H i Hi. destruct (H i Hi) as (x & E1 & E2). now exists x. Qed.

Lemma agree_less (buf : list Z) (a b n n' : Z) :
  n' <= n -> agree buf a b n -> agree buf a b n'.
Proof. intros Hn H i Hi. apply H. lia. Qed.

Lemma agree_trans (buf : list Z) (a b c n : Z) :
  agree buf a b n -> agree buf b c n -> agree buf a c n.
Proof.
  intros H1 H2 i Hi. destruct (H1 i Hi) as (x & E1 & E2).
  destruct (H2 i Hi) as (y & E3 & E4). exists x. split; [assumption|]. congruence.
Qed.

Lemma agree_nil (buf : list Z) (a b n : Z) : n <= 0 -> agree buf a b n.
Proof. intros Hn i Hi. lia. Qed.

(** Two stretches that agree, one after the other. *)
Lemma agree_app (buf : list Z) (a b k n : Z) :
  0 <= k -> agree buf a b k -> agree buf (a + k) (b + k) (n - k) -> agree buf a b n.
Proof.
  intros Hk H1 H2 i Hi. destruct (Z.lt_ge_cases i k).
  - apply H1. lia.
  - destruct (H2 (i - k) ltac:(lia)) as (x & E1 & E2). exists x.
    replace (a + i) with (a + k + (i - k)) by lia.
    replace (b + i) with (b + k + (i - k)) by lia. now split.
Qed.

Lemma below_at_less (buf : list Z) (a b c n : Z) :
  agree buf a b (n + 1) -> below_at buf b c n -> 0 <= n -> below_at buf a c n.
Proof.
  intros Hab [Hbc (x & y & Ex & Ey & Hxy)] Hn. split.
  - apply (agree_trans buf a b c n); [|assumption]. apply (agree_less buf a b (n + 1)); [lia|assumption].
  - destruct (Hab n ltac:(lia)) as (z & E1 & E2). exists x, y. repeat split; congruence.
Qed.

Lemma below_at_more (buf : list Z) (a b c n : Z) :
  below_at buf a b n -> agree buf b c (n + 1) -> 0 <= n -> below_at buf a c n.
Proof.
  intros [Hab (x & y & Ex & Ey & Hxy)] Hbc Hn. split.
  - apply (agree_trans buf a b c n); [assumption|]. apply (agree_less buf b c (n + 1)); [lia|assumption].
  - destruct (Hbc n ltac:(lia)) as (z & E1 & E2). exists x, y. repeat split; congruence.
Qed.

Lemma below_at_trans (buf : list Z) (a b c n m : Z) :
  0 <= n -> 0 <= m -> below_at buf a b n -> below_at buf b c m ->
  below_at buf a c (Z.min n m).
Proof.
  intros Hn Hm Hab Hbc.
  destruct (Z.lt_trichotomy n m) as [H|[H|H]].
  - rewrite Z.min_l by lia. apply (below_at_more buf a b c n); [assumption| |assumption].
    apply (agree_less buf b c m); [lia|apply Hbc].
  - subst m. rewrite Z.min_id.
    destruct Hab as [Hab (x & y & Ex & Ey & Hxy)].
    destruct Hbc as [Hbc (y' & z & Ey' & Ez & Hyz)].
    split; [now apply (agree_trans buf a b c n)|].
    exists x, z. repeat split; try assumption. assert (y = y') by congruence. lia.
  - rewrite Z.min_r by lia. apply (below_at_less buf a b c m); [|assumption|assumption].
    apply (agree_less buf a b n); [lia|apply Hab].
Qed.

Lemma le_upto_trans (buf : list Z) (limit a b c : Z) :
  le_upto buf limit a b -> le_upto buf limit b c -> le_upto buf limit a c.
Proof.
  intros [H1|(n & Hn & H1)] [H2|(m & Hm & H2)].
  - left. now apply (agree_trans buf a b c).
  - right. exists m. split; [assumption|].
    apply (below_at_less buf a b c m); [|assumption|lia].
    apply (agree_less buf a b limit); [lia|assumption].
  - right. exists n. split; [assumption|].
    apply (below_at_more buf a b c n); [assumption| |lia].
    apply (agree_less buf b c limit); [lia|assumption].
  - right. exists (Z.min n m). split; [lia|].
    apply (below_at_trans buf a b c); try assumption; lia.
Qed.

Lemma le_upto_less (buf : list Z) (limit limit' a b : Z) :
  limit' <= limit -> le_upto buf limit a b -> le_upto buf limit' a b.
Proof.
  intros Hl [H|(n & Hn & H)].
  - left. now apply (agree_less buf a b limit).
  - destruct (Z.lt_ge_cases n limit').
    + right. exists n. split; [lia|assumption].
    + left. apply (agree_less buf a b n); [lia|apply H].
Qed.

(** A string cannot be below another one and not below it. *)
Lemma below_at_not_le (buf : list Z) (limit a b n : Z) :
  0 <= n < limit -> below_at buf a b n -> ~ le_upto buf limit b a.
Proof.
  intros Hn [Hab (x & y & Ex & Ey & Hxy)] [H|(m & Hm & [Hba (y' & x' & Ey' & Ex' & Hyx)])].
  - destruct (H n Hn) as (z & E1 & E2). assert (x = y) by congruence. lia.
  - destruct (Z.lt_trichotomy n m) as [L|[L|L]].
    + destruct (Hba n ltac:(lia)) as (z & E1 & E2). assert (x = y) by congruence. lia.
    + subst m. assert (x = x') by congruence. assert (y = y') by congruence. lia.
    + destruct (Hab m ltac:(lia)) as (z & E1 & E2). assert (x' = y') by congruence. lia.
Qed.

(** The strings between [l] and [h] share what [p], between them too,
    shares with both. *)
Lemma sandwich (buf : list Z) (limit l h p r lo hi : Z) :
  0 <= lo < limit -> 0 <= hi < limit ->
  below_at buf l p lo -> below_at buf p h hi ->
  le_upto buf limit l r -> le_upto buf limit r h ->
  agree buf p r (Z.min lo hi).
Proof.
  intros Hlo Hhi [Hlp (x1 & y1 & Ex1 & Ey1 & H1)] [Hph (x2 & y2 & Ex2 & Ey2 & H2)] Hlr Hrh.
  set (k := Z.min lo hi).
  assert (Kl : agree buf l p k) by (apply (agree_less buf l p lo); [lia|assumption]).
  assert (Kh : agree buf p h k) by (apply (agree_less buf p h hi); [lia|assumption]).
  destruct Hlr as [Hlr|(n & Hn & [Hlr (a1 & b1 & Ea1 & Eb1 & Hab1)])].
  { apply (agree_trans buf p l r k); [now apply agree_sym|].
    apply (agree_less buf l r limit); [lia|assumption]. }
  destruct (Z.le_gt_cases k n) as [Hkn|Hkn].
  { apply (agree_trans buf p l r k); [now apply agree_sym|].
    apply (agree_less buf l r n); [lia|assumption]. }
  destruct Hrh as [Hrh|(m & Hm & [Hrh (a2 & b2 & Ea2 & Eb2 & Hab2)])].
  { apply (agree_trans buf p h r k); [assumption|]. apply agree_sym.
    apply (agree_less buf r h limit); [lia|assumption]. }
  destruct (Z.le_gt_cases k m) as [Hkm|Hkm].
  { apply (agree_trans buf p h r k); [assumption|]. apply agree_sym.
    apply (agree_less buf r h m); [lia|assumption]. }
  exfalso.
  (* l and h agree on k bytes; r leaves l upwards at n and h downwards at m *)
  destruct (Kl n ltac:(lia)) as (u & U1 & U2). destruct (Kh n ltac:(lia)) as (u' & U3 & U4).
  destruct (Kl m ltac:(lia)) as (w & W1 & W2). destruct (Kh m ltac:(lia)) as (w' & W3 & W4).
  destruct (Z.lt_trichotomy n m) as [L|[L|L]].
  - destruct (Hrh n ltac:(lia)) as (z & Z1 & Z2).
    assert (b1 = z) by congruence. assert (a1 = u) by congruence.
    assert (u = u') by congruence. assert (z = u') by congruence. lia.
  - subst m. assert (a1 = u) by congruence. assert (u = u') by congruence.
    assert (b2 = u') by congruence. assert (b1 = a2) by congruence. lia.
  - destruct (Hlr m ltac:(lia)) as (z & Z1 & Z2).
    assert (a2 = z) by congruence. assert (b2 = w') by congruence.
    assert (w = w') by congruence. assert (z = w) by congruence. lia.
Qed.

(** What the loop that extends a match returns. *)
Lemma extendMatch_spec (buf : list Z) (a b maxMatchLength : Z) :
  forall (fuel : nat) (k l : Z),
    extendMatch fuel buf a b maxMatchLength k = Some l ->
    k <= maxMatchLength ->
    k <= l <= maxMatchLength /\
    agree buf (a + k) (b + k) (l - k) /\
    (l < maxMatchLength ->
     exists x y, index buf (a + l) = Some x /\ index buf (b + l) = Some y /\ x <> y).
Proof.
  induction fuel as [|fuel IH]; intros k l; cbn [extendMatch];
    destruct (Z.ltb_spec k maxMatchLength) as [Hlt|Hge].
  - destruct (index buf (a + k)) as [x|] eqn:Ex; [|discriminate].
    destruct (index buf (b + k)) as [y|] eqn:Ey; [|discriminate].
    destruct (Z.eqb_spec x y); [discriminate|]. intros [= <-] _.
    split; [lia|]. split; [apply agree_nil; lia|]. intros _. now exists x, y.
  - intros [= <-] Hk. split; [lia|]. split; [apply agree_nil; lia|]. lia.
  - destruct (index buf (a + k)) as [x|] eqn:Ex; [|discriminate].
    destruct (index buf (b + k)) as [y|] eqn:Ey; [|discriminate].
    destruct (Z.eqb_spec x y) as [->|Hxy].
    + intros E _. destruct (IH (k + 1) l E ltac:(lia)) as (R & A & D).
      split; [lia|]. split; [|exact D].
      intros i Hi. destruct (Z.eq_dec i 0) as [->|Hi0].
      * exists y. now rewrite !Z.add_0_r.
      * destruct (A (i - 1) ltac:(lia)) as (z & E1 & E2). exists z.
        replace (a + k + i) with (a + (k + 1) + (i - 1)) by lia.
        replace (b + k + i) with (b + (k + 1) + (i - 1)) by lia. now split.
    + intros [= <-] _.
      split; [lia|]. split; [apply agree_nil; lia|]. intros _. now exists x, y.
  - intros [= <-] Hk. split; [lia|]. split; [apply agree_nil; lia|]. lia.
Qed.

(* ------------------------------------------------------------------ *)
(** * The nodes below a node *)

Lemma Reach_bounds (c : Z -> Z) (ws a s v : Z) : Reach c ws a s v -> ws <= v < a.
Proof. induction 1; lia. Qed.

Lemma Reach_first (c : Z -> Z) (ws a s v : Z) :
  Reach c ws a s v -> ws <= c (slot a s) < a.
Proof. induction 1; assumption. Qed.

Lemma Reach_trans (c : Z -> Z) (ws a s b s' v : Z) :
  Reach c ws a s b -> side_ok s' -> Reach c ws b s' v -> Reach c ws a s v.
Proof.
  intros Hab Hs Hbv. induction Hbv as [Hedge|b0 s0 _ IH Hs0 Hedge].
  - now apply (reach_step c ws a s b s').
  - now apply (reach_step c ws a s b0 s0).
Qed.

Lemma Reach_mono_ws (c : Z -> Z) (ws ws' a s v : Z) :
  ws <= ws' -> Reach c ws' a s v -> Reach c ws a s v.
Proof.
  intros Hw. induction 1 as [Hedge|b0 s0 _ IH Hs0 Hedge].
  - apply reach_child. lia.
  - apply (reach_step c ws a s b0 s0); [assumption|assumption|lia].
Qed.

(** The nodes below [a] depend on the cells of [a] and of older nodes
    only. *)
Lemma Reach_ext (c c' : Z -> Z) (ws a s v : Z) :
  (forall b s', ws <= b <= a -> side_ok s' -> c' (slot b s') = c (slot b s')) ->
  side_ok s -> ws <= a ->
  Reach c ws a s v -> Reach c' ws a s v.
Proof.
  intros H Hs Ha. induction 1 as [Hedge|b0 s0 Hr IH Hs0 Hedge].
  - rewrite <- (H a s) by (trivial; lia). apply reach_child.
    rewrite (H a s) by (trivial; lia). assumption.
  - pose proof (Reach_bounds _ _ _ _ _ Hr).
    rewrite <- (H b0 s0) by (trivial; lia).
    apply (reach_step c' ws a s b0 s0); [assumption|assumption|].
    rewrite (H b0 s0) by (trivial; lia). assumption.
Qed.

Lemma Reach_same (c c' : Z -> Z) (ws a s v : Z) :
  (forall i, c' i = c i) -> Reach c ws a s v -> Reach c' ws a s v.
Proof.
  intros H. induction 1 as [Hedge|b0 s0 _ IH Hs0 Hedge].
  - rewrite <- H. apply reach_child. now rewrite H.
  - rewrite <- H. apply (reach_step c' ws a s b0 s0); trivial. now rewrite H.
Qed.

(** Cutting a link only takes nodes away. *)
Lemma Reach_cut (g : Z -> Z) (ws x a s v : Z) :
  0 <= ws -> Reach (update g x INVALID_POSITION) ws a s v -> Reach g ws a s v.
Proof.
  intros Hws. unfold INVALID_POSITION.
  assert (K : forall i, ws <= update g x (-1) i -> update g x (-1) i = g i).
  { intros i. unfold update. destruct (i =? x); [lia|reflexivity]. }
  induction 1 as [Hedge|b0 s0 _ IH Hs0 Hedge].
  - pose proof (K _ (proj1 Hedge)) as E. rewrite E in *. now apply reach_child.
  - pose proof (K _ (proj1 Hedge)) as E. rewrite E in *.
    now apply (reach_step g ws a s b0 s0).
Qed.

(** When every link of [g] goes to a node that [c0] has below the same
    child, [g] has nothing below a node that [c0] does not have. *)
Lemma Reach_sub (g c0 : Z -> Z) (ws p : Z) :
  (forall b s, ws <= b < p -> side_ok s -> ws <= g (slot b s) < b ->
     Reach c0 ws b s (g (slot b s))) ->
  forall a s v, ws <= a < p -> side_ok s -> Reach g ws a s v -> Reach c0 ws a s v.
Proof.
  intros H a s v Ha Hs. induction 1 as [Hedge|b0 s0 Hr IH Hs0 Hedge].
  - now apply H.
  - pose proof (Reach_bounds _ _ _ _ _ Hr).
    apply (Reach_trans c0 ws a s b0 s0); [assumption|assumption|].
    apply H; trivial; lia.
Qed.

(** The nodes below [a] once the link [so] of the node [o] is set to
    [val]: those that were there without the link, and, when [o] is [a]
    or below it, [val] and what is below [val]. *)
Lemma Reach_attach (g : Z -> Z) (p o so val a s v : Z) :
  windowStart p <= o <= p -> side_ok so ->
  windowStart p <= a <= p -> side_ok s ->
  Reach (update g (slot o so) val) (windowStart p) a s v ->
  Reach (update g (slot o so) INVALID_POSITION) (windowStart p) a s v \/
  (((a = o /\ s = so) \/
    Reach (update g (slot o so) INVALID_POSITION) (windowStart p) a s o) /\
   windowStart p <= val < o /\
   (v = val \/
    exists s', side_ok s' /\
      Reach (update g (slot o so) val) (windowStart p) val s' v)).
Proof.
  intros Ho Hso Ha Hs.
  set (x := slot o so). set (ws := windowStart p).
  assert (Kcut : forall i, i <> x ->
            update g x INVALID_POSITION i = update g x val i).
  { intros i Hi. now rewrite !update_other. }
  induction 1 as [Hedge|b0 s0 Hr IH Hs0 Hedge].
  - destruct (Z.eq_dec (slot a s) x) as [E|N].
    + destruct (slot_inj p a o s so Ha Ho Hs Hso E) as [-> ->].
      fold x in Hedge |- *. rewrite update_same in *.
      right. split; [left; now split|]. split; [assumption|]. now left.
    + left. rewrite <- (Kcut _ N). apply reach_child. now rewrite (Kcut _ N).
  - pose proof (Reach_bounds _ _ _ _ _ Hr) as Hb. fold ws in Hb.
    destruct IH as [IH|(Hpre & Hval & Hv)].
    + destruct (Z.eq_dec (slot b0 s0) x) as [E|N].
      * destruct (slot_inj p b0 o s0 so ltac:(fold ws; lia) Ho Hs0 Hso E) as [-> ->].
        fold x in Hedge |- *. rewrite update_same in *.
        right. split; [now right|]. split; [assumption|]. now left.
      * left. rewrite <- (Kcut _ N).
        apply (reach_step _ ws a s b0 s0); [assumption|assumption|].
        now rewrite (Kcut _ N).
    + right. split; [assumption|]. split; [assumption|]. right.
      destruct Hv as [->|(s' & Hs' & Hr')].
      * exists s0. split; [assumption|]. now apply reach_child.
      * exists s'. split; [assumption|].
        now apply (reach_step _ ws val s' b0 s0).
Qed.

Lemma Linked_same (c0 g g' : Z -> Z) (p : Z) :
  (forall i, g' i = g i) -> Linked c0 p g -> Linked c0 p g'.
Proof. intros H K b side Hb Hs. rewrite H. now apply K. Qed.

Lemma Linked_cut (c0 g : Z -> Z) (p x : Z) :
  Linked c0 p g -> Linked c0 p (update g x INVALID_POSITION).
Proof.
  intros K b side Hb Hs. unfold update, INVALID_POSITION.
  pose proof (windowStart_nonneg p).
  destruct (Z.eqb_spec (slot b side) x); [lia|]. now apply K.
Qed.

Lemma Linked_attach (c0 g : Z -> Z) (p o so val : Z) :
  Linked c0 p g ->
  windowStart p <= o <= p -> side_ok so ->
  (o < p -> windowStart p <= val < o -> Reach c0 (windowStart p) o so val) ->
  Linked c0 p (update g (slot o so) val).
Proof.
  intros K Ho Hso Hval b side Hb Hs. unfold update.
  destruct (Z.eqb_spec (slot b side) (slot o so)) as [E|N].
  - destruct (slot_inj p b o side so ltac:(lia) Ho Hs Hso E) as [-> ->].
    intros Hv. apply Hval; lia.
  - now apply K.
Qed.

(* ------------------------------------------------------------------ *)
(** * One turn of the search, with what it reads *)

Lemma SearchTurnD_turn (buf : list Z) (base position maxMatchLength : Z)
  (s : Search) (c : Z -> Z) (turn : Flow Search) :
  SearchTurnD buf base position maxMatchLength s c turn ->
  SearchTurn position maxMatchLength s c turn.
Proof.
  intros [H|cands count longest H1 H2 _ H3
          |ml cands count longest x y H1 H2 _ H3 _ _ _ H4
          |ml cands count longest x y H1 H2 _ H3 _ _ _ H4].
  - now apply turn_exhausted.
  - apply turn_splice; trivial; lia.
  - apply turn_right; trivial; rewrite ?min_spec; lia.
  - apply turn_left; trivial; rewrite ?min_spec; lia.
Qed.

Lemma searchStep_turnD (buffer : list Z) (bufferBase position maxMatchLength : Z)
  (s : Search) :
  0 <= bufferBase -> 0 <= position ->
  bufferBase + position + maxMatchLength <= len buffer ->
  MIN_MATCH_LENGTH <= maxMatchLength ->
  SearchInv position maxMatchLength s ->
  exists c turn,
    tree s = Slice CHILD_COUNT c /\
    searchStep buffer bufferBase position (windowStart position) maxMatchLength s
      = Some turn /\
    SearchTurnD buffer bufferBase position maxMatchLength s c turn.
Proof.
  intros Hbase Hpos Hbuf Hmax [Htree [Hcnt Hcount] Hroom (Hlow & Hhigh & Hlong)].
  destruct Htree as (c & aL & aR & Et & HaL & HaR & EL & ER & Hmp & Hc).
  pose proof (windowStart_nonneg position) as Hws.
  assert (0 <= leftSubtreeLeaf s < CHILD_COUNT) as RL.
  { rewrite EL. apply slot_range. unfold side_ok. destruct (aL =? position); lia. }
  assert (0 <= rightSubtreeLeaf s < CHILD_COUNT) as RR.
  { rewrite ER. apply slot_range. unfold side_ok. destruct (aR =? position); lia. }
  exists c. unfold searchStep. rewrite Et.
  destruct (Z.ltb_spec (matchPosition s) (windowStart position)) as [Hlt|Hge].
  { cbn [orb]. rewrite slice_set_in by assumption. rewrite slice_set_in by assumption.
    eexists. split; [reflexivity|]. split; [reflexivity|].
    apply turnD_exhausted. now left. }
  destruct (Z.eqb_spec (matchCount s) MAX_MATCH_CANDIDATE_COUNT) as [Hfull|Hnot].
  { cbn [orb]. rewrite slice_set_in by assumption. rewrite slice_set_in by assumption.
    eexists. split; [reflexivity|]. split; [reflexivity|].
    apply turnD_exhausted. now right. }
  cbn [orb]. cbv zeta.
  assert (0 <= matchPosition s < position) as Rmp.
  { destruct Hmp as [E|R]; [unfold INVALID_POSITION in E; lia|lia]. }
  rewrite min_spec.
  destruct (extendMatch_Some buffer (bufferBase + position)
              (bufferBase + matchPosition s) maxMatchLength
              (Z.to_nat (maxMatchLength - Z.min (lowMatchLength s) (highMatchLength s)))
              (Z.min (lowMatchLength s) (highMatchLength s)))
    as (l & El & Rl); try lia.
  rewrite El. cbv beta iota.
  destruct (extendMatch_spec _ _ _ _ _ _ _ El ltac:(lia)) as (_ & Hagree & Hdiff).
  set (longer := (l >? longestMatchLength s) && (l >=? MIN_MATCH_LENGTH)).
  assert (exists cands count longest,
    (if longer
     then match candidates s with
          | Some arr =>
              arr <- assign arr (matchCandidateCount s)
                       (mkMatch l (position - matchPosition s));;
              Some (Some arr, matchCandidateCount s + 1)
          | None => Some (None, matchCandidateCount s)
          end
     else Some (candidates s, matchCandidateCount s)) = Some (cands, count) /\
    (if longer then l else longestMatchLength s) = longest /\
    Recorded position s l cands count longest) as (cands & count & longest & Ec & Elg & Hrec).
  { destruct longer eqn:Elonger.
    - apply andb_prop in Elonger as [G1 G2].
      apply gtb_true in G1. apply geb_true in G2.
      destruct (candidates s) as [arr|] eqn:Ecs.
      + destruct (assign_Some arr (matchCandidateCount s)
                    (mkMatch l (position - matchPosition s))) as (arr' & Ea & La).
        { specialize (Hroom arr eq_refl). lia. }
        rewrite Ea. do 3 eexists. split; [reflexivity|]. split; [reflexivity|].
        eapply recorded_stored; eauto; lia.
      + do 3 eexists. split; [reflexivity|]. split; [reflexivity|].
        apply recorded_nil; trivial; lia.
    - do 3 eexists. split; [reflexivity|]. split; [reflexivity|].
      apply recorded_not. intros [G1 G2].
      apply andb_false_iff in Elonger as [F|F].
      + apply gtb_false in F. lia.
      + apply geb_false in F. lia. }
  rewrite Ec, Elg. cbv beta iota.
  assert (0 <= slot (matchPosition s) 0 < CHILD_COUNT) as S0
    by (apply slot_range; now left).
  assert (0 <= slot (matchPosition s) 1 < CHILD_COUNT) as S1
    by (apply slot_range; now right).
  pose proof (rem_slot (matchPosition s) 0 ltac:(lia)) as Q0. rewrite Z.add_0_r in Q0.
  pose proof (rem_slot (matchPosition s) 1 ltac:(lia)) as Q1.
  rewrite Q1, Q0.
  destruct (longer && (l =? maxMatchLength)) eqn:Ebreak.
  - apply andb_prop in Ebreak as [_ Emax]. apply Z.eqb_eq in Emax. subst l.
    rewrite slice_get_in by assumption. rewrite slice_set_in by assumption.
    rewrite slice_get_in by assumption. rewrite slice_set_in by assumption.
    eexists. split; [reflexivity|]. split; [reflexivity|].
    apply turnD_splice; trivial; lia.
  - assert (l < maxMatchLength) as Hl.
    { apply andb_false_iff in Ebreak as [F|F].
      - destruct (Z.eq_dec l maxMatchLength) as [->|]; [|lia].
        subst longer. apply andb_false_iff in F as [F|F].
        + apply gtb_false in F. lia.
        + apply geb_false in F. lia.
      - apply Z.eqb_neq in F. lia. }
    destruct (Hdiff Hl) as (x & y & Ex & Ey & Hxy).
    replace (bufferBase + position + l) with (bufferBase + position + l) by lia.
    rewrite Ex, Ey.
    destruct (Z.ltb_spec x y).
    + rewrite slice_set_in by assumption. rewrite slice_get_in by assumption.
      eexists. split; [reflexivity|]. split; [reflexivity|].
      apply (turnD_right _ _ _ _ _ _ l cands count longest x y); trivial; lia.
    + rewrite slice_set_in by assumption. rewrite slice_get_in by assumption.
      eexists. split; [reflexivity|]. split; [reflexivity|].
      apply (turnD_left _ _ _ _ _ _ l cands count longest x y); trivial; lia.
Qed.

(* ------------------------------------------------------------------ *)
(** * The search keeps the trees in order *)

Ltac upd :=
  unfold cut, update; cbn [leftSubtreeLeaf rightSubtreeLeaf];
  repeat match goal with
  | |- context [?i =? ?j] => destruct (Z.eqb_spec i j)
  end;
  try reflexivity; try lia; try congruence.

Lemma found_recorded (P : Match -> Prop) (position : Z) (s : Search) (l : Z)
  (cands : option (list Match)) (count longest : Z) :
  0 <= matchCandidateCount s ->
  Recorded position s l cands count longest ->
  Forall P (found s) ->
  (l >= MIN_MATCH_LENGTH -> P (mkMatch l (position - matchPosition s))) ->
  forall s', candidates s' = cands -> matchCandidateCount s' = count ->
    Forall P (found s').
Proof.
  intros Hc Hrec Hall Hnew s' Ec En. unfold found in *. rewrite Ec, En.
  destruct Hrec as [arr arr' G1 G2 Ecs Ea|G1 G2 Ecs|G].
  - rewrite Ecs in Hall. rewrite (firstn_assign_snoc _ _ _ _ Ea).
    apply Forall_app. split; [assumption|]. constructor; [now apply Hnew|constructor].
  - constructor.
  - assumption.
Qed.

Section SearchOrder.
Variables (buf : list Z) (base p M : Z) (c0 : Z -> Z).
Hypothesis Hbase : 0 <= base.
Hypothesis Hp : 0 <= p.
Hypothesis HM : MIN_MATCH_LENGTH <= M <= MAX_MATCH_LENGTH.
Hypothesis Hfit : base + p + M <= len buf - TAIL_LENGTH.
Hypothesis Hord0 : TreeOrd buf base M c0 (windowStart p) p.

(** The node the search stands at shares with the new string what the two
    bounds share with it. *)
Lemma ord_prefix (s : Search) (c : Z -> Z) (aL aR : Z) :
  SearchOrd buf base p M c0 aL aR s c ->
  windowStart p <= matchPosition s ->
  agree buf (base + p) (base + matchPosition s)
    (Z.min (lowMatchLength s) (highMatchLength s)).
Proof.
  intros [_ _ HaL HaR [Hlt Hnext] (Hl0 & Hl1 & Hl2) (Hh0 & Hh1 & Hh2) _ _ _ _] Hws.
  destruct (Z.eq_dec aL p) as [EL|NL]; [apply agree_nil; rewrite (Hl1 EL); lia|].
  destruct (Z.eq_dec aR p) as [ER|NR]; [apply agree_nil; rewrite (Hh1 ER); lia|].
  destruct (Hl2 NL) as [Hl3 Hl4]. destruct (Hh2 NR) as [Hh3 Hh4].
  destruct (Hnext Hws) as [RL RR].
  apply (sandwich buf M (base + aL) (base + aR)); try assumption; try lia.
  - destruct (Hord0 aL 1 (matchPosition s) ltac:(lia) ltac:(now right) (RL NL)) as [_ K].
    now apply K.
  - destruct (Hord0 aR 0 (matchPosition s) ltac:(lia) ltac:(now left) (RR NR)) as [K _].
    now apply K.
Qed.

Lemma ord_match (s : Search) (c : Z -> Z) (aL aR l : Z) :
  SearchOrd buf base p M c0 aL aR s c ->
  windowStart p <= matchPosition s ->
  agree buf
    (base + p + Z.min (lowMatchLength s) (highMatchLength s))
    (base + matchPosition s + Z.min (lowMatchLength s) (highMatchLength s))
    (l - Z.min (lowMatchLength s) (highMatchLength s)) ->
  agree buf (base + p) (base + matchPosition s) l.
Proof.
  intros Ho Hws Ha.
  apply (agree_app buf _ _ (Z.min (lowMatchLength s) (highMatchLength s)));
    [|now apply (ord_prefix s c aL aR)|assumption].
  destruct Ho as [_ _ _ _ _ (Hl0 & _) (Hh0 & _) _ _ _ _]. lia.
Qed.

Lemma new_candidate (q l : Z) :
  windowStart p <= q < p -> MIN_MATCH_LENGTH <= l <= M ->
  agree buf (base + p) (base + q) l ->
  is_match buf (base + p) (mkMatch l (p - q)).
Proof.
  intros Hq Hl Ha. pose proof (windowStart_nonneg p).
  unfold is_match. cbn [Length Offset]. split; [lia|]. split; [lia|]. split; [lia|].
  replace (base + p - (p - q)) with (base + q) by lia. now apply agree_sym.
Qed.

(** The loop ends on a leaf, or on the bound of the attempts. *)
Lemma ord_exhausted (s : Search) (c : Z -> Z) (aL aR : Z) :
  SearchOrd buf base p M c0 aL aR s c ->
  TreeOrd buf base M
    (update (update c (leftSubtreeLeaf s) INVALID_POSITION)
       (rightSubtreeLeaf s) INVALID_POSITION)
    (windowStart p) (p + 1).
Proof.
  intros Ho a side v Ha Hs Hr. fold (cut c s) in Hr.
  destruct (Z.eq_dec a p) as [->|Na].
  - split; intros ->; [now apply (so_smaller _ _ _ _ _ _ _ _ _ Ho)
                      |now apply (so_larger _ _ _ _ _ _ _ _ _ Ho)].
  - apply Hord0; [lia|assumption|].
    apply (Reach_sub (cut c s) c0 (windowStart p) p); trivial; [|lia].
    change (Linked c0 p (cut c s)).
    unfold cut. apply Linked_cut, Linked_cut, (so_cells _ _ _ _ _ _ _ _ _ Ho).
Qed.

(** What the invariant gives once the state is taken apart. *)
Lemma leaves_differ (aL aR : Z) :
  windowStart p <= aL <= p -> windowStart p <= aR <= p ->
  slot aL (if aL =? p then 0 else 1) <> slot aR (if aR =? p then 1 else 0).
Proof.
  intros HaL HaR E.
  destruct (slot_inj p aL aR _ _ HaL HaR (side_left aL p) (side_right aR p) E)
    as [-> E'].
  destruct (aR =? p); discriminate.
Qed.

(** The new string is above the node: the node goes to the left of it. *)
Lemma ord_left (s : Search) (c : Z -> Z) (aL aR l : Z)
  (cands : option (list Match)) (count longest x y : Z) :
  SearchOrd buf base p M c0 aL aR s c ->
  (forall q side, windowStart p <= q <= p -> side_ok side ->
     slot q side <> leftSubtreeLeaf s -> slot q side <> rightSubtreeLeaf s ->
     valid_below q (c (slot q side))) ->
  0 <= matchCandidateCount s ->
  windowStart p <= matchPosition s < p ->
  agree buf
    (base + p + Z.min (lowMatchLength s) (highMatchLength s))
    (base + matchPosition s + Z.min (lowMatchLength s) (highMatchLength s))
    (l - Z.min (lowMatchLength s) (highMatchLength s)) ->
  Z.min (lowMatchLength s) (highMatchLength s) <= l < M ->
  index buf (base + p + l) = Some x ->
  index buf (base + matchPosition s + l) = Some y ->
  y < x ->
  Recorded p s l cands count longest ->
  SearchOrd buf base p M c0 (matchPosition s) aR
    (mkSearch
       (Slice CHILD_COUNT (update c (leftSubtreeLeaf s) (matchPosition s)))
       cands
       (update c (leftSubtreeLeaf s) (matchPosition s) (slot (matchPosition s) 1))
       (slot (matchPosition s) 1) (rightSubtreeLeaf s)
       l (highMatchLength s) longest (matchCount s + 1) count)
    (update c (leftSubtreeLeaf s) (matchPosition s)).
Proof.
  intros Ho Hvalid Hcnt Hq Hag Hl Ex Ey Hxy Hrec.
  pose proof (ord_match s c aL aR l Ho (proj1 Hq) Hag) as Hmatch.
  pose proof (windowStart_nonneg p) as Hws.
  destruct Ho as [EL ER HaL HaR [Hlt Hnext] Hlow Hhigh Hcells Hsm Hlg Hfound].
  destruct (Hnext (proj1 Hq)) as [RL RR].
  pose proof (leaves_differ aL aR HaL HaR) as NLR.
  pose proof (side_left aL p) as HsL. pose proof (side_right aR p) as HsR.
  assert (HsLn : aL <> p -> (if aL =? p then 0 else 1) = 1)
    by (intros N; destruct (Z.eqb_spec aL p); [contradiction|reflexivity]).
  assert (HsLp : aL = p -> (if aL =? p then 0 else 1) = 0)
    by (intros N; destruct (Z.eqb_spec aL p); [reflexivity|contradiction]).
  remember (if aL =? p then 0 else 1) as sL eqn:EsL.
  remember (if aR =? p then 1 else 0) as sR eqn:EsR.
  destruct s as [t cands0 q L R low high longest0 mc mcc].
  unfold cut in *.
  cbn [tree candidates matchPosition leftSubtreeLeaf rightSubtreeLeaf lowMatchLength
       highMatchLength longestMatchLength matchCount matchCandidateCount] in *.
  subst L R.
  assert (N1 : forall sq, side_ok sq -> slot q sq <> slot aL sL)
    by (intros sq Hsq; apply (slot_older p); trivial; lia).
  assert (N2 : forall sq, side_ok sq -> slot q sq <> slot aR sR)
    by (intros sq Hsq; apply (slot_older p); trivial; lia).
  assert (S0 : side_ok 0) by now left. assert (S1 : side_ok 1) by now right.
  assert (Hq1 : c (slot q 1) < q).
  { destruct (Hvalid q 1 ltac:(lia) S1 (N1 1 S1) (N2 1 S1)) as [E|E];
      [unfold INVALID_POSITION in E|]; lia. }
  assert (Hbelow : below_at buf (base + q) (base + p) l).
  { split; [now apply agree_sym|]. now exists y, x. }
  assert (Hle : le_upto buf M (base + q) (base + p)).
  { right. exists l. split; [lia|assumption]. }
  constructor;
    cbn [tree candidates matchPosition leftSubtreeLeaf rightSubtreeLeaf lowMatchLength
         highMatchLength longestMatchLength matchCount matchCandidateCount].
  - destruct (Z.eqb_spec q p); [lia|reflexivity].
  - now rewrite EsR.
  - lia.
  - assumption.
  - rewrite update_other by (apply N1; assumption). split; [lia|].
    intros Hw.
    assert (Reach c0 (windowStart p) q 1 (c (slot q 1)))
      by (apply Hcells; trivial; lia).
    split; intros N; [assumption|].
    apply (Reach_trans c0 _ aR 0 q 1); trivial. now apply RR.
  - split; [lia|]. split; [intros; lia|]. intros _. split; [lia|assumption].
  - assumption.
  - apply Linked_attach; trivial.
    intros Hlt' Hv. rewrite HsLn by lia. apply RL. lia.
  - intros v Hv. unfold cut in Hv. cbn [leftSubtreeLeaf rightSubtreeLeaf] in Hv.
    set (g := update (update c (slot q 1) INVALID_POSITION) (slot aR sR)
                INVALID_POSITION).
    apply (Reach_same _ (update g (slot aL sL) q)) in Hv;
      [|intros i; subst g; pose proof (N1 1 S1); pose proof (N2 1 S1); upd].
    destruct (Reach_attach g p aL sL q p 0 v HaL HsL ltac:(lia) S0 Hv)
      as [A|(Hpre & Hval & [->|(s' & Hs' & Hrest)])].
    + apply Hsm. apply (Reach_cut _ _ (slot q 1)); [assumption|].
      eapply Reach_same; [|exact A].
      intros i; subst g; pose proof (N1 1 S1); pose proof (N2 1 S1); upd.
    + assumption.
    + apply (le_upto_trans buf M _ (base + q)); [|assumption].
      destruct Hs' as [-> | ->].
      * assert (Hr0 : Reach c0 (windowStart p) q 0 v).
        { apply (Reach_sub (update g (slot aL sL) q) c0 (windowStart p) p);
            trivial.
          change (Linked c0 p (update g (slot aL sL) q)).
          apply Linked_attach; trivial.
          - subst g. now apply Linked_cut, Linked_cut.
          - intros Hlt' Hv'. rewrite HsLn by lia. apply RL. lia. }
        destruct (Hord0 q 0 v ltac:(lia) S0 Hr0) as [K _]. now apply K.
      * exfalso. apply Reach_first in Hrest. revert Hrest.
        pose proof (N1 1 S1). pose proof (N2 1 S1). subst g.
        unfold update, INVALID_POSITION.
        repeat match goal with
        | |- context [?i =? ?j] => destruct (Z.eqb_spec i j)
        end; lia.
  - intros v Hv. unfold cut in Hv. cbn [leftSubtreeLeaf rightSubtreeLeaf] in Hv.
    set (g := update (update c (slot q 1) INVALID_POSITION) (slot aR sR)
                INVALID_POSITION).
    apply (Reach_same _ (update g (slot aL sL) q)) in Hv;
      [|intros i; subst g; pose proof (N1 1 S1); pose proof (N2 1 S1); upd].
    assert (Hcutg : forall a s v', Reach (update g (slot aL sL) INVALID_POSITION)
                      (windowStart p) a s v' ->
                    Reach (update (update c (slot aL sL) INVALID_POSITION)
                             (slot aR sR) INVALID_POSITION) (windowStart p) a s v').
    { intros a s v' A. apply (Reach_cut _ _ (slot q 1)); [assumption|].
      eapply Reach_same; [|exact A].
      intros i; subst g; pose proof (N1 1 S1); pose proof (N2 1 S1); upd. }
    destruct (Reach_attach g p aL sL q p 1 v HaL HsL ltac:(lia) S1 Hv)
      as [A|([[Ea Es]|Hpre] & Hval & _)].
    + apply Hlg. now apply Hcutg.
    + rewrite (HsLp (eq_sym Ea)) in Es. discriminate.
    + exfalso. apply Hcutg in Hpre.
      pose proof (Reach_bounds _ _ _ _ _ Hpre) as Hb.
      destruct Hlow as (Hl0 & _ & Hl2). destruct (Hl2 ltac:(lia)) as [Hl3 Hl4].
      apply (below_at_not_le buf M (base + aL) (base + p) low ltac:(lia) Hl4).
      now apply Hlg.
  - eapply (found_recorded (is_match buf (base + p)) p _ l cands count longest);
      [|exact Hrec|exact Hfound| |reflexivity|reflexivity].
    + exact Hcnt.
    + intros Hge. apply new_candidate; cbn [matchPosition]; trivial. lia.
Qed.

(** The new string is below the node: the node goes to the right of it. *)
Lemma ord_right (s : Search) (c : Z -> Z) (aL aR l : Z)
  (cands : option (list Match)) (count longest x y : Z) :
  SearchOrd buf base p M c0 aL aR s c ->
  (forall q side, windowStart p <= q <= p -> side_ok side ->
     slot q side <> leftSubtreeLeaf s -> slot q side <> rightSubtreeLeaf s ->
     valid_below q (c (slot q side))) ->
  0 <= matchCandidateCount s ->
  windowStart p <= matchPosition s < p ->
  agree buf
    (base + p + Z.min (lowMatchLength s) (highMatchLength s))
    (base + matchPosition s + Z.min (lowMatchLength s) (highMatchLength s))
    (l - Z.min (lowMatchLength s) (highMatchLength s)) ->
  Z.min (lowMatchLength s) (highMatchLength s) <= l < M ->
  index buf (base + p + l) = Some x ->
  index buf (base + matchPosition s + l) = Some y ->
  x < y ->
  Recorded p s l cands count longest ->
  SearchOrd buf base p M c0 aL (matchPosition s)
    (mkSearch
       (Slice CHILD_COUNT (update c (rightSubtreeLeaf s) (matchPosition s)))
       cands
       (update c (rightSubtreeLeaf s) (matchPosition s) (slot (matchPosition s) 0))
       (leftSubtreeLeaf s) (slot (matchPosition s) 0)
       (lowMatchLength s) l longest (matchCount s + 1) count)
    (update c (rightSubtreeLeaf s) (matchPosition s)).
Proof.
  intros Ho Hvalid Hcnt Hq Hag Hl Ex Ey Hxy Hrec.
  pose proof (ord_match s c aL aR l Ho (proj1 Hq) Hag) as Hmatch.
  pose proof (windowStart_nonneg p) as Hws.
  destruct Ho as [EL ER HaL HaR [Hlt Hnext] Hlow Hhigh Hcells Hsm Hlg Hfound].
  destruct (Hnext (proj1 Hq)) as [RL RR].
  pose proof (leaves_differ aL aR HaL HaR) as NLR.
  pose proof (side_left aL p) as HsL. pose proof (side_right aR p) as HsR.
  assert (HsRn : aR <> p -> (if aR =? p then 1 else 0) = 0)
    by (intros N; destruct (Z.eqb_spec aR p); [contradiction|reflexivity]).
  assert (HsRp : aR = p -> (if aR =? p then 1 else 0) = 1)
    by (intros N; destruct (Z.eqb_spec aR p); [reflexivity|contradiction]).
  remember (if aL =? p then 0 else 1) as sL eqn:EsL.
  remember (if aR =? p then 1 else 0) as sR eqn:EsR.
  destruct s as [t cands0 q L R low high longest0 mc mcc].
  unfold cut in *.
  cbn [tree candidates matchPosition leftSubtreeLeaf rightSubtreeLeaf lowMatchLength
       highMatchLength longestMatchLength matchCount matchCandidateCount] in *.
  subst L R.
  assert (N1 : forall sq, side_ok sq -> slot q sq <> slot aL sL)
    by (intros sq Hsq; apply (slot_older p); trivial; lia).
  assert (N2 : forall sq, side_ok sq -> slot q sq <> slot aR sR)
    by (intros sq Hsq; apply (slot_older p); trivial; lia).
  assert (S0 : side_ok 0) by now left. assert (S1 : side_ok 1) by now right.
  assert (Hq0 : c (slot q 0) < q).
  { destruct (Hvalid q 0 ltac:(lia) S0 (N1 0 S0) (N2 0 S0)) as [E|E];
      [unfold INVALID_POSITION in E|]; lia. }
  assert (Hbelow : below_at buf (base + p) (base + q) l).
  { split; [assumption|]. now exists x, y. }
  assert (Hle : le_upto buf M (base + p) (base + q)).
  { right. exists l. split; [lia|assumption]. }
  constructor;
    cbn [tree candidates matchPosition leftSubtreeLeaf rightSubtreeLeaf lowMatchLength
         highMatchLength longestMatchLength matchCount matchCandidateCount].
  - now rewrite EsL.
  - destruct (Z.eqb_spec q p); [lia|reflexivity].
  - assumption.
  - lia.
  - rewrite update_other by (apply N2; assumption). split; [lia|].
    intros Hw.
    assert (Reach c0 (windowStart p) q 0 (c (slot q 0)))
      by (apply Hcells; trivial; lia).
    split; intros N; [|assumption].
    apply (Reach_trans c0 _ aL 1 q 0); trivial. now apply RL.
  - assumption.
  - split; [lia|]. split; [intros; lia|]. intros _. split; [lia|assumption].
  - apply Linked_attach; trivial.
    intros Hlt' Hv. rewrite HsRn by lia. apply RR. lia.
  - intros v Hv. unfold cut in Hv. cbn [leftSubtreeLeaf rightSubtreeLeaf] in Hv.
    set (g := update (update c (slot aL sL) INVALID_POSITION) (slot q 0)
                INVALID_POSITION).
    apply (Reach_same _ (update g (slot aR sR) q)) in Hv;
      [|intros i; subst g; pose proof (N1 0 S0); pose proof (N2 0 S0); upd].
    assert (Hcutg : forall a s v', Reach (update g (slot aR sR) INVALID_POSITION)
                      (windowStart p) a s v' ->
                    Reach (update (update c (slot aL sL) INVALID_POSITION)
                             (slot aR sR) INVALID_POSITION) (windowStart p) a s v').
    { intros a s v' A. apply (Reach_cut _ _ (slot q 0)); [assumption|].
      eapply Reach_same; [|exact A].
      intros i; subst g; pose proof (N1 0 S0); pose proof (N2 0 S0); upd. }
    destruct (Reach_attach g p aR sR q p 0 v HaR HsR ltac:(lia) S0 Hv)
      as [A|([[Ea Es]|Hpre] & Hval & _)].
    + apply Hsm. now apply Hcutg.
    + rewrite (HsRp (eq_sym Ea)) in Es. discriminate.
    + exfalso. apply Hcutg in Hpre.
      pose proof (Reach_bounds _ _ _ _ _ Hpre) as Hb.
      destruct Hhigh as (Hh0 & _ & Hh2). destruct (Hh2 ltac:(lia)) as [Hh3 Hh4].
      apply (below_at_not_le buf M (base + p) (base + aR) high ltac:(lia) Hh4).
      now apply Hsm.
  - intros v Hv. unfold cut in Hv. cbn [leftSubtreeLeaf rightSubtreeLeaf] in Hv.
    set (g := update (update c (slot aL sL) INVALID_POSITION) (slot q 0)
                INVALID_POSITION).
    apply (Reach_same _ (update g (slot aR sR) q)) in Hv;
      [|intros i; subst g; pose proof (N1 0 S0); pose proof (N2 0 S0); upd].
    destruct (Reach_attach g p aR sR q p 1 v HaR HsR ltac:(lia) S1 Hv)
      as [A|(Hpre & Hval & [->|(s' & Hs' & Hrest)])].
    + apply Hlg. apply (Reach_cut _ _ (slot q 0)); [assumption|].
      eapply Reach_same; [|exact A].
      intros i; subst g; pose proof (N1 0 S0); pose proof (N2 0 S0); upd.
    + assumption.
    + apply (le_upto_trans buf M _ (base + q)); [assumption|].
      destruct Hs' as [-> | ->].
      * exfalso. apply Reach_first in Hrest. revert Hrest.
        pose proof (N1 0 S0). pose proof (N2 0 S0). subst g.
        unfold update, INVALID_POSITION.
        repeat match goal with
        | |- context [?i =? ?j] => destruct (Z.eqb_spec i j)
        end; lia.
      * assert (Hr1 : Reach c0 (windowStart p) q 1 v).
        { apply (Reach_sub (update g (slot aR sR) q) c0 (windowStart p) p);
            trivial.
          change (Linked c0 p (update g (slot aR sR) q)).
          apply Linked_attach; trivial.
          - subst g. now apply Linked_cut, Linked_cut.
          - intros Hlt' Hv'. rewrite HsRn by lia. apply RR. lia. }
        destruct (Hord0 q 1 v ltac:(lia) S1 Hr1) as [_ K]. now apply K.
  - eapply (found_recorded (is_match buf (base + p)) p _ l cands count longest);
      [|exact Hrec|exact Hfound| |reflexivity|reflexivity].
    + exact Hcnt.
    + intros Hge. apply new_candidate; cbn [matchPosition]; trivial. lia.
Qed.

(** The node holds the new string as far as a match can go: the new
    string takes its place. *)
Lemma ord_splice (s : Search) (c : Z -> Z) (aL aR : Z)
  (cands : option (list Match)) (count longest : Z) :
  SearchOrd buf base p M c0 aL aR s c ->
  (forall q side, windowStart p <= q <= p -> side_ok side ->
     slot q side <> leftSubtreeLeaf s -> slot q side <> rightSubtreeLeaf s ->
     valid_below q (c (slot q side))) ->
  0 <= matchCandidateCount s ->
  windowStart p <= matchPosition s < p ->
  agree buf
    (base + p + Z.min (lowMatchLength s) (highMatchLength s))
    (base + matchPosition s + Z.min (lowMatchLength s) (highMatchLength s))
    (M - Z.min (lowMatchLength s) (highMatchLength s)) ->
  Recorded p s M cands count longest ->
  TreeOrd buf base M
    (let t := update c (leftSubtreeLeaf s) (c (slot (matchPosition s) 0)) in
     update t (rightSubtreeLeaf s) (t (slot (matchPosition s) 1)))
    (windowStart p) (p + 1) /\
  forall s', candidates s' = cands -> matchCandidateCount s' = count ->
    Forall (is_match buf (base + p)) (found s').
Proof.
  intros Ho Hvalid Hcnt Hq Hag Hrec.
  pose proof (ord_match s c aL aR M Ho (proj1 Hq) Hag) as Hmatch.
  pose proof (windowStart_nonneg p) as Hws.
  destruct Ho as [EL ER HaL HaR [Hlt Hnext] Hlow Hhigh Hcells Hsm Hlg Hfound].
  split.
  2: { intros s' E1 E2.
       apply (found_recorded (is_match buf (base + p)) p s M cands count longest);
         trivial.
       intros Hge. apply new_candidate; trivial. lia. }
  destruct (Hnext (proj1 Hq)) as [RL RR].
  pose proof (leaves_differ aL aR HaL HaR) as NLR.
  pose proof (side_left aL p) as HsL. pose proof (side_right aR p) as HsR.
  assert (HsLn : aL <> p -> (if aL =? p then 0 else 1) = 1)
    by (intros N; destruct (Z.eqb_spec aL p); [contradiction|reflexivity]).
  assert (HsLp : aL = p -> (if aL =? p then 0 else 1) = 0)
    by (intros N; destruct (Z.eqb_spec aL p); [reflexivity|contradiction]).
  assert (HsRn : aR <> p -> (if aR =? p then 1 else 0) = 0)
    by (intros N; destruct (Z.eqb_spec aR p); [contradiction|reflexivity]).
  assert (HsRp : aR = p -> (if aR =? p then 1 else 0) = 1)
    by (intros N; destruct (Z.eqb_spec aR p); [reflexivity|contradiction]).
  remember (if aL =? p then 0 else 1) as sL eqn:EsL.
  remember (if aR =? p then 1 else 0) as sR eqn:EsR.
  destruct s as [t cands0 q L R low high longest0 mc mcc].
  unfold cut in *.
  cbn [tree candidates matchPosition leftSubtreeLeaf rightSubtreeLeaf lowMatchLength
       highMatchLength longestMatchLength matchCount matchCandidateCount] in *.
  subst L R. cbv zeta.
  assert (N1 : forall sq, side_ok sq -> slot q sq <> slot aL sL)
    by (intros sq Hsq; apply (slot_older p); trivial; lia).
  assert (N2 : forall sq, side_ok sq -> slot q sq <> slot aR sR)
    by (intros sq Hsq; apply (slot_older p); trivial; lia).
  assert (S0 : side_ok 0) by now left. assert (S1 : side_ok 1) by now right.
  rewrite (update_other c (slot aL sL) _ (slot q 1)) by (apply N1; assumption).
  set (l' := c (slot q 0)). set (r' := c (slot q 1)).
  assert (Hl' : l' < q).
  { destruct (Hvalid q 0 ltac:(lia) S0 (N1 0 S0) (N2 0 S0)) as [E|E];
      fold l' in E; [unfold INVALID_POSITION in E|]; lia. }
  assert (Hr' : r' < q).
  { destruct (Hvalid q 1 ltac:(lia) S1 (N1 1 S1) (N2 1 S1)) as [E|E];
      fold r' in E; [unfold INVALID_POSITION in E|]; lia. }
  assert (Rl' : windowStart p <= l' -> Reach c0 (windowStart p) q 0 l')
    by (intros; apply Hcells; trivial; fold l'; lia).
  assert (Rr' : windowStart p <= r' -> Reach c0 (windowStart p) q 1 r')
    by (intros; apply Hcells; trivial; fold r'; lia).
  assert (Hqp : le_upto buf M (base + q) (base + p)) by (left; now apply agree_sym).
  assert (Hpq : le_upto buf M (base + p) (base + q)) by now left.
  set (c' := update (update c (slot aL sL) l') (slot aR sR) r').
  assert (Hlink : Linked c0 p c').
  { subst c'. apply Linked_attach; trivial; [apply Linked_attach; trivial|].
    - intros Hlt' Hv. rewrite HsLn by lia.
      apply (Reach_trans c0 _ aL 1 q 0); trivial; [apply RL; lia|apply Rl'; lia].
    - intros Hlt' Hv. rewrite HsRn by lia.
      apply (Reach_trans c0 _ aR 0 q 1); trivial; [apply RR; lia|apply Rr'; lia]. }
  intros a side v Ha Hs Hr.
  destruct (Z.eq_dec a p) as [->|Na].
  2: { apply Hord0; [lia|assumption|].
       apply (Reach_sub c' c0 (windowStart p) p); trivial. lia. }
  split; intros ->.
  - (* the left of the new node *)
    apply (Reach_same _ (update (update c (slot aR sR) r') (slot aL sL) l')) in Hr;
      [|intros i; subst c'; upd].
    destruct (Reach_attach _ p aL sL l' p 0 v HaL HsL ltac:(lia) S0 Hr)
      as [A|(_ & Hval & Hv)].
    + apply (Reach_same _ (update (update c (slot aL sL) INVALID_POSITION)
                             (slot aR sR) r')) in A; [|intros i; upd].
      destruct (Reach_attach _ p aR sR r' p 0 v HaR HsR ltac:(lia) S0 A)
        as [A'|([[Ea Es]|Hpre] & _ & _)].
      * now apply Hsm.
      * rewrite (HsRp (eq_sym Ea)) in Es. discriminate.
      * exfalso. pose proof (Reach_bounds _ _ _ _ _ Hpre) as Hb.
        destruct Hhigh as (Hh0 & _ & Hh2). destruct (Hh2 ltac:(lia)) as [Hh3 Hh4].
        apply (below_at_not_le buf M (base + p) (base + aR) high ltac:(lia) Hh4).
        now apply Hsm.
    + apply (le_upto_trans buf M _ (base + q)); [|assumption].
      assert (Hr0 : Reach c0 (windowStart p) q 0 v).
      { destruct Hv as [->|(s' & Hs' & Hrest)]; [apply Rl'; lia|].
        apply (Reach_trans c0 _ q 0 l' s'); trivial; [apply Rl'; lia|].
        apply (Reach_sub c' c0 (windowStart p) p); trivial; [lia|].
        eapply Reach_same; [|exact Hrest]. intros i; subst c'; upd. }
      destruct (Hord0 q 0 v ltac:(lia) S0 Hr0) as [K _]. now apply K.
  - (* the right of the new node *)
    destruct (Reach_attach _ p aR sR r' p 1 v HaR HsR ltac:(lia) S1 Hr)
      as [A|(_ & Hval & Hv)].
    + apply (Reach_same _ (update (update c (slot aR sR) INVALID_POSITION)
                             (slot aL sL) l')) in A; [|intros i; upd].
      destruct (Reach_attach _ p aL sL l' p 1 v HaL HsL ltac:(lia) S1 A)
        as [A'|([[Ea Es]|Hpre] & _ & _)].
      * apply Hlg. eapply Reach_same; [|exact A']. intros i; upd.
      * rewrite (HsLp (eq_sym Ea)) in Es. discriminate.
      * exfalso. pose proof (Reach_bounds _ _ _ _ _ Hpre) as Hb.
        destruct Hlow as (Hl0 & _ & Hl2). destruct (Hl2 ltac:(lia)) as [Hl3 Hl4].
        apply (below_at_not_le buf M (base + aL) (base + p) low ltac:(lia) Hl4).
        apply Hlg. eapply Reach_same; [|exact Hpre]. intros i; upd.
    + apply (le_upto_trans buf M _ (base + q)); [assumption|].
      assert (Hr1 : Reach c0 (windowStart p) q 1 v).
      { destruct Hv as [->|(s' & Hs' & Hrest)]; [apply Rr'; lia|].
        apply (Reach_trans c0 _ q 1 r' s'); trivial; [apply Rr'; lia|].
        apply (Reach_sub c' c0 (windowStart p) p); trivial. lia. }
      destruct (Hord0 q 1 v ltac:(lia) S1 Hr1) as [_ K]. now apply K.
Qed.

(** One turn of the loop keeps the order invariant, and a turn that ends
    the loop leaves the trees in order, the new node included. *)
Lemma turnD_keeps_ord (s : Search) (c : Z -> Z) (aL aR : Z) (turn : Flow Search) :
  SearchInv p M s ->
  tree s = Slice CHILD_COUNT c ->
  SearchOrd buf base p M c0 aL aR s c ->
  SearchTurnD buf base p M s c turn ->
  match turn with
  | Continue s' =>
      exists c' aL' aR',
        tree s' = Slice CHILD_COUNT c' /\ SearchOrd buf base p M c0 aL' aR' s' c'
  | Break s' =>
      exists c',
        tree s' = Slice CHILD_COUNT c' /\
        TreeOrd buf base M c' (windowStart p) (p + 1) /\
        Forall (is_match buf (base + p)) (found s')
  end.
Proof.
  intros [(c1 & aL1 & aR1 & Et1 & _ & _ & _ & _ & _ & Hvalid) [[Hcnt _] _] _ _] Et Ho Hturn.
  rewrite Et in Et1. injection Et1 as <-.
  destruct Hturn as [H|cands count longest H1 H2 H3 H4
                    |l cands count longest x y H1 H2 H3 H4 H5 H6 H7 H8
                    |l cands count longest x y H1 H2 H3 H4 H5 H6 H7 H8].
  - eexists. split; [reflexivity|]. split; [now apply (ord_exhausted s c aL aR)|].
    exact (so_found _ _ _ _ _ _ _ _ _ Ho).
  - destruct (ord_splice s c aL aR cands count longest Ho Hvalid Hcnt H1 H3 H4)
      as [K1 K2].
    eexists. split; [reflexivity|]. split; [exact K1|]. now apply K2.
  - do 3 eexists. split; [reflexivity|].
    now apply (ord_right s c aL aR l cands count longest x y).
  - do 3 eexists. split; [reflexivity|].
    now apply (ord_left s c aL aR l cands count longest x y).
Qed.

Lemma searchLoop_ord :
  forall (fuel : nat) (s s' : Search),
    SearchInv p M s ->
    (exists c aL aR,
       tree s = Slice CHILD_COUNT c /\ SearchOrd buf base p M c0 aL aR s c) ->
    searchLoop fuel buf base p (windowStart p) M s = Some s' ->
    exists c',
      tree s' = Slice CHILD_COUNT c' /\
      TreeOrd buf base M c' (windowStart p) (p + 1) /\
      Forall (is_match buf (base + p)) (found s').
Proof.
  induction fuel as [|fuel IH]; intros s s' Hinv (c & aL & aR & Et & Ho);
    cbn [searchLoop]; [discriminate|].
  destruct (searchStep_turnD buf base p M s Hbase Hp) as (c1 & turn & Et1 & Es & Ht);
    trivial.
  { unfold TAIL_LENGTH, WORD_SIZE in Hfit. lia. }
  { lia. }
  rewrite Es. rewrite Et in Et1. injection Et1 as <-.
  pose proof (turn_keeps_inv _ _ _ _ _ Hinv Et (SearchTurnD_turn _ _ _ _ _ _ _ Ht)) as K.
  pose proof (turnD_keeps_ord s c aL aR turn Hinv Et Ho Ht) as K'.
  destruct turn as [s1|s1].
  - intros E. destruct K as (Hinv1 & _). now apply (IH s1 s').
  - intros [= <-]. exact K'.
Qed.

End SearchOrder.

(* ------------------------------------------------------------------ *)
(** * The dictionary keeps its trees in order *)

Lemma TreeOrd_weaken (buf : list Z) (base limit limit' : Z) (c : Z -> Z)
  (ws ws' top top' : Z) :
  TreeOrd buf base limit c ws top ->
  limit' <= limit -> ws <= ws' -> top' <= top ->
  TreeOrd buf base limit' c ws' top'.
Proof.
  intros H Hl Hw Ht a side v Ha Hs Hr.
  destruct (H a side v ltac:(lia) Hs (Reach_mono_ws c ws ws' a side v Hw Hr)) as [K0 K1].
  split; intros E; apply (le_upto_less buf limit); auto.
Qed.

Lemma windowStart_mono (a b : Z) : a <= b -> windowStart a <= windowStart b.
Proof. unfold windowStart. lia. Qed.

(** The rebase moves every position by the same multiple of
    DICTIONARY_SIZE: the trees are the same trees. *)
Lemma TreeOrd_rebase (buf : list Z) (base limit : Z) (c : Z -> Z) (ws top k : Z) :
  TreeOrd buf base limit c ws top ->
  0 < k -> k * DICTIONARY_SIZE <= ws ->
  TreeOrd buf (base + k * DICTIONARY_SIZE) limit
    (update_all c CHILD_COUNT (rebase (k * DICTIONARY_SIZE)))
    (ws - k * DICTIONARY_SIZE) (top - k * DICTIONARY_SIZE).
Proof.
  intros H Hk Hws. set (delta := k * DICTIONARY_SIZE) in *.
  assert (Hd : 0 < delta) by (subst delta; rewrite DICTIONARY_SIZE_eq; lia).
  assert (Hcell : forall b s, side_ok s ->
            ws - delta <= update_all c CHILD_COUNT (rebase delta) (slot b s) ->
            c (slot (b + delta) s)
            = update_all c CHILD_COUNT (rebase delta) (slot b s) + delta).
  { intros b s Hs. rewrite update_all_in by now apply slot_range.
    subst delta. rewrite slot_shift. unfold rebase, INVALID_POSITION.
    destruct (Z.geb_spec (c (slot b s)) (k * DICTIONARY_SIZE)); lia. }
  assert (Hreach : forall a s v, side_ok s ->
            Reach (update_all c CHILD_COUNT (rebase delta)) (ws - delta) a s v ->
            Reach c ws (a + delta) s (v + delta)).
  { intros a s v Hs. induction 1 as [Hedge|b0 s0 _ IH Hs0 Hedge].
    - rewrite <- (Hcell a s Hs) by lia. apply reach_child.
      rewrite (Hcell a s Hs) by lia. lia.
    - rewrite <- (Hcell b0 s0 Hs0) by lia.
      apply (reach_step c ws (a + delta) s (b0 + delta) s0); trivial.
      rewrite (Hcell b0 s0 Hs0) by lia. lia. }
  intros a side v Ha Hs Hr.
  destruct (H (a + delta) side (v + delta) ltac:(lia) Hs (Hreach a side v Hs Hr))
    as [K0 K1].
  replace (base + delta + v) with (base + (v + delta)) by lia.
  replace (base + delta + a) with (base + (a + delta)) by lia.
  now split.
Qed.

Lemma computeRelativePosition_ord (d d' : Dictionary) (position : Z) :
  DictInv d -> DictOrd d -> absolutePosition d < matchableBufferLength d ->
  computeRelativePosition d = Some (d', position) ->
  exists c,
    children d' = Slice CHILD_COUNT c /\
    TreeOrd (buffer d) (bufferBase d') (orderLimit d) c (windowStart position) position.
Proof.
  intros Hinv (c & Ec & Hord) Hlt.
  pose proof Hinv as [(h & Eh & Hh) _ Hbase Hm].
  assert (processed d = absolutePosition d - bufferBase d) as Ep
    by (unfold processed; lia).
  rewrite Ep in Hord.
  unfold computeRelativePosition.
  destruct (Z.eqb_spec (absolutePosition d - bufferBase d) REBASE_THRESHOLD) as [ET|NT].
  - rewrite Eh, Ec.
    rewrite slice_update_all_in by (rewrite HASH_TABLE_SIZE_eq; lia).
    rewrite slice_update_all_in by lia.
    intros [= <- <-].
    cbn [absolutePosition bufferBase buffer matchableBufferLength hashTable children].
    eexists. split; [reflexivity|].
    change 9223372036850581504 with (4398046511102 * DICTIONARY_SIZE).
    rewrite ET in Hord |- *.
    assert (Hk : 4398046511102 * DICTIONARY_SIZE <= windowStart REBASE_THRESHOLD)
      by (vm_compute; discriminate).
    exact (TreeOrd_rebase _ _ _ _ _ _ 4398046511102 Hord ltac:(lia) Hk).
  - intros [= <- <-]. exists c. split; [exact Ec|exact Hord].
Qed.

Lemma SetBuffer_ord (d0 d : Dictionary) (b : list Z) :
  Usable d0 -> SetBuffer d0 b = Some d -> DictOrd d.
Proof.
  intros Hu E.
  destruct (SetBuffer_spec d0 b Hu) as (d1 & E1 & [_ (c & Ec & _) _ _] & P1 & B1 & _).
  rewrite E in E1. injection E1 as <-.
  exists c. split; [exact Ec|].
  intros a side v Ha. unfold processed in Ha. pose proof (windowStart_nonneg
    (Z.min (absolutePosition d) (matchableBufferLength d) - bufferBase d)). lia.
Qed.

(** [FindMatches] keeps the trees in order, and every candidate it
    reports is a match of the buffer at the position of the call. *)
Lemma FindMatches_sound (d : Dictionary) (out : option (list Match))
  (d' : Dictionary) (out' : option (list Match)) (count : Z) :
  DictInv d -> DictOrd d ->
  (forall arr, out = Some arr -> MAX_MATCH_CANDIDATE_COUNT <= len arr) ->
  FindMatches d out = Some (d', out', count) ->
  DictOrd d' /\
  forall arr', out' = Some arr' ->
    Forall (is_match (buffer d) (absolutePosition d)) (firstn (Z.to_nat count) arr').
Proof.
  intros Hinv Hord Hroom. unfold FindMatches.
  destruct (Z.geb_spec (absolutePosition d) (matchableBufferLength d)) as [Hpast|Hin].
  - intros [= <- <- <-]. split.
    + destruct Hord as (c & Ec & Hc). exists c. split; [exact Ec|].
      unfold processed, orderLimit in *.
      cbn [absolutePosition bufferBase buffer matchableBufferLength hashTable children].
      replace (Z.min (absolutePosition d + 1) (matchableBufferLength d))
        with (Z.min (absolutePosition d) (matchableBufferLength d)) by lia.
      apply (TreeOrd_weaken _ _ _ _ _ _ _ _ _ Hc); lia.
    + intros arr' _. constructor.
  - destruct (computeRelativePosition_spec d Hinv Hin)
      as (d1 & position & E1 & Epos & Hpos & Eabs & Ebuf & Emat & Hinv1 & _).
    rewrite E1.
    destruct (computeRelativePosition_ord d d1 position Hinv Hord Hin E1)
      as (c & Ec & Hc0).
    pose proof DICTIONARY_SIZE_eq as ED.
    pose proof Hinv1 as [(h & Eh & Hh) (c1 & Ec1 & Hc) Hbase Hm].
    rewrite Ec in Ec1. injection Ec1 as <-.
    rewrite Emat in Hm. rewrite Ebuf in Hm.
    assert (absolutePosition d + 11 < len (buffer d)) as Hlen
      by (unfold TAIL_LENGTH, WORD_SIZE, MIN_MATCH_LENGTH in Hm; lia).
    assert (processed d1 = position) as Eproc by (unfold processed; lia).
    rewrite windowStart_if. rewrite min_spec.
    set (maxMatchLength :=
           Z.min (len (buffer d) - TAIL_LENGTH - absolutePosition d) MAX_MATCH_LENGTH).
    assert (MIN_MATCH_LENGTH <= maxMatchLength <= MAX_MATCH_LENGTH /\
            absolutePosition d + maxMatchLength <= len (buffer d) - TAIL_LENGTH)
      as (Hmax & Hfit).
    { subst maxMatchLength.
      unfold TAIL_LENGTH, WORD_SIZE, MAX_MATCH_LENGTH, MIN_MATCH_LENGTH in *. lia. }
    replace (bufferBase d1 + position) with (absolutePosition d) by lia.
    destruct (hash (buffer d1) (absolutePosition d)) as [hv|]; [|discriminate].
    rewrite Eh.
    assert (0 <= hv mod HASH_TABLE_SIZE < HASH_TABLE_SIZE) as Rhv
      by (apply Z.mod_pos_bound; reflexivity).
    rewrite slice_get_in by assumption. rewrite slice_set_in by assumption.
    pose proof (rem_slot position 0 Hpos) as Q0. rewrite Z.add_0_r in Q0.
    pose proof (rem_slot position 1 Hpos) as Q1.
    rewrite Q1, Q0. rewrite Ec.
    set (s0 := mkSearch (Slice CHILD_COUNT c) out (h (hv mod HASH_TABLE_SIZE))
                 (slot position 0) (slot position 1) 0 0 0 0 0).
    assert (Hroot : valid_below position (h (hv mod HASH_TABLE_SIZE)))
      by (rewrite <- Eproc; now apply Hh).
    assert (SearchInv position maxMatchLength s0) as Hs0.
    { constructor; cbn [s0 tree leftSubtreeLeaf rightSubtreeLeaf matchPosition
        matchCandidateCount matchCount candidates lowMatchLength highMatchLength
        longestMatchLength].
      - exists c, position, position. rewrite Z.eqb_refl.
        pose proof (windowStart_nonneg position). unfold windowStart in *.
        split; [reflexivity|]. split; [unfold windowStart; lia|].
        split; [unfold windowStart; lia|].
        split; [reflexivity|]. split; [reflexivity|]. split.
        { now rewrite Z.min_id. }
        intros q side Hq Hs NL NR.
        assert (q <> position) as Nq.
        { intros ->. destruct Hs as [-> | ->]; contradiction. }
        apply Hc; trivial; lia.
      - unfold MAX_MATCH_CANDIDATE_COUNT. lia.
      - exact Hroom.
      - unfold MIN_MATCH_LENGTH in Hmax. lia. }
    assert (Hc0' : TreeOrd (buffer d1) (bufferBase d1) maxMatchLength c
                     (windowStart position) position).
    { rewrite Ebuf. apply (TreeOrd_weaken _ _ _ _ _ _ _ _ _ Hc0); try lia.
      unfold orderLimit. subst maxMatchLength. lia. }
    assert (Ho0 : SearchOrd (buffer d1) (bufferBase d1) position maxMatchLength c
                    position position s0 c).
    { pose proof (windowStart_nonneg position) as Hws.
      assert (Hwp : windowStart position <= position) by (unfold windowStart; lia).
      assert (Hno : forall side v,
                ~ Reach (cut c s0) (windowStart position) position side v \/
                ~ side_ok side).
      { intros side v. destruct (Z.eq_dec side 0) as [->|N0];
          [|destruct (Z.eq_dec side 1) as [->|N1]].
        - left. intros Hr. apply Reach_first in Hr. revert Hr.
          unfold cut, update, INVALID_POSITION. cbn [s0 leftSubtreeLeaf rightSubtreeLeaf].
          repeat match goal with
          | |- context [?i =? ?j] => destruct (Z.eqb_spec i j)
          end; lia.
        - left. intros Hr. apply Reach_first in Hr. revert Hr.
          unfold cut, update, INVALID_POSITION. cbn [s0 leftSubtreeLeaf rightSubtreeLeaf].
          repeat match goal with
          | |- context [?i =? ?j] => destruct (Z.eqb_spec i j)
          end; lia.
        - right. unfold side_ok. lia. }
      constructor; cbn [s0 tree leftSubtreeLeaf rightSubtreeLeaf matchPosition
        matchCandidateCount matchCount candidates lowMatchLength highMatchLength
        longestMatchLength]; rewrite ?Z.eqb_refl; try reflexivity; try lia.
      - split.
        + destruct Hroot as [E|E]; [unfold INVALID_POSITION in E|]; lia.
        + intros _. split; intros N; contradiction.
      - intros b side Hb Hs Hv. now apply reach_child.
      - intros v Hr. destruct (Hno 0 v) as [N|N]; [contradiction|].
        exfalso. apply N. now left.
      - intros v Hr. destruct (Hno 1 v) as [N|N]; [contradiction|].
        exfalso. apply N. now right.
      - unfold found. cbn [s0 candidates matchCandidateCount Z.to_nat].
        destruct out; constructor. }
    destruct (searchLoop (S (Z.to_nat MAX_MATCH_CANDIDATE_COUNT)) (buffer d1)
                (bufferBase d1) position (windowStart position) maxMatchLength s0)
      as [s'|] eqn:Eloop; [|discriminate].
    intros [= <- <- <-].
    destruct (searchLoop_ord (buffer d1) (bufferBase d1) position maxMatchLength c
                ltac:(lia) Hpos Hmax ltac:(rewrite Ebuf; lia) Hc0' _ s0 s' Hs0
                ltac:(now exists c, position, position) Eloop)
      as (c' & Ec' & Hord' & Hfound).
    split.
    + exists c'. split; [exact Ec'|]. unfold processed, orderLimit.
      cbn [absolutePosition bufferBase buffer matchableBufferLength hashTable children].
      rewrite Ebuf in *.
      apply (TreeOrd_weaken _ _ _ _ _ _ _ _ _ Hord').
      * subst maxMatchLength. lia.
      * apply windowStart_mono. lia.
      * lia.
    + intros arr' Earr. unfold found in Hfound. rewrite Earr in Hfound.
      rewrite Ebuf in Hfound.
      replace (bufferBase d1 + position) with (absolutePosition d) in Hfound by lia.
      exact Hfound.
Qed.

Lemma call_ord (d d' : Dictionary) (c : Call) :
  DictInv d -> DictOrd d -> roomy c -> call d c = Some d' -> DictOrd d'.
Proof.
  intros Hinv Hord Hr. destruct c as [out|]; unfold call, Skip.
  - destruct (FindMatches d (Some out)) as [[[d1 o1] n1]|] eqn:E; [|discriminate].
    intros [= <-]. apply (FindMatches_sound d (Some out) d1 o1 n1); trivial.
    intros arr [= <-]. exact Hr.
  - destruct (FindMatches d None) as [[[d1 o1] n1]|] eqn:E; [|discriminate].
    intros [= <-]. apply (FindMatches_sound d None d1 o1 n1); trivial.
    intros arr [=].
Qed.

Lemma calls_ord (cs : list Call) :
  forall d d', DictInv d -> DictOrd d -> Forall roomy cs ->
    calls d cs = Some d' -> DictOrd d'.
Proof.
  induction cs as [|c cs IH]; intros d d' Hinv Hord Hr; cbn [calls].
  - now intros [= <-].
  - inversion Hr as [|? ? Hc Hcs]; subst.
    destruct (call_spec d c Hinv Hc) as (d1 & E1 & Hinv1 & _). rewrite E1.
    apply (IH d1 d'); trivial. now apply (call_ord d d1 c).
Qed.

(** X9: every candidate that [FindMatches] reports is a match of the
    buffer: after [SetBuffer] and any calls, a candidate found at the
    position p (the number of calls made before) has an offset from 1 to
    p, a length from MIN_MATCH_LENGTH to MAX_MATCH_LENGTH that ends at
    least TAIL_LENGTH bytes before the end of the buffer, and the bytes at
    p - Offset .. p - Offset + Length - 1 are the bytes at
    p .. p + Length - 1. *)
Theorem FindMatches_candidates_match
  (d0 : Dictionary) (b : list Z) (cs : list Call) (out : list Match) :
  Usable d0 -> Forall roomy cs -> MAX_MATCH_CANDIDATE_COUNT <= len out ->
  exists d1 d2 d3 out' count,
    SetBuffer d0 b = Some d1 /\
    calls d1 cs = Some d2 /\
    FindMatches d2 (Some out) = Some (d3, Some out', count) /\
    Forall (is_match b (len cs)) (firstn (Z.to_nat count) out').
Proof.
  intros Hu Hr Hout.
  destruct (SetBuffer_spec d0 b Hu) as (d1 & E1 & I1 & P1 & _ & B1 & _).
  pose proof (SetBuffer_ord d0 d1 b Hu E1) as O1.
  destruct (calls_spec cs d1 I1 Hr) as (d2 & E2 & I2 & P2 & B2 & _).
  pose proof (calls_ord cs d1 d2 I1 O1 Hr E2) as O2.
  destruct (FindMatches_spec d2 (Some out) I2) as (d3 & out' & count & E3 & _ & _ & _ & _ & Hs & _).
  { intros arr [= <-]. exact Hout. }
  destruct out' as [arr'|]; [|discriminate Hs].
  exists d1, d2, d3, arr', count. split; [exact E1|]. split; [exact E2|].
  split; [exact E3|].
  destruct (FindMatches_sound d2 (Some out) d3 (Some arr') count I2 O2) as [_ K];
    trivial.
  { intros arr [= <-]. exact Hout. }
  specialize (K arr' eq_refl). rewrite B2, B1, P2, P1 in K. exact K.
Qed.

Lemma FindMatches_candidates_match_witness :
  exists d1 d2 d3 out' count,
    SetBuffer Dictionary_zero (repeat 7 40) = Some d1 /\
    calls d1 [CallSkip; CallFindMatches (repeat (mkMatch 0 0) 128)] = Some d2 /\
    FindMatches d2 (Some (repeat (mkMatch 0 0) 128)) = Some (d3, Some out', count) /\
    Forall (is_match (repeat 7 40)
              (len [CallSkip; CallFindMatches (repeat (mkMatch 0 0) 128)]))
      (firstn (Z.to_nat count) out').
Proof.
  apply (FindMatches_candidates_match Dictionary_zero (repeat 7 40)
           [CallSkip; CallFindMatches (repeat (mkMatch 0 0) 128)]
           (repeat (mkMatch 0 0) 128)).
  - left. reflexivity.
  - repeat constructor. vm_compute. discriminate.
  - vm_compute. discriminate.
Defined.

(* ------------------------------------------------------------------ *)
(** * The decoder reads the stream of a block *)

Lemma Tok_room (d : Decompressor) (blk src : list Z) (inputEnd ii oi cw : Z) :
  Tok d blk src inputEnd ii oi cw ->
  oi <= len src /\ ii + Z.min (len src - oi) 8 + 4 <= inputEnd.
Proof.
  induction 1 as [ii cw H|ii oi w Hoi _ _ _ IH|ii oi cw b _ _ _ Es _ IH
                 |ii oi cw m size _ _ _ Hsz Hm _ IH].
  - unfold TRAILING_DUMMY_SIZE, WORD_SIZE in H. lia.
  - unfold WORD_SIZE in IH. lia.
  - apply index_range in Es. lia.
  - destruct Hm as (HL & HO & Hend & _).
    unfold TAIL_LENGTH, WORD_SIZE, MIN_MATCH_LENGTH in *. lia.
Qed.

(** A word read in bytes and written elsewhere carries the four bytes. *)
Lemma copy_word (inp out out' : list Z) (ii oi w : Z) :
  bytes_ok inp ->
  FastRead inp ii WORD_SIZE = Some w ->
  FastWrite out oi w WORD_SIZE = Some out' ->
  forall k, 0 <= k < 4 -> index out' (oi + k) = index inp (ii + k).
Proof.
  intros Hb Er Ew k Hk. unfold FastRead, FastWrite, WORD_SIZE in *.
  cbn [Z.eqb Pos.eqb] in *.
  assert (Hr : 0 <= ii /\ ii + 4 <= len inp).
  { unfold le_read in Er. destruct (Z.leb_spec 0 ii); [|discriminate].
    destruct (Z.leb_spec (ii + Z.of_nat 4) (len inp)); [|discriminate]. lia. }
  destruct (index_Some inp ii ltac:(lia)) as (b0 & E0).
  destruct (index_Some inp (ii + 1) ltac:(lia)) as (b1 & E1).
  destruct (index_Some inp (ii + 2) ltac:(lia)) as (b2 & E2).
  destruct (index_Some inp (ii + 3) ltac:(lia)) as (b3 & E3).
  pose proof (bytes_ok_index _ _ _ Hb E0). pose proof (bytes_ok_index _ _ _ Hb E1).
  pose proof (bytes_ok_index _ _ _ Hb E2). pose proof (bytes_ok_index _ _ _ Hb E3).
  unfold byte_ok in *.
  assert (Hw : w = b0 + 256 * (b1 + 256 * (b2 + 256 * b3))).
  { pose proof (le_read4 _ _ _ _ _ _ E0 E1 E2 E3) as Er'. congruence. }
  clear Er.
  rewrite (index_blit _ _ _ _ _ Ew), len_le_bytes.
  destruct (Z.leb_spec oi (oi + k)); [|lia].
  destruct (Z.ltb_spec (oi + k) (oi + Z.of_nat 4)); [|lia]. cbn [andb].
  replace (oi + k - oi) with k by lia. rewrite index_le_bytes by lia.
  unfold to_uint32. change (2 ^ 32) with 4294967296.
  assert (k = 0 \/ k = 1 \/ k = 2 \/ k = 3) as [-> | [-> | [-> | ->]]] by lia.
  - change (2 ^ (8 * 0)) with 1. rewrite Z.add_0_r, E0. f_equal.
    Z.div_mod_to_equations. lia.
  - change (2 ^ (8 * 1)) with 256. rewrite E1. f_equal. Z.div_mod_to_equations. lia.
  - change (2 ^ (8 * 2)) with 65536. rewrite E2. f_equal. Z.div_mod_to_equations. lia.
  - change (2 ^ (8 * 3)) with 16777216. rewrite E3. f_equal.
    Z.div_mod_to_equations. lia.
Qed.

Lemma bytes_ok_le_bytes (n : nat) (v : Z) : bytes_ok (le_bytes n v).
Proof.
  unfold bytes_ok, le_bytes. apply Forall_forall. intros x Hx.
  apply in_map_iff in Hx as (k & <- & _). unfold byte_ok.
  apply Z.mod_pos_bound. lia.
Qed.

Lemma bytes_ok_blit (l l' : list Z) (off : Z) (bs : list Z) :
  bytes_ok l -> bytes_ok bs -> blit l off bs = Some l' -> bytes_ok l'.
Proof.
  unfold blit. intros Hl Hb. destruct (_ && _); [|discriminate]. intros [= <-].
  unfold bytes_ok. apply Forall_app. split; [now apply Forall_firstn|].
  apply Forall_app. split; [assumption|now apply Forall_skipn].
Qed.

Lemma bytes_ok_assign (l l' : list Z) (i b : Z) :
  bytes_ok l -> byte_ok b -> assign l i b = Some l' -> bytes_ok l'.
Proof.
  unfold assign. intros Hl Hb. destruct (_ && _); [|discriminate]. intros [= <-].
  unfold bytes_ok. apply Forall_app. split; [now apply Forall_firstn|].
  constructor; [assumption|now apply Forall_skipn].
Qed.

Lemma bytes_ok_FastWrite (out out' : list Z) (off w s : Z) :
  bytes_ok out -> FastWrite out off w s = Some out' -> bytes_ok out'.
Proof.
  intros Hb. unfold FastWrite.
  destruct (s =? 4); [apply bytes_ok_blit; trivial; apply bytes_ok_le_bytes|].
  destruct (s =? 3); [apply bytes_ok_blit; trivial; apply bytes_ok_le_bytes|].
  destruct (s =? 2).
  { destruct (_ && _); [|discriminate].
    apply bytes_ok_blit; trivial; apply bytes_ok_le_bytes. }
  destruct (s =? 1).
  { apply bytes_ok_assign; trivial. unfold byte_ok, to_byte.
    apply Z.mod_pos_bound. reflexivity. }
  now intros [= <-].
Qed.

(** A string that repeats with the period [off] repeats with every
    multiple of it. *)
Lemma agree_period (src : list Z) (oi off length : Z) (n : nat) :
  1 <= off -> agree src (oi - off) oi length ->
  forall t, Z.of_nat n * off <= t < length ->
    exists x, index src (oi + t - (Z.of_nat n + 1) * off) = Some x /\
              index src (oi + t) = Some x.
Proof.
  intros Hoff Ha. induction n as [|n IH]; intros t Ht.
  - destruct (Ha t ltac:(lia)) as (x & E1 & E2). exists x.
    replace (oi + t - (Z.of_nat 0 + 1) * off) with (oi - off + t) by lia. now split.
  - destruct (IH (t - off) ltac:(lia)) as (x & E1 & E2).
    destruct (Ha t ltac:(lia)) as (y & E3 & E4).
    replace (oi - off + t) with (oi + (t - off)) in E3 by lia.
    exists x. split; [|congruence].
    replace (oi + t - (Z.of_nat (S n) + 1) * off)
      with (oi + (t - off) - (Z.of_nat n + 1) * off) by lia.
    assumption.
Qed.
